(** * A shallow embedding of the product-catalog service (src/lib/wp.ts, src/lib/env.ts)

    The development follows the TypeScript sources function by function:
    - JavaScript strings are sequences of UTF-16 code units ([list N]);
    - [string | null | undefined] is [option jsstring], [None] standing for
      both nullish values;
    - regular expressions are terms of [regex], run by a backtracking
      matcher with the greedy, leftmost semantics of ECMAScript;
    - the [number]s produced by [Number(...)] are IEEE binary64 values
      ([spec_float] of the standard library);
    - the module-level cache slot, the clock and the issued requests form
      the [World] that the service functions thread through a small
      state-and-exception monad. *)

From Stdlib Require Import ZArith NArith Bool List Ascii String Lia.
From Stdlib Require Import Floats.SpecFloat.
From Stdlib Require DecimalN DecimalPos DecimalFacts.
From stdpp Require Import base option list gmap.

Local Open Scope N_scope.

(** ** JavaScript strings *)

Abbreviation jsstring := (list N).

Definition ch (a : ascii) : N := N_of_ascii a.

Fixpoint js (s : string) : jsstring :=
  match s with
  | EmptyString => []
  | String a s' => ch a :: js s'
  end.

(** Truthiness of a [string | null | undefined] value. *)
Definition truthy (v : option jsstring) : bool :=
  match v with
  | Some (_ :: _) => true
  | _ => false
  end.

(** [a || b] on such values. *)
Definition or_else (a b : option jsstring) : option jsstring :=
  if truthy a then a else b.

Definition in_range (lo hi c : N) : bool := (lo <=? c) && (c <=? hi).

Definition is_digit (c : N) : bool := in_range 48 57 c.
Definition is_upper (c : N) : bool := in_range 65 90 c.
Definition is_lower (c : N) : bool := in_range 97 122 c.
Definition is_alpha (c : N) : bool := is_upper c || is_lower c.

(** [\w] without the unicode flag. *)
Definition is_word (c : N) : bool := is_alpha c || is_digit c || (c =? 95).

(** WhiteSpace and LineTerminator code points: the class [\s], also what
    [String.prototype.trim] and [Number] strip. *)
Definition is_space (c : N) : bool :=
  in_range 9 13 c || (c =? 32) || (c =? 160) || (c =? 5760)
  || in_range 8192 8202 c || (c =? 8232) || (c =? 8233) || (c =? 8239)
  || (c =? 8287) || (c =? 12288) || (c =? 65279).

Definition is_char (a : ascii) (c : N) : bool := c =? ch a.

(** A pattern letter under the [i] flag (no [u] flag): canonicalisation maps
    only the two ASCII cases of a letter to the same code unit. *)
Definition upcase (c : N) : N := if is_lower c then c - 32 else c.
Definition is_char_ci (a : ascii) (c : N) : bool := upcase c =? upcase (ch a).

Definition toUpperCase_ascii (s : jsstring) : jsstring := map upcase s.

Definition jseqb (a b : jsstring) : bool := bool_decide (a = b).

Fixpoint starts_with (p s : jsstring) : bool :=
  match p, s with
  | [], _ => true
  | a :: p', b :: s' => (a =? b) && starts_with p' s'
  | _ :: _, [] => false
  end.

Fixpoint drop_while (p : N -> bool) (s : jsstring) : jsstring :=
  match s with
  | c :: s' => if p c then drop_while p s' else s
  | [] => []
  end.

(** [String.prototype.trim]. *)
Definition trim (s : jsstring) : jsstring :=
  rev (drop_while is_space (rev (drop_while is_space s))).

(** [s.replace(pat, repl)] with a string pattern: the first occurrence only.
    None of the replacement texts used by the sources contains [$]. *)
Fixpoint replace_str (pat repl s : jsstring) : jsstring :=
  if starts_with pat s then repl ++ drop (length pat) s
  else match s with
       | [] => []
       | c :: s' => c :: replace_str pat repl s'
       end.

(** ** Regular expressions *)

Inductive regex : Type :=
| REmpty
| RChar (p : N -> bool)
| RSeq (r1 r2 : regex)
| RAlt (r1 r2 : regex)
| RStar (r : regex)
| RGroup (i : nat) (r : regex)
| RWordB
| REnd
| RLookahead (r : regex).

Definition RPlus (r : regex) : regex := RSeq r (RStar r).
Definition ROpt (r : regex) : regex := RAlt r REmpty.
(** [r{2,3}] *)
Definition RRep23 (r : regex) : regex := RSeq r (RSeq r (ROpt r)).

Definition RSeqs (rs : list regex) : regex := foldr RSeq REmpty rs.

Fixpoint RLit (s : jsstring) : regex :=
  match s with
  | [] => REmpty
  | c :: s' => RSeq (RChar (N.eqb c)) (RLit s')
  end.

Fixpoint RLit_ci (s : string) : regex :=
  match s with
  | EmptyString => REmpty
  | String a s' => RSeq (RChar (is_char_ci a)) (RLit_ci s')
  end.

(** The matcher state: the input already passed (nearest code unit first),
    the input still ahead, and the capture groups set so far. *)
Record mstate : Type := MState {
  before : jsstring;
  after : jsstring;
  caps : list (nat * jsstring)
}.

Definition consumed (st st' : mstate) : jsstring :=
  take (length (after st) - length (after st')) (after st).

Definition at_word_boundary (st : mstate) : bool :=
  let a := match before st with c :: _ => is_word c | [] => false end in
  let b := match after st with c :: _ => is_word c | [] => false end in
  xorb a b.

(** Backtracking matcher in continuation-passing style.  [rmatch r st k]
    tries the ways [r] can match at [st] in priority order and returns the
    first one the continuation [k] accepts.  An iteration of [*] that
    consumes nothing is rejected, as in ECMAScript's RepeatMatcher. *)
Fixpoint rmatch (r : regex) (st : mstate) (k : mstate -> option mstate)
  {struct r} : option mstate :=
  match r with
  | REmpty => k st
  | RChar p =>
      match after st with
      | c :: rest =>
          if p c then k (MState (c :: before st) rest (caps st)) else None
      | [] => None
      end
  | RSeq r1 r2 => rmatch r1 st (fun st1 => rmatch r2 st1 k)
  | RAlt r1 r2 =>
      match rmatch r1 st k with
      | Some e => Some e
      | None => rmatch r2 st k
      end
  | RStar r1 =>
      (fix loop (fuel : nat) (st0 : mstate) {struct fuel} : option mstate :=
         match fuel with
         | O => k st0
         | S fuel' =>
             match rmatch r1 st0 (fun st1 =>
                     if (length (after st1) <? length (after st0))%nat
                     then loop fuel' st1 else None) with
             | Some e => Some e
             | None => k st0
             end
         end) (length (after st)) st
  | RGroup i r1 =>
      rmatch r1 st (fun st1 =>
        k (MState (before st1) (after st1) ((i, consumed st st1) :: caps st1)))
  | RWordB => if at_word_boundary st then k st else None
  | REnd => match after st with [] => k st | _ :: _ => None end
  | RLookahead r1 =>
      match rmatch r1 st Some with
      | Some e => k (MState (before st) (after st) (caps e))
      | None => None
      end
  end.

Definition match_here (r : regex) (bef aft : jsstring) : option mstate :=
  rmatch r (MState bef aft []) Some.

(** The result of a successful [exec]: where the match starts, the matched
    text, what follows it, and the groups. *)
Record rmatch_result : Type := MatchResult {
  m_prefix : jsstring;
  m_text : jsstring;
  m_suffix : jsstring;
  m_groups : list (nat * jsstring)
}.

Fixpoint group (i : nat) (gs : list (nat * jsstring)) : option jsstring :=
  match gs with
  | [] => None
  | (j, s) :: gs' => if (i =? j)%nat then Some s else group i gs'
  end.

(** Leftmost match: [s.match(re)] and the search step of [s.replace(re, _)]
    for a pattern without the [g] flag. *)
Fixpoint exec_from (r : regex) (bef aft : jsstring) : option rmatch_result :=
  match match_here r bef aft with
  | Some e =>
      Some (MatchResult (rev bef)
              (take (length aft - length (after e)) aft) (after e) (caps e))
  | None =>
      match aft with
      | [] => None
      | c :: aft' => exec_from r (c :: bef) aft'
      end
  end.

Definition exec (r : regex) (s : jsstring) : option rmatch_result :=
  exec_from r [] s.

Definition replace_re (r : regex) (repl : jsstring -> jsstring) (s : jsstring)
  : jsstring :=
  match exec r s with
  | Some m => m_prefix m ++ repl (m_text m) ++ m_suffix m
  | None => s
  end.

(** [s.replace(re, repl)] with the [g] flag.  [skip] counts the code units of
    the current match still to pass over; after an empty match the scan
    moves on by one code unit. *)
Fixpoint replace_all_from (r : regex) (repl : jsstring -> jsstring)
  (skip : nat) (bef aft : jsstring) {struct aft} : jsstring :=
  match skip with
  | S skip' =>
      match aft with
      | [] => []
      | c :: aft' => replace_all_from r repl skip' (c :: bef) aft'
      end
  | O =>
      match match_here r bef aft with
      | Some e =>
          let n := (length aft - length (after e))%nat in
          repl (take n aft) ++
          match aft with
          | [] => []
          | c :: aft' =>
              (if (n =? 0)%nat then [c] else []) ++
              replace_all_from r repl (n - 1) (c :: bef) aft'
          end
      | None =>
          match aft with
          | [] => []
          | c :: aft' => c :: replace_all_from r repl 0 (c :: bef) aft'
          end
      end
  end.

Definition replace_all (r : regex) (repl : jsstring -> jsstring)
  (s : jsstring) : jsstring :=
  replace_all_from r repl 0 [] s.

(** ** Numbers: [Number(string)] and [toLocaleString] *)

Abbreviation number := spec_float.

Definition prec : Z := 53.
Definition emax : Z := 1024.

Definition isNaN (x : number) : bool :=
  match x with S754_nan => true | _ => false end.

Fixpoint take_while (p : N -> bool) (s : jsstring) : jsstring :=
  match s with
  | c :: s' => if p c then c :: take_while p s' else []
  | [] => []
  end.

Definition is_hex_digit (c : N) : bool :=
  is_digit c || in_range 65 70 c || in_range 97 102 c.
Definition is_octal_digit (c : N) : bool := in_range 48 55 c.
Definition is_binary_digit (c : N) : bool := in_range 48 49 c.

Definition digit_value (c : N) : Z :=
  if is_digit c then Z.of_N (c - 48)
  else if is_upper c then Z.of_N (c - 55)
  else Z.of_N (c - 87).

(** The mathematical value of a digit sequence in the given radix. *)
Definition digits_value (radix : Z) (ds : jsstring) : Z :=
  fold_left (fun acc c => (acc * radix + digit_value c)%Z) ds 0%Z.

(** The binary64 value nearest to [m * 10 ^ e10] (ties to even), with the
    sign [neg]; [m] is non-negative. *)
Definition round_decimal (neg : bool) (m e10 : Z) : number :=
  match m with
  | Z0 => S754_zero neg
  | _ =>
      if (0 <=? e10)%Z
      then binary_normalize prec emax
             (if neg then (- (m * 10 ^ e10))%Z else (m * 10 ^ e10)%Z) 0 neg
      else
        let '(q, e, l) :=
          SFdiv_core_binary prec emax m 0 (10 ^ (- e10))%Z 0 in
        binary_round_aux prec emax neg q e l
  end.

Definition split_sign (s : jsstring) : bool * jsstring :=
  match s with
  | c :: s' =>
      if is_char "-" c then (true, s')
      else if is_char "+" c then (false, s')
      else (false, s)
  | [] => (false, [])
  end.

(** ExponentPart, optional: the exponent and nothing after it. *)
Definition parse_exponent (s : jsstring) : option Z :=
  match s with
  | [] => Some 0%Z
  | c :: s' =>
      if is_char "e" c || is_char "E" c then
        let '(neg, ds) := split_sign s' in
        match ds with
        | [] => None
        | _ :: _ =>
            if forallb is_digit ds
            then Some (if neg then (- digits_value 10 ds)%Z
                       else digits_value 10 ds)
            else None
        end
      else None
  end.

(** StrUnsignedDecimalLiteral other than [Infinity]. *)
Definition parse_unsigned_decimal (neg : bool) (s : jsstring) : number :=
  let int_part := take_while is_digit s in
  let rest := drop (length int_part) s in
  let '(frac_part, rest') :=
    match rest with
    | c :: r =>
        if is_char "." c
        then (take_while is_digit r, drop (length (take_while is_digit r)) r)
        else ([], rest)
    | [] => ([], [])
    end in
  match int_part ++ frac_part with
  | [] => S754_nan
  | ds =>
      match parse_exponent rest' with
      | Some e =>
          round_decimal neg (digits_value 10 ds)
            (e - Z.of_nat (length frac_part))
      | None => S754_nan
      end
  end.

Definition parse_radix (radix : Z) (p : N -> bool) (ds : jsstring) : number :=
  match ds with
  | [] => S754_nan
  | _ :: _ =>
      if forallb p ds then round_decimal false (digits_value radix ds) 0
      else S754_nan
  end.

(** [Number(s)] on a string: StringToNumber.  Decimal literals are rounded
    correctly to the nearest binary64 value. *)
Definition Number_ (s : jsstring) : number :=
  match trim s with
  | [] => S754_zero false
  | t =>
      match t with
      | 48 :: c :: ds =>
          if is_char "x" c || is_char "X" c then parse_radix 16 is_hex_digit ds
          else if is_char "o" c || is_char "O" c
               then parse_radix 8 is_octal_digit ds
          else if is_char "b" c || is_char "B" c
               then parse_radix 2 is_binary_digit ds
          else parse_unsigned_decimal false t
      | _ =>
          let '(neg, u) := split_sign t in
          if jseqb u (js "Infinity") then S754_infinity neg
          else parse_unsigned_decimal neg u
      end
  end.

Fixpoint uint_digits (d : Decimal.uint) : jsstring :=
  match d with
  | Decimal.Nil => []
  | Decimal.D0 d' => 48 :: uint_digits d'
  | Decimal.D1 d' => 49 :: uint_digits d'
  | Decimal.D2 d' => 50 :: uint_digits d'
  | Decimal.D3 d' => 51 :: uint_digits d'
  | Decimal.D4 d' => 52 :: uint_digits d'
  | Decimal.D5 d' => 53 :: uint_digits d'
  | Decimal.D6 d' => 54 :: uint_digits d'
  | Decimal.D7 d' => 55 :: uint_digits d'
  | Decimal.D8 d' => 56 :: uint_digits d'
  | Decimal.D9 d' => 57 :: uint_digits d'
  end.

Definition decimal_digits (n : Z) : jsstring := uint_digits (N.to_uint (Z.to_N n)).

(** Thousands grouping, on the digits in reverse order. *)
Fixpoint group3_rev (k : nat) (ds : jsstring) : jsstring :=
  match ds with
  | [] => []
  | d :: ds' =>
      match k, ds' with
      | 2%nat, _ :: _ => d :: ch "," :: group3_rev 0 ds'
      | _, _ => d :: group3_rev (S k) ds'
      end
  end.

Definition group3 (ds : jsstring) : jsstring := rev (group3_rev 0 (rev ds)).

(** The magnitude [m * 2 ^ e] in hundredths, rounded half away from zero. *)
Definition hundredths (m : positive) (e : Z) : Z :=
  if (0 <=? e)%Z then (Z.pos m * 2 ^ e * 100)%Z
  else ((2 * (Z.pos m * 100) + 2 ^ (- e)) / (2 * 2 ^ (- e)))%Z.

Definition fraction_text (f : Z) : jsstring :=
  if (f =? 0)%Z then []
  else if (f mod 10 =? 0)%Z then ch "." :: decimal_digits (f / 10)
  else ch "." :: decimal_digits (f / 10) ++ decimal_digits (f mod 10).

Definition sign_text (neg : bool) : jsstring := if neg then js "-" else [].

(** [x.toLocaleString('en-US', {minimumFractionDigits: 0,
    maximumFractionDigits: 2})], following ECMA-402: the value is rounded
    to two fraction digits (half away from zero), trailing zeros of the
    fraction are dropped and the integer digits are grouped by three.  The
    rounding is applied to the exact binary value; a runtime that rounds
    the shortest decimal text of the value instead prints another text for
    values such as 1.005 and for integers from [2 ^ 53] on. *)
Definition toLocaleString (x : number) : jsstring :=
  match x with
  | S754_nan => js "NaN"
  | S754_infinity neg => sign_text neg ++ [8734]
  | S754_zero neg => sign_text neg ++ js "0"
  | S754_finite neg m e =>
      let n := hundredths m e in
      sign_text neg ++ group3 (decimal_digits (n / 100))
        ++ fraction_text (n mod 100)
  end.

(** ** Raw upstream items

    One element of the JSON array answered by [/wc/v3/products], with the
    fields of the [_fields] projection and the types the normalizers
    declare for them. *)

Module Raw.

Record Dimensions : Type := {
  width : option jsstring;
  height : option jsstring;
  length : option jsstring
}.

Record Image : Type := { src : option jsstring }.

Record Attribute : Type := {
  attr_name : option jsstring;
  options : list jsstring
}.

Record Item : Type := {
  id : Z;
  name : option jsstring;
  slug : jsstring;
  permalink : jsstring;
  images : list Image;
  price : option jsstring;
  regular_price : option jsstring;
  dimensions : option Dimensions;
  description : option jsstring;
  attributes : list Attribute
}.

End Raw.

(** ** Field normalizers (src/lib/wp.ts) *)

Module Wp.

(** [/<[^>]+>/g] *)
Definition re_tag : regex :=
  RSeqs [RChar (is_char "<"); RPlus (RChar (fun c => negb (is_char ">" c)));
         RChar (is_char ">")].

(** [/\s+/g] *)
Definition re_spaces : regex := RPlus (RChar is_space).

Definition stripTags (value : option jsstring) : jsstring :=
  let v := match or_else value (Some []) with Some s => s | None => [] end in
  trim (replace_all re_spaces (fun _ => js " ")
          (replace_all re_tag (fun _ => []) v)).

(** [/\bolio\b/gi] *)
Definition re_olio : regex := RSeqs [RWordB; RLit_ci "olio"; RWordB].

Definition OLEO_upper : jsstring := 211 :: js "LEO".
Definition OLEO_capital : jsstring := 211 :: js "leo".
Definition OLEO_lower : jsstring := 243 :: js "leo".

(** The callback of [normalizeMediumText].  Its argument is a match of
    [re_olio], four ASCII letters, on which [toUpperCase] is [upcase]. *)
Definition olio_replacement (m : jsstring) : jsstring :=
  if jseqb m (toUpperCase_ascii m) then OLEO_upper
  else if jseqb (take 1 m) (toUpperCase_ascii (take 1 m)) then OLEO_capital
  else OLEO_lower.

Definition normalizeMediumText (value : jsstring) : jsstring :=
  replace_all re_olio olio_replacement value.

Definition normalizeImage (src : option jsstring) : option jsstring :=
  match src with
  | Some (c :: s) => Some (replace_str (js "http://") (js "https://") (c :: s))
  | _ => None
  end.

Definition formatPrice (price regular : option jsstring) : option jsstring :=
  let parse (v : option jsstring) : option number :=
    match v with
    | Some (c :: p) =>
        if negb (isNaN (Number_ (c :: p))) then Some (Number_ (c :: p)) else None
    | _ => None
    end in
  match parse price with
  | Some numeric => Some (js "$" ++ toLocaleString numeric ++ js " USD")
  | None =>
      match parse regular with
      | Some regularNumeric =>
          Some (js "$" ++ toLocaleString regularNumeric ++ js " USD")
      | None => None
      end
  end.

Definition is_x (c : N) : bool := is_char "x" c || is_char "X" c.

(** [/(\d{2,3})\s*[xX]\s*(\d{2,3})/] *)
Definition re_dims : regex :=
  RSeqs [RGroup 1 (RRep23 (RChar is_digit)); RStar (RChar is_space);
         RChar is_x; RStar (RChar is_space);
         RGroup 2 (RRep23 (RChar is_digit))].

Definition group_text (i : nat) (m : rmatch_result) : jsstring :=
  match group i (m_groups m) with Some s => s | None => [] end.

Definition deriveDimensions (name : jsstring)
  (dimensions : option Raw.Dimensions) : option jsstring :=
  match dimensions with
  | Some {| Raw.width := Some (w0 :: w); Raw.height := Some (h0 :: h) |} =>
      Some ((w0 :: w) ++ js " x " ++ (h0 :: h) ++ js " in")
  | _ =>
      match exec re_dims name with
      | Some m => Some (group_text 1 m ++ js " x " ++ group_text 2 m ++ js " in")
      | None => None
      end
  end.

(** [/\b\d{2,3}\s*[xX]\s*\d{2,3}\b(?:\s*in\.?)?/] *)
Definition dimensionPattern : regex :=
  RSeqs [RWordB; RRep23 (RChar is_digit); RStar (RChar is_space);
         RChar is_x; RStar (RChar is_space); RRep23 (RChar is_digit); RWordB;
         ROpt (RSeqs [RStar (RChar is_space); RLit (js "in");
                      ROpt (RChar (is_char "."))])].

(** [/[()\-–—]+/g]: parentheses, hyphen, en dash (U+2013), em dash (U+2014). *)
Definition re_punct : regex :=
  RPlus (RChar (fun c => is_char "(" c || is_char ")" c || is_char "-" c
                         || (c =? 8211) || (c =? 8212))).

(** [/\s{2,}/g] *)
Definition re_spaces2 : regex :=
  RSeq (RChar is_space) (RSeq (RChar is_space) (RStar (RChar is_space))).

(** The title without the first dimension pattern, with parentheses and
    dashes turned into spaces: [cleaned] in [stripDimensionsFromTitle]. *)
Definition cleaned_title (title : jsstring) : jsstring :=
  trim (replace_all re_spaces2 (fun _ => js " ")
          (replace_all re_punct (fun _ => js " ")
             (replace_re dimensionPattern (fun _ => []) title))).

(** [title.replace(dimensions, '').replace(/\s{2,}/g, ' ').trim()] *)
Definition without_dimensions_text (title dimensions : jsstring) : jsstring :=
  trim (replace_all re_spaces2 (fun _ => js " ")
          (replace_str dimensions [] title)).

Definition stripDimensionsFromTitle (title : jsstring)
  (dimensions : option jsstring) : jsstring :=
  let cleaned := cleaned_title title in
  match cleaned with
  | _ :: _ => cleaned
  | [] =>
      match dimensions with
      | Some (d0 :: d) =>
          match without_dimensions_text title (d0 :: d) with
          | [] => title
          | t => t
          end
      | _ => title
      end
  end.

(** [/<img[^>]+src\s*=\s*[q]([^q>]+)[q]/i], where the class [q] holds the
    single and the double quotation mark. *)
Definition is_quote (c : N) : bool := (c =? 39) || (c =? 34).

Definition re_img : regex :=
  RSeqs [RLit_ci "<img"; RPlus (RChar (fun c => negb (is_char ">" c)));
         RLit_ci "src"; RStar (RChar is_space); RChar (is_char "=");
         RStar (RChar is_space); RChar is_quote;
         RGroup 1 (RPlus (RChar (fun c => negb (is_quote c || is_char ">" c))));
         RChar is_quote].

Definition extractFirstImageSrc (html : option jsstring) : option jsstring :=
  match html with
  | Some (c :: h) =>
      match exec re_img (c :: h) with
      | Some m => normalizeImage (group 1 (m_groups m))
      | None => normalizeImage None
      end
  | _ => None
  end.

(** ** Product mapper *)

Record ProductCard : Type := {
  id : Z;
  title : jsstring;
  slug : jsstring;
  link : jsstring;
  image : option jsstring;
  priceText : option jsstring;
  dimensions : option jsstring;
  description : option jsstring
}.

(** [item.images?.[0]?.src] *)
Definition first_image_src (item : Raw.Item) : option jsstring :=
  match Raw.images item with
  | img :: _ => Raw.src img
  | [] => None
  end.

Definition mapProduct (item : Raw.Item) : option ProductCard :=
  let rawTitle := normalizeMediumText (stripTags (Raw.name item)) in
  match rawTitle with
  | [] => None
  | _ :: _ =>
      let dimensions := deriveDimensions rawTitle (Raw.dimensions item) in
      let title := stripDimensionsFromTitle rawTitle dimensions in
      let priceText := formatPrice (Raw.price item) (Raw.regular_price item) in
      let image :=
        or_else (normalizeImage (first_image_src item))
                (extractFirstImageSrc (Raw.description item)) in
      let descriptionRaw := stripTags (Raw.description item) in
      let description :=
        match descriptionRaw with
        | _ :: _ => Some (normalizeMediumText descriptionRaw)
        | [] => None
        end in
      Some {| id := Raw.id item;
              title := title;
              slug := Raw.slug item;
              link := Raw.permalink item;
              image := image;
              priceText := priceText;
              dimensions := dimensions;
              description := description |}
  end.

(** [.filter((item): item is ProductCard => Boolean(item?.image))] *)
Fixpoint with_image (mapped : list (option ProductCard)) : list ProductCard :=
  match mapped with
  | [] => []
  | Some card :: rest =>
      if truthy (image card) then card :: with_image rest else with_image rest
  | None :: rest => with_image rest
  end.

(** ** Module state and platform *)

(** The module-level constants resolved once from the environment. *)
Record Config : Type := {
  baseUrl : jsstring;
  cacheTtlMs : Z;
  authHeader : jsstring
}.

Record CacheEntry : Type := {
  items : list ProductCard;
  limit : Z;
  expiresAt : Z
}.

Record Request : Type := {
  req_url : jsstring;
  req_headers : list (jsstring * jsstring)
}.

(** What the service can observe and change: the cache slot
    [productsCache], the clock read by [Date.now()], the requests handed to
    [fetch] (latest first) and the warnings written to the console. *)
Record World : Type := {
  productsCache : option CacheEntry;
  now : Z;
  requests : list Request;
  warnings : list jsstring
}.

Inductive Exn : Type :=
| InvalidURL
| MissingBase
| FetchRejected
| BodyRejected.

Inductive Outcome (A : Type) : Type :=
| Returned (a : A) (w : World)
| Thrown (e : Exn) (w : World).
Arguments Returned {A} a w.
Arguments Thrown {A} e w.

Definition M (A : Type) : Type := World -> Outcome A.

Definition ret {A} (a : A) : M A := fun w => Returned a w.
Definition throw {A} (e : Exn) : M A := fun w => Thrown e w.
Definition bind {A B} (m : M A) (k : A -> M B) : M B :=
  fun w => match m w with
           | Returned a w' => k a w'
           | Thrown e w' => Thrown e w'
           end.
Definition try_catch {A} (m : M A) (handler : Exn -> M A) : M A :=
  fun w => match m w with
           | Returned a w' => Returned a w'
           | Thrown e w' => handler e w'
           end.
Definition gets {A} (f : World -> A) : M A := fun w => Returned (f w) w.
Definition modify (f : World -> World) : M unit := fun w => Returned tt (f w).

Notation "'let*' x ':=' m 'in' k" := (bind m (fun x => k))
  (at level 10, x name, m at level 100, k at level 200, only parsing).
Notation "m ';;;' k" := (bind m (fun _ => k))
  (at level 100, k at level 200, right associativity, only parsing).

Definition outcome_world {A} (o : Outcome A) : World :=
  match o with Returned _ w => w | Thrown _ w => w end.

(** The body of a response as [res.json()] delivers it: the array of raw
    items, or a rejection (unreadable or malformed body). *)
Inductive Body : Type :=
| BodyItems (raw : list Raw.Item)
| BodyError.

Record Response : Type := {
  status : Z;
  statusText : jsstring;
  body : Body
}.

(** [res.ok] *)
Definition ok (res : Response) : bool :=
  (200 <=? status res)%Z && (status res <=? 299)%Z.

(** A parsed URL: its serialisation up to the query, the query pairs, and
    the fragment. *)
Record URL : Type := {
  url_head : jsstring;
  searchParams : list (jsstring * jsstring);
  url_hash : jsstring
}.

(** The environment outside the module.  [url_parse] is the platform's URL
    parser on inputs that carry a scheme; [url_encode] is the
    form-urlencoded serialiser of one name or value; [fetch_settle] is what
    a request issued at a given time settles to, after [fetch_elapsed]
    milliseconds. *)
Record Platform : Type := {
  url_parse : jsstring -> option URL;
  url_encode : jsstring -> jsstring;
  fetch_settle : Request -> Z -> option Response;
  fetch_elapsed : Request -> Z -> N
}.

(** Leading and trailing C0 controls and spaces are stripped and tabs and
    newlines removed before a URL is parsed. *)
Definition is_c0_or_space (c : N) : bool := c <=? 32.
Definition is_tab_or_newline (c : N) : bool := (c =? 9) || (c =? 10) || (c =? 13).

Definition url_clean (s : jsstring) : jsstring :=
  filter (fun c => is_tab_or_newline c = false)
    (rev (drop_while is_c0_or_space (rev (drop_while is_c0_or_space s)))).

Definition is_scheme_char (c : N) : bool :=
  is_alpha c || is_digit c || is_char "+" c || is_char "-" c || is_char "." c.

(** An absolute URL starts with a scheme: a letter, then letters, digits,
    [+], [-] or [.], then a colon. *)
Definition has_scheme (s : jsstring) : bool :=
  match s with
  | c :: s' =>
      is_alpha c &&
      match drop_while is_scheme_char s' with
      | d :: _ => is_char ":" d
      | [] => false
      end
  | [] => false
  end.

Section Service.

Variable cfg : Config.
Variable pf : Platform.

(** [new URL(s)] without a base: a TypeError when [s] has no scheme, else
    up to the rest of the parser. *)
Definition new_URL (s : jsstring) : M URL :=
  if has_scheme (url_clean s) then
    match url_parse pf (url_clean s) with
    | Some u => ret u
    | None => throw InvalidURL
    end
  else throw InvalidURL.

(** [url.searchParams.set(name, value)] *)
Fixpoint params_set (name value : jsstring) (ps : list (jsstring * jsstring))
  : list (jsstring * jsstring) :=
  match ps with
  | [] => [(name, value)]
  | (k, v) :: rest =>
      if jseqb k name
      then (name, value) :: filter (fun kv => jseqb (fst kv) name = false) rest
      else (k, v) :: params_set name value rest
  end.

Definition searchParams_set (name value : jsstring) (u : URL) : URL :=
  {| url_head := url_head u;
     searchParams := params_set name value (searchParams u);
     url_hash := url_hash u |}.

Fixpoint join (sep : jsstring) (parts : list jsstring) : jsstring :=
  match parts with
  | [] => []
  | [x] => x
  | x :: rest => x ++ sep ++ join sep rest
  end.

Definition url_toString (u : URL) : jsstring :=
  url_head u ++
  match searchParams u with
  | [] => []
  | ps => js "?" ++ join (js "&")
            (map (fun kv => url_encode pf (fst kv) ++ js "=" ++ url_encode pf (snd kv)) ps)
  end ++ url_hash u.

(** [String(n)] for an integer. *)
Definition String_of_Z (n : Z) : jsstring :=
  if (n <? 0)%Z then js "-" ++ decimal_digits (- n) else decimal_digits n.

Definition buildUrl (path : jsstring) : M jsstring :=
  match baseUrl cfg with
  | [] => throw MissingBase
  | _ :: _ =>
      ret (if starts_with (js "http") path then path else baseUrl cfg ++ path)
  end.

(** [fetch(url, {headers})]: the request is recorded, time passes, and the
    promise settles. *)
Definition fetch (url : jsstring) (headers : list (jsstring * jsstring))
  : M Response :=
  fun w =>
    let req := {| req_url := url; req_headers := headers |} in
    let w' := {| productsCache := productsCache w;
                 now := (now w + Z.of_N (fetch_elapsed pf req (now w)))%Z;
                 requests := req :: requests w;
                 warnings := warnings w |} in
    match fetch_settle pf req (now w) with
    | Some res => Returned res w'
    | None => Thrown FetchRejected w'
    end.

Definition wp_headers : list (jsstring * jsstring) :=
  (js "Accept", js "application/json") ::
  match authHeader cfg with
  | [] => []
  | _ :: _ => [(js "Authorization", authHeader cfg)]
  end.

Definition fetchFromWP (path : jsstring) : M Response :=
  let* url := buildUrl path in
  fetch url wp_headers.

(** [await res.json()] *)
Definition json (res : Response) : M (list Raw.Item) :=
  match body res with
  | BodyItems raw => ret raw
  | BodyError => throw BodyRejected
  end.

Definition console_warn (msg : jsstring) : M unit :=
  modify (fun w => {| productsCache := productsCache w;
                      now := now w;
                      requests := requests w;
                      warnings := msg :: warnings w |}).

(** ** Catalog cache *)

(** [items.slice(0, end)]: a negative [end] counts from the end of the
    array. *)
Definition slice0 {A} (l : list A) (end_ : Z) : list A :=
  let len := Z.of_nat (length l) in
  let final :=
    if (end_ <? 0)%Z then Z.max (len + end_) 0 else Z.min end_ len in
  take (Z.to_nat final) l.

Definition getCachedProducts (limit_ : Z) : M (option (list ProductCard)) :=
  let* cache := gets productsCache in
  match cache with
  | None => ret None
  | Some entry =>
      if (limit entry <? limit_)%Z then ret None
      else
        let* t := gets now in
        let isFresh := (0 <? cacheTtlMs cfg)%Z && (t <? expiresAt entry)%Z in
        ret (if isFresh then Some (slice0 (items entry) limit_) else None)
  end.

Definition getStaleProducts (limit_ : Z) : M (option (list ProductCard)) :=
  let* cache := gets productsCache in
  match cache with
  | None => ret None
  | Some entry =>
      if (limit entry <? limit_)%Z then ret None
      else ret (Some (slice0 (items entry) limit_))
  end.

Definition setCache (items_ : list ProductCard) (limit_ : Z) : M unit :=
  modify (fun w =>
    {| productsCache :=
         Some {| items := items_;
                 limit := limit_;
                 expiresAt := (now w + cacheTtlMs cfg)%Z |};
       now := now w;
       requests := requests w;
       warnings := warnings w |}).

(** ** Catalog service *)

Definition fields : jsstring :=
  js "id,name,slug,permalink,images,price,regular_price,dimensions,description".

(** [stale ?? []] *)
Definition or_empty (stale : option (list ProductCard)) : list ProductCard :=
  match stale with Some l => l | None => [] end.

Definition products_query (limit_ : Z) (url0 : URL) : URL :=
  searchParams_set (js "_fields") fields
    (searchParams_set (js "orderby") (js "date")
       (searchParams_set (js "order") (js "desc")
          (searchParams_set (js "per_page") (String_of_Z limit_) url0))).

Definition slug_query (slug_ : jsstring) (url0 : URL) : URL :=
  searchParams_set (js "_fields") fields
    (searchParams_set (js "per_page") (js "1")
       (searchParams_set (js "slug") slug_ url0)).

Definition getProducts (limit_ : Z) : M (list ProductCard) :=
  match baseUrl cfg with
  | [] => ret []
  | _ :: _ =>
      let* cached := getCachedProducts limit_ in
      match cached with
      | Some c => ret c
      | None =>
          let* stale := getStaleProducts limit_ in
          let* url0 := new_URL (baseUrl cfg ++ js "/wc/v3/products") in
          let url := products_query limit_ url0 in
          try_catch
            (let* res := fetchFromWP (url_toString url) in
             if negb (ok res) then
               console_warn (js "WP products fetch failed") ;;;
               ret (or_empty stale)
             else
               let* raw := json res in
               let products := with_image (map mapProduct raw) in
               setCache products limit_ ;;;
               ret products)
            (fun error =>
               console_warn (js "WP products fetch error") ;;;
               ret (or_empty stale))
      end
  end.

Definition getProductBySlug (slug_ : jsstring) : M (option ProductCard) :=
  match baseUrl cfg with
  | [] => ret None
  | _ :: _ =>
      let* url0 := new_URL (baseUrl cfg ++ js "/wc/v3/products") in
      let url := slug_query slug_ url0 in
      try_catch
        (let* res := fetchFromWP (url_toString url) in
         if negb (ok res) then
           console_warn (js "WP product slug fetch failed") ;;;
           ret None
         else
           let* raw := json res in
           let mapped :=
             match raw with
             | item :: _ => mapProduct item
             | [] => None
             end in
           ret (match mapped with
                | Some card => if truthy (image card) then Some card else None
                | None => None
                end))
        (fun error =>
           console_warn (js "WP product slug fetch error") ;;;
           ret None)
  end.

End Service.

End Wp.

(** ** The variant with attributes (the second [wp.ts]) *)

Module WpAttr.

Import Wp.

(** [/-\d+x\d+(?=\.(?:jpe?g|png|webp))/i] *)
Definition re_thumbnail : regex :=
  RSeqs [RChar (is_char "-"); RPlus (RChar is_digit); RChar (is_char_ci "x");
         RPlus (RChar is_digit);
         RLookahead
           (RSeqs [RChar (is_char ".");
                   RAlt (RSeqs [RLit_ci "jp"; ROpt (RChar (is_char_ci "e"));
                                RLit_ci "g"])
                     (RAlt (RLit_ci "png") (RLit_ci "webp"))])].

Definition normalizeImage (src : option jsstring) : option jsstring :=
  match src with
  | Some (c :: s) =>
      let httpsSrc := replace_str (js "http://") (js "https://") (c :: s) in
      Some (replace_re re_thumbnail (fun _ => []) httpsSrc)
  | _ => None
  end.

Definition deriveDimensions (name : jsstring)
  (dimensions : option Raw.Dimensions) : option jsstring :=
  match dimensions with
  | Some {| Raw.width := Some (w0 :: w); Raw.height := Some (h0 :: h) |} =>
      Some ((w0 :: w) ++ js " x " ++ (h0 :: h))
  | _ =>
      match exec re_dims name with
      | Some m => Some (group_text 1 m ++ js " x " ++ group_text 2 m)
      | None => None
      end
  end.

Fixpoint getDimensionsFromAttributes (attributes : list Raw.Attribute)
  : option jsstring :=
  match attributes with
  | [] => None
  | attr :: rest =>
      match trim (stripTags (Raw.attr_name attr)) with
      | [] => getDimensionsFromAttributes rest
      | name => Some name
      end
  end.

Fixpoint first_option (options : list jsstring) : option jsstring :=
  match options with
  | [] => None
  | option :: rest =>
      match trim (stripTags (Some option)) with
      | [] => first_option rest
      | cleaned => Some (normalizeMediumText cleaned)
      end
  end.

Fixpoint getMediumFromAttributes (attributes : list Raw.Attribute)
  : option jsstring :=
  match attributes with
  | [] => None
  | attr :: rest =>
      match first_option (Raw.options attr) with
      | Some medium => Some medium
      | None => getMediumFromAttributes rest
      end
  end.

Definition extractFirstImageSrc (html : option jsstring) : option jsstring :=
  match html with
  | Some (c :: h) =>
      match exec re_img (c :: h) with
      | Some m => normalizeImage (group 1 (m_groups m))
      | None => normalizeImage None
      end
  | _ => None
  end.

Record ProductCard : Type := {
  id : Z;
  title : jsstring;
  slug : jsstring;
  link : jsstring;
  image : option jsstring;
  priceText : option jsstring;
  dimensions : option jsstring;
  medium : option jsstring;
  description : option jsstring
}.

Definition mapProduct (item : Raw.Item) : option ProductCard :=
  let rawTitle := normalizeMediumText (stripTags (Raw.name item)) in
  match rawTitle with
  | [] => None
  | _ :: _ =>
      let attributes := Raw.attributes item in
      let dimensions :=
        or_else (getDimensionsFromAttributes attributes)
                (deriveDimensions rawTitle (Raw.dimensions item)) in
      let medium := getMediumFromAttributes attributes in
      let title := rawTitle in
      let priceText := formatPrice (Raw.price item) (Raw.regular_price item) in
      let image :=
        or_else (normalizeImage (first_image_src item))
                (extractFirstImageSrc (Raw.description item)) in
      let descriptionRaw := stripTags (Raw.description item) in
      let description :=
        match descriptionRaw with
        | _ :: _ => Some (normalizeMediumText descriptionRaw)
        | [] => None
        end in
      Some {| id := Raw.id item;
              title := title;
              slug := Raw.slug item;
              link := Raw.permalink item;
              image := image;
              priceText := priceText;
              dimensions := dimensions;
              medium := medium;
              description := description |}
  end.

End WpAttr.

(** ** Config resolver (src/lib/env.ts) *)

Module Env.

(** [keys: string | string[]] *)
Inductive Keys : Type :=
| OneKey (key : jsstring)
| ManyKeys (keys : list jsstring).

Definition toArray (keys : Keys) : list jsstring :=
  match keys with
  | OneKey key => [key]
  | ManyKeys ks => ks
  end.

(** [String(f)] for a built-in function [f] of the given name, in the
    form V8 prints it. *)
Definition native_function (name : jsstring) : jsstring :=
  js "function " ++ name ++ js "() { [native code] }".

(** The members every object inherits that are functions named after
    their key. *)
Definition inherited_functions : list jsstring :=
  [js "__defineGetter__"; js "__defineSetter__"; js "hasOwnProperty";
   js "__lookupGetter__"; js "__lookupSetter__"; js "isPrototypeOf";
   js "propertyIsEnumerable"; js "toString"; js "valueOf";
   js "toLocaleString"].

(** What [Object.prototype] holds under a key, as [String] renders it: the
    function [Object] under [constructor], the prototype object itself
    under the accessor [__proto__], a built-in function under the other
    member names, and nothing under any other key. *)
Definition Object_prototype (key : jsstring) : option jsstring :=
  if jseqb key (js "constructor") then Some (native_function (js "Object"))
  else if jseqb key (js "__proto__") then Some (js "[object Object]")
  else if existsb (jseqb key) inherited_functions
       then Some (native_function key)
  else None.

(** [String(obj[key])] for an environment object with the own bindings
    [obj]: its own binding, or else the member inherited from
    [Object.prototype]; [None] when [obj[key]] is [undefined]. *)
Definition member (obj : gmap jsstring jsstring) (key : jsstring)
  : option jsstring :=
  match obj !! key with
  | Some value => Some value
  | None => Object_prototype key
  end.

Section Resolver.

(** The own bindings of [import.meta.env] and [process.env]: a key bound
    to [undefined] is a key that is not bound. *)
Variable env : gmap jsstring jsstring.
Variable process_env : gmap jsstring jsstring.

(** [env[key] ?? process.env[key]] *)
Definition layered (key : jsstring) : option jsstring :=
  match member env key with
  | Some value => Some value
  | None => member process_env key
  end.

Fixpoint first_defined (keys : list jsstring) : option jsstring :=
  match keys with
  | [] => None
  | key :: rest =>
      match layered key with
      | Some value => Some value
      | None => first_defined rest
      end
  end.

Definition getEnvValue (keys : Keys) : option jsstring :=
  first_defined (toArray keys).

End Resolver.

End Env.

(** ** Vocabulary of the specification *)

Module Spec.

Import Wp.

(** A price field "parses as a number" when it is present, not the empty
    string (which the mapper treats like an absent value) and [Number]
    does not turn it into [NaN]. *)
Definition parses_as_number (v : option jsstring) : Prop :=
  exists s, v = Some s /\ s <> [] /\ isNaN (Number_ s) = false.

(** The USD text formatted from a price field. *)
Definition usd (v : option jsstring) : jsstring :=
  js "$" ++ toLocaleString (Number_ (default [] v)) ++ js " USD".

(** A key is defined with a value: in the build-time environment, or else
    in the process environment. *)
Definition defined_as (env process_env : gmap jsstring jsstring)
  (key value : jsstring) : Prop :=
  env !! key = Some value
  \/ (env !! key = None /\ process_env !! key = Some value).

Definition undefined_key (env process_env : gmap jsstring jsstring)
  (key : jsstring) : Prop :=
  env !! key = None /\ process_env !! key = None.

(** The upstream call did not deliver items: the request was rejected, the
    status is not a 2xx one, or the body could not be read. *)
Definition upstream_failed (settled : option Response) : Prop :=
  match settled with
  | None => True
  | Some res => ok res = false \/ body res = BodyError
  end.

(** The request [getProducts] hands to [fetch] once the URL is built. *)
Definition products_request (cfg : Config) (pf : Platform) (limit_ : Z)
  (url0 : URL) : Request :=
  let path := url_toString pf (products_query limit_ url0) in
  {| req_url := if starts_with (js "http") path then path
                else baseUrl cfg ++ path;
     req_headers := wp_headers cfg |}.

Definition slug_request (cfg : Config) (pf : Platform) (slug_ : jsstring)
  (url0 : URL) : Request :=
  let path := url_toString pf (slug_query slug_ url0) in
  {| req_url := if starts_with (js "http") path then path
                else baseUrl cfg ++ path;
     req_headers := wp_headers cfg |}.

(** The world once [fetch] has settled: the request is on record and the
    clock has moved on. *)
Definition after_fetch (pf : Platform) (req : Request) (w : World) : World :=
  {| productsCache := productsCache w;
     now := (now w + Z.of_N (fetch_elapsed pf req (now w)))%Z;
     requests := req :: requests w;
     warnings := warnings w |}.

Definition warned (msg : jsstring) (w : World) : World :=
  {| productsCache := productsCache w;
     now := now w;
     requests := requests w;
     warnings := msg :: warnings w |}.

(** The world after [setCache(items, limit)]. *)
Definition cached (cfg : Config) (items_ : list ProductCard) (limit_ : Z)
  (w : World) : World :=
  {| productsCache :=
       Some {| items := items_; limit := limit_;
               expiresAt := (now w + cacheTtlMs cfg)%Z |};
     now := now w;
     requests := requests w;
     warnings := warnings w |}.

(** The cache entry can serve [limit_] items now. *)
Definition fresh_for (cfg : Config) (limit_ : Z) (w : World)
  (entry : CacheEntry) : Prop :=
  productsCache w = Some entry
  /\ (limit_ <= limit entry)%Z
  /\ (0 < cacheTtlMs cfg)%Z
  /\ (now w < expiresAt entry)%Z.

(** [getCachedProducts] and [getStaleProducts] as functions of the world. *)
Definition fresh_products (cfg : Config) (limit_ : Z) (w : World)
  : option (list ProductCard) :=
  match productsCache w with
  | Some entry =>
      if (limit entry <? limit_)%Z then None
      else if (0 <? cacheTtlMs cfg)%Z && (now w <? expiresAt entry)%Z
           then Some (slice0 (items entry) limit_) else None
  | None => None
  end.

Definition stale_products (limit_ : Z) (w : World)
  : option (list ProductCard) :=
  match productsCache w with
  | Some entry =>
      if (limit entry <? limit_)%Z then None
      else Some (slice0 (items entry) limit_)
  | None => None
  end.

Definition has_image (card : ProductCard) : Prop :=
  exists u, image card = Some u /\ u <> [].


(** A call of [getProducts] that fetched and filled the cache slot with
    its result. *)
Definition populates (cfg : Config) (pf : Platform) (limit_ : Z)
  (w0 : World) (r : list ProductCard) (w1 : World) : Prop :=
  getProducts cfg pf limit_ w0 = Returned r w1
  /\ (exists req, requests w1 = req :: requests w0)
  /\ productsCache w1 =
     Some {| items := r; limit := limit_;
             expiresAt := (now w1 + cacheTtlMs cfg)%Z |}.

(** The URL object [new URL(`${baseUrl}/wc/v3/products`)] when the
    constructor does not throw. *)
Definition products_url (cfg : Config) (pf : Platform) : option URL :=
  if has_scheme (url_clean (baseUrl cfg ++ js "/wc/v3/products"))
  then url_parse pf (url_clean (baseUrl cfg ++ js "/wc/v3/products"))
  else None.

End Spec.

(** ** Concrete configurations, worlds and upstreams *)

Module Scenario.

Import Wp.

Definition card (n : Z) : ProductCard :=
  {| id := n; title := js "Untitled"; slug := js "untitled";
     link := js "https://shop.test/untitled";
     image := Some (js "https://shop.test/a.jpg");
     priceText := None; dimensions := None; description := None |}.

Definition raw_item (n : Z) : Raw.Item :=
  {| Raw.id := n; Raw.name := Some (js "Untitled");
     Raw.slug := js "untitled";
     Raw.permalink := js "https://shop.test/untitled";
     Raw.images := [ {| Raw.src := Some (js "https://shop.test/a.jpg") |} ];
     Raw.price := None; Raw.regular_price := None;
     Raw.dimensions := None; Raw.description := None;
     Raw.attributes := [] |}.

Definition cfg_ok : Config :=
  {| baseUrl := js "https://shop.test/wp-json";
     cacheTtlMs := 300000;
     authHeader := [] |}.

(** [WP_API_BASE=example.com]: a base without a scheme. *)
Definition cfg_no_scheme : Config :=
  {| baseUrl := js "example.com";
     cacheTtlMs := 300000;
     authHeader := [] |}.

Definition whole_url (s : jsstring) : option URL :=
  Some {| url_head := s; searchParams := []; url_hash := [] |}.

(** An upstream that answers every request with status 200 and [n] items. *)
Definition upstream_items (n : nat) : Platform :=
  {| url_parse := whole_url;
     url_encode := fun s => s;
     fetch_settle := fun _ _ =>
       Some {| status := 200; statusText := js "OK";
               body := BodyItems (replicate n (raw_item 1)) |};
     fetch_elapsed := fun _ _ => 20%N |}.

(** An item with a title but neither a product image nor an [<img>] in its
    description. *)
Definition raw_item_without_image (n : Z) : Raw.Item :=
  {| Raw.id := n; Raw.name := Some (js "Sketch");
     Raw.slug := js "sketch";
     Raw.permalink := js "https://shop.test/sketch";
     Raw.images := [];
     Raw.price := Some (js "45"); Raw.regular_price := Some (js "60");
     Raw.dimensions := None; Raw.description := Some (js "<p>olio</p>");
     Raw.attributes := [] |}.

(** An upstream that answers one item with an image, one without and one
    without a title. *)
Definition upstream_mixed : Platform :=
  {| url_parse := whole_url;
     url_encode := fun s => s;
     fetch_settle := fun _ _ =>
       Some {| status := 200; statusText := js "OK";
               body := BodyItems [raw_item 1; raw_item_without_image 2;
                                  {| Raw.id := 3; Raw.name := Some (js "<b></b>");
                                     Raw.slug := []; Raw.permalink := [];
                                     Raw.images := [];
                                     Raw.price := None;
                                     Raw.regular_price := None;
                                     Raw.dimensions := None;
                                     Raw.description := None;
                                     Raw.attributes := [] |}] |};
     fetch_elapsed := fun _ _ => 20%N |}.

(** An upstream that answers every request with status 503. *)
Definition upstream_down : Platform :=
  {| url_parse := whole_url;
     url_encode := fun s => s;
     fetch_settle := fun _ _ =>
       Some {| status := 503; statusText := js "Service Unavailable";
               body := BodyError |};
     fetch_elapsed := fun _ _ => 20%N |}.

Definition world_empty : World :=
  {| productsCache := None; now := 1000; requests := []; warnings := [] |}.

(** A cache of two cards filled for [limit = 100], expiring at [t]. *)
Definition world_cached (t : Z) : World :=
  {| productsCache :=
       Some {| items := [card 1; card 2]; limit := 100; expiresAt := t |};
     now := 1000; requests := []; warnings := [] |}.

End Scenario.

(** ** Byte encodings used by the platform calls *)

Module Encoding.

(** The code points of a string; a surrogate without its partner becomes
    U+FFFD, as in [Buffer.from(string)]. *)
Fixpoint code_points (s : jsstring) : list N :=
  match s with
  | [] => []
  | hi :: rest =>
      if in_range 55296 56319 hi then
        match rest with
        | lo :: rest' =>
            if in_range 56320 57343 lo
            then (65536 + (hi - 55296) * 1024 + (lo - 56320)) :: code_points rest'
            else 65533 :: code_points rest
        | [] => [65533]
        end
      else if in_range 56320 57343 hi then 65533 :: code_points rest
      else hi :: code_points rest
  end.

Definition utf8_of_code_point (cp : N) : list N :=
  if cp <? 128 then [cp]
  else if cp <? 2048 then [192 + cp / 64; 128 + cp mod 64]
  else if cp <? 65536
       then [224 + cp / 4096; 128 + (cp / 64) mod 64; 128 + cp mod 64]
  else [240 + cp / 262144; 128 + (cp / 4096) mod 64;
        128 + (cp / 64) mod 64; 128 + cp mod 64].

(** [Buffer.from(s)]: the UTF-8 bytes of [s]. *)
Definition utf8 (s : jsstring) : list N :=
  concat (map utf8_of_code_point (code_points s)).

Definition base64_digit (i : N) : N :=
  if i <? 26 then 65 + i
  else if i <? 52 then 97 + (i - 26)
  else if i <? 62 then 48 + (i - 52)
  else if i =? 62 then 43 else 47.

(** [buffer.toString('base64')] *)
Fixpoint base64 (bytes : list N) : jsstring :=
  match bytes with
  | [] => []
  | [a] => [base64_digit (a / 4); base64_digit ((a mod 4) * 16); 61; 61]
  | [a; b] =>
      [base64_digit (a / 4); base64_digit ((a mod 4) * 16 + b / 16);
       base64_digit ((b mod 16) * 4); 61]
  | a :: b :: c :: rest =>
      base64_digit (a / 4) :: base64_digit ((a mod 4) * 16 + b / 16)
      :: base64_digit ((b mod 16) * 4 + c / 64) :: base64_digit (c mod 64)
      :: base64 rest
  end.

Definition hex_digit (i : N) : N := if i <? 10 then 48 + i else 87 + i.

(** [buffer.toString('hex')] *)
Definition hex (bytes : list N) : jsstring :=
  concat (map (fun b => [hex_digit ((b / 16) mod 16); hex_digit (b mod 16)])
            bytes).

End Encoding.

(** ** Module-level constants of [src/lib/wp.ts] *)

Module WpConfig.

Section Constants.

Variables env process_env : gmap jsstring jsstring.

Definition lookup (keys : list jsstring) : option jsstring :=
  Env.getEnvValue env process_env (Env.ManyKeys keys).

(** [/\/$/] *)
Definition re_trailing_slash : regex := RSeqs [RChar (is_char "/"); REnd].

Definition baseUrl : jsstring :=
  match replace_re re_trailing_slash (fun _ => [])
          (default [] (lookup [js "WP_API_BASE"; js "PUBLIC_WP_API_BASE"])) with
  | [] => []
  | url => url
  end.

Definition username : option jsstring := lookup [js "WP_USERNAME"].
Definition appPassword : option jsstring := lookup [js "WP_APP_PASSWORD"].

(** [5 * 60 * 1000] *)
Definition DEFAULT_CACHE_TTL_MS : number :=
  binary_normalize prec emax 300000 0 false.

(** [Number.isFinite] *)
Definition isFinite (x : number) : bool :=
  match x with
  | S754_zero _ | S754_finite _ _ _ => true
  | S754_infinity _ | S754_nan => false
  end.

(** [Math.max(0, x)] *)
Definition Math_max_0 (x : number) : number :=
  match x with
  | S754_nan => S754_nan
  | S754_infinity false => x
  | S754_finite false _ _ => x
  | _ => S754_zero false
  end.

Definition cacheTtlMs : number :=
  match lookup [js "WP_CACHE_TTL_MS"; js "WP_CACHE_TTL"] with
  | Some (c :: rawTtl) =>
      let parsed := Number_ (c :: rawTtl) in
      if isFinite parsed then Math_max_0 parsed else DEFAULT_CACHE_TTL_MS
  | _ => DEFAULT_CACHE_TTL_MS
  end.

Definition authHeader : jsstring :=
  match username, appPassword with
  | Some (u0 :: u), Some (p0 :: p) =>
      js "Basic " ++
      Encoding.base64 (Encoding.utf8 ((u0 :: u) ++ js ":" ++ (p0 :: p)))
  | _, _ => []
  end.

End Constants.

End WpConfig.

(** ** Boolean settings ([getBooleanEnv] of src/lib/env.ts) *)

Module EnvBool.

Definition lower (c : N) : N := if is_upper c then c + 32 else c.

Definition falsy_words : list jsstring :=
  [js "false"; js "0"; js "off"; js "no"].

(** [words.includes(s)] *)
Definition includes (words : list jsstring) (s : jsstring) : bool :=
  existsb (jseqb s) words.

Section Lookup.

(** [String.prototype.toLowerCase], a platform function; on a string of
    ASCII code units it is [map lower]. *)
Variable toLowerCase : jsstring -> jsstring.

Variables env process_env : gmap jsstring jsstring.

(** [defaultValue] is [None] when the caller leaves the argument out. *)
Definition getBooleanEnv (keys : Env.Keys) (defaultValue : option bool)
  : bool :=
  match Env.getEnvValue env process_env keys with
  | None => default true defaultValue
  | Some raw => negb (includes falsy_words (toLowerCase (trim raw)))
  end.

End Lookup.

End EnvBool.

(** ** The login endpoint with the resolver

    The variant of [src/pages/api/coa-auth.ts] that reads its settings
    through [getEnvValue]. *)

Module CoaAuth.

(** What a property of the parsed body holds: nothing (the property is
    missing, [undefined]), a string, or another JSON value ([null], a
    number, a boolean, an array or an object). *)
Inductive Field : Type :=
| Missing
| Text (s : jsstring)
| NotText.

(** The [user] and [password] properties of a parsed body. *)
Record Credentials : Type := {
  user : Field;
  password : Field
}.

(** What [request.json()] delivers: [null], or another JSON value with
    what its [user] and [password] properties hold (both are missing on a
    number, a boolean, a string or an array). *)
Inductive ParsedBody : Type :=
| JsonNull
| JsonValue (fields : Credentials).

(** The data handed to [json(data, status)]. *)
Record Reply : Type := {
  status : Z;
  ok : bool;
  error : option jsstring;
  token : option jsstring;
  expires : option Z
}.

(** The clock and the number of random bytes drawn so far. *)
Record World : Type := {
  now : Z;
  drawn : nat
}.

Inductive Exn : Type :=
| TypeError.

(** How a call ends: with a response, or with an exception that leaves
    the handler. *)
Inductive Outcome : Type :=
| Returned (reply : Reply) (w : World)
| Thrown (e : Exn) (w : World).

(** [random_byte i] is the [i]-th byte the random source delivers;
    [hmac_sha256_hex key data] is
    [createHmac('sha256', key).update(data).digest('hex')]; [timer_lag] is
    how late a timer set at a given time fires. *)
Record Platform : Type := {
  random_byte : nat -> N;
  hmac_sha256_hex : jsstring -> jsstring -> jsstring;
  timer_lag : Z -> N
}.

(** The default [''] of the destructuring pattern: it replaces a missing
    property only. *)
Definition or_empty_text (f : Field) : Field :=
  match f with
  | Missing => Text []
  | _ => f
  end.

(** [value === text] for a string [text]. *)
Definition strict_equal (value : Field) (text : jsstring) : bool :=
  match value with
  | Text s => jseqb s text
  | _ => false
  end.

Section Endpoint.

Variable pf : Platform.
Variables env process_env : gmap jsstring jsstring.

Definition json (data : Reply) (w : World) : Outcome := Returned data w.

(** [randomBytes(n).toString('hex')] *)
Definition randomBytes_hex (n : nat) (w : World) : jsstring * World :=
  (Encoding.hex (map (fun i => random_byte pf i mod 256) (seq (drawn w) n)),
   {| now := now w; drawn := (drawn w + n)%nat |}).

(** [await new Promise(r => setTimeout(r, ms))] *)
Definition sleep (ms : Z) (w : World) : World :=
  {| now := (now w + ms + Z.of_N (timer_lag pf (now w)))%Z; drawn := drawn w |}.

Definition failure (msg : string) (code : Z) : Reply :=
  {| status := code; ok := false; error := Some (js msg);
     token := None; expires := None |}.

(** [body] is [None] when [request.json()] rejects.  Destructuring
    [null], and calling [trim] on a [user] that is not a string, throw a
    [TypeError]. *)
Definition POST (body : option ParsedBody) (w : World) : Outcome :=
  match body with
  | None => json (failure "Invalid request" 400) w
  | Some body =>
      let expectedUser :=
        Env.getEnvValue env process_env (Env.ManyKeys [js "COA_USER"]) in
      let expectedPassword :=
        Env.getEnvValue env process_env (Env.ManyKeys [js "COA_PASSWORD"]) in
      match expectedUser, expectedPassword with
      | Some (u0 :: u), Some (p0 :: p) =>
          match body with
          | JsonNull => Thrown TypeError w
          | JsonValue fields =>
              let user_ := or_empty_text (user fields) in
              let password_ := or_empty_text (password fields) in
              match user_ with
              | Text user_ =>
                  let userMatch := jseqb (trim user_) (trim (u0 :: u)) in
                  let passMatch := strict_equal password_ (p0 :: p) in
                  if negb userMatch || negb passMatch then
                    json (failure "Identifiants incorrects" 401) (sleep 600 w)
                  else
                    let '(secret, w1) :=
                      match Env.getEnvValue env process_env
                              (Env.ManyKeys [js "COA_SECRET"]) with
                      | Some (s0 :: s) => (s0 :: s, w)
                      | _ => randomBytes_hex 16 w
                      end in
                    let expires_ := (now w1 + 8 * 60 * 60 * 1000)%Z in
                    let '(nonce, w2) := randomBytes_hex 8 w1 in
                    let payload :=
                      Wp.String_of_Z expires_ ++ js "." ++ nonce in
                    let sig := hmac_sha256_hex pf secret payload in
                    let token_ := payload ++ js "." ++ sig in
                    json {| status := 200; ok := true; error := None;
                            token := Some token_;
                            expires := Some expires_ |} w2
              | _ => Thrown TypeError w
              end
          end
      | _, _ => json (failure "COA auth not configured" 503) w
      end
  end.

End Endpoint.

End CoaAuth.

(** ** The login endpoint reading [import.meta.env] itself

    The endpoint as it stands in [src/pages/api/coa-auth.ts]: the three
    settings are read from [import.meta.env], without the resolver. *)

Module CoaAuthDirect.

Import CoaAuth.

Section Endpoint.

Variable pf : Platform.
Variable env : gmap jsstring jsstring.

(** [body] is [None] when [request.json()] rejects.  Destructuring
    [null], and calling [trim] on a [user] that is not a string, throw a
    [TypeError]. *)
Definition POST (body : option ParsedBody) (w : World) : Outcome :=
  match body with
  | None => json (failure "Invalid request" 400) w
  | Some body =>
      let expectedUser := env !! js "COA_USER" in
      let expectedPassword := env !! js "COA_PASSWORD" in
      match expectedUser, expectedPassword with
      | Some (u0 :: u), Some (p0 :: p) =>
          match body with
          | JsonNull => Thrown TypeError w
          | JsonValue fields =>
              let user_ := or_empty_text (user fields) in
              let password_ := or_empty_text (password fields) in
              match user_ with
              | Text user_ =>
                  let userMatch := jseqb (trim user_) (trim (u0 :: u)) in
                  let passMatch := strict_equal password_ (p0 :: p) in
                  if negb userMatch || negb passMatch then
                    json (failure "Identifiants incorrects" 401)
                      (sleep pf 600 w)
                  else
                    let '(secret, w1) :=
                      match env !! js "COA_SECRET" with
                      | Some (s0 :: s) => (s0 :: s, w)
                      | _ => randomBytes_hex pf 16 w
                      end in
                    let expires_ := (now w1 + 8 * 60 * 60 * 1000)%Z in
                    let '(nonce, w2) := randomBytes_hex pf 8 w1 in
                    let payload :=
                      Wp.String_of_Z expires_ ++ js "." ++ nonce in
                    let sig := hmac_sha256_hex pf secret payload in
                    let token_ := payload ++ js "." ++ sig in
                    json {| status := 200; ok := true; error := None;
                            token := Some token_;
                            expires := Some expires_ |} w2
              | _ => Thrown TypeError w
              end
          end
      | _, _ => json (failure "COA auth not configured" 503) w
      end
  end.

End Endpoint.

End CoaAuthDirect.

(** ** Worlds that differ in the cache slot only *)

Module Frame.

Import Wp.

Definition with_cache (slot : option CacheEntry) (w : World) : World :=
  {| productsCache := slot;
     now := now w;
     requests := requests w;
     warnings := warnings w |}.

Definition outcome_with_cache {A} (slot : option CacheEntry) (o : Outcome A)
  : Outcome A :=
  match o with
  | Returned a w => Returned a (with_cache slot w)
  | Thrown e w => Thrown e (with_cache slot w)
  end.

End Frame.

(** One step of reading a decimal text: [digits_value 10] folds it. *)
Definition decimal_step (acc : Z) (c : N) : Z := (acc * 10 + digit_value c)%Z.

(** ** The iteration of [*], by name

    [star_fuel r k] is the loop that [rmatch] runs for [RStar r] with the
    continuation [k]. *)

Section Star.

Variable r : regex.
Variable k : mstate -> option mstate.

Fixpoint star_fuel (fuel : nat) (st0 : mstate) {struct fuel}
  : option mstate :=
  match fuel with
  | O => k st0
  | S fuel' =>
      match rmatch r st0 (fun st1 =>
              if (length (after st1) <? length (after st0))%nat
              then star_fuel fuel' st1 else None) with
      | Some e => Some e
      | None => k st0
      end
  end.

End Star.

Definition head_space (s : jsstring) : bool :=
  match s with
  | c :: _ => is_space c
  | [] => false
  end.

(** ** Vocabulary for texts *)

Module TextSpec.

(** A letter of the word [olio], in either case. *)
Definition olio_letter (c : N) : bool :=
  is_char_ci "o" c || is_char_ci "l" c || is_char_ci "i" c.

(** A code unit is kept, or it is a letter of [olio] that was rewritten. *)
Definition kept_or_olio (a b : N) : Prop := a = b \/ olio_letter a = true.

(** No two whitespace code units stand next to each other. *)
Definition no_adjacent_spaces (s : jsstring) : Prop :=
  forall a x y b, s = a ++ x :: y :: b ->
                  is_space x = true -> is_space y = true -> False.

(** Neither the first nor the last code unit is whitespace. *)
Definition trimmed (s : jsstring) : Prop :=
  (forall c rest, s = c :: rest -> is_space c = false)
  /\ (forall init c, s = init ++ [c] -> is_space c = false).

(** Every whitespace code unit is U+0020 and is followed by the end of the
    text or by a code unit that is not whitespace. *)
Fixpoint single_spaced (s : jsstring) : bool :=
  match s with
  | [] => true
  | c :: rest =>
      (if is_space c
       then (c =? 32) && match rest with
                         | d :: _ => negb (is_space d)
                         | [] => true
                         end
       else true)
      && single_spaced rest
  end.

End TextSpec.

(** ** Vocabulary for the login endpoint *)

Module AuthSpec.

Import CoaAuth.

Definition expected (env process_env : gmap jsstring jsstring) (key : string)
  : option jsstring :=
  Env.getEnvValue env process_env (Env.ManyKeys [js key]).

(** Both [COA_USER] and [COA_PASSWORD] are defined and not empty. *)
Definition configured (env process_env : gmap jsstring jsstring) : Prop :=
  truthy (expected env process_env "COA_USER") = true
  /\ truthy (expected env process_env "COA_PASSWORD") = true.

(** The text a property of the body submits: the empty text when the
    property is missing, its string when it holds one, none otherwise. *)
Definition submitted (f : Field) : option jsstring :=
  match f with
  | Missing => Some []
  | Text s => Some s
  | NotText => None
  end.

(** The credentials are the expected ones: both are texts, the user names
    agree once trimmed, the passwords agree as they are. *)
Definition accepts (env process_env : gmap jsstring jsstring)
  (creds : Credentials) : Prop :=
  exists eu ep us,
    expected env process_env "COA_USER" = Some eu /\ eu <> []
    /\ expected env process_env "COA_PASSWORD" = Some ep /\ ep <> []
    /\ submitted (user creds) = Some us
    /\ trim us = trim eu
    /\ submitted (password creds) = Some ep.

(** The call ends with a response of the given status. *)
Definition answers (o : Outcome) (code : Z) : Prop :=
  exists reply w', o = Returned reply w' /\ status reply = code.

(** The secret that signs a token issued in world [w]. *)
Definition signing_secret (pf : Platform)
  (env process_env : gmap jsstring jsstring) (w : World) : jsstring :=
  match expected env process_env "COA_SECRET" with
  | Some (s0 :: s) => s0 :: s
  | _ => Encoding.hex (map (fun i => random_byte pf i mod 256)
                         (seq (drawn w) 16))
  end.

(** How many random bytes are drawn before the nonce. *)
Definition secret_bytes (env process_env : gmap jsstring jsstring) : nat :=
  if truthy (expected env process_env "COA_SECRET") then 0%nat else 16%nat.

End AuthSpec.

(** ** What a pattern can match

    [steps r st st'] holds when [r] can take the matcher from [st] to
    [st']: the declarative reading of the patterns, against which the
    backtracking matcher is checked. *)

Inductive steps : regex -> mstate -> mstate -> Prop :=
| steps_empty st : steps REmpty st st
| steps_char (p : N -> bool) c bef rest cs :
    p c = true ->
    steps (RChar p) (MState bef (c :: rest) cs) (MState (c :: bef) rest cs)
| steps_seq r1 r2 st st1 st2 :
    steps r1 st st1 -> steps r2 st1 st2 -> steps (RSeq r1 r2) st st2
| steps_alt_l r1 r2 st st' : steps r1 st st' -> steps (RAlt r1 r2) st st'
| steps_alt_r r1 r2 st st' : steps r2 st st' -> steps (RAlt r1 r2) st st'
| steps_star_stop r st : steps (RStar r) st st
| steps_star_more r st st1 st2 :
    steps r st st1 -> steps (RStar r) st1 st2 -> steps (RStar r) st st2
| steps_group i r st st1 :
    steps r st st1 ->
    steps (RGroup i r) st
      (MState (before st1) (after st1) ((i, consumed st st1) :: caps st1))
| steps_wordb st : at_word_boundary st = true -> steps RWordB st st
| steps_end st : after st = [] -> steps REnd st st
| steps_look r st e :
    steps r st e ->
    steps (RLookahead r) st (MState (before st) (after st) (caps e)).

(** ** Vocabulary for dimensions and image addresses *)

Module ShapeSpec.

(** Two or three decimal digits. *)
Definition two_or_three_digits (s : jsstring) : Prop :=
  (length s = 2%nat \/ length s = 3%nat) /\ forallb is_digit s = true.

(** The item declares a width and a height, both not empty. *)
Definition declared (dims : option Raw.Dimensions) (w h : jsstring) : Prop :=
  exists d, dims = Some d /\ Raw.width d = Some w /\ Raw.height d = Some h
            /\ w <> [] /\ h <> [].

(** The letter [x], in either case, with optional whitespace around it. *)
Definition times_sign (mid : jsstring) : Prop :=
  exists s1 x s2, mid = s1 ++ x :: s2 /\ Wp.is_x x = true
                  /\ forallb is_space s1 = true /\ forallb is_space s2 = true.

(** Neither a quotation mark nor [>]. *)
Definition address_unit (c : N) : bool :=
  negb (Wp.is_quote c || is_char ">" c).

(** A parenthesis, a hyphen, an en dash or an em dash. *)
Definition is_punct (c : N) : bool :=
  is_char "(" c || is_char ")" c || is_char "-" c
  || (c =? 8211) || (c =? 8212).

(** The same code unit, or two code units neither of which is whitespace. *)
Definition same_or_solid (a b : N) : Prop :=
  a = b \/ (is_space a = false /\ is_space b = false).

(** No whitespace code unit is followed by another one. *)
Fixpoint spaced_out (s : jsstring) : bool :=
  match s with
  | [] => true
  | c :: rest =>
      (if is_space c then negb (head_space rest) else true)
      && spaced_out rest
  end.

End ShapeSpec.

(** * Properties *)

(** ** Strings and replacement *)

Section StringFacts.

Lemma app_nonempty_l (a b : jsstring) : a <> [] -> a ++ b <> [].
Proof. destruct a; [congruence | discriminate]. Qed.

(** A global replacement whose replacement text is never empty cannot
    erase a non-empty input. *)
Lemma replace_all_from_nil r repl bef aft :
  (forall m, repl m <> []) ->
  replace_all_from r repl 0 bef aft = [] -> aft = [].
Proof.
  intros Hrepl. destruct aft as [|c aft]; [reflexivity|].
  cbn [replace_all_from]. destruct (match_here r bef (c :: aft)) as [e|].
  - intros H. apply app_eq_nil in H as [H _]. now apply Hrepl in H.
  - discriminate.
Qed.

Lemma replace_str_nonempty pat repl s :
  repl <> [] -> s <> [] -> replace_str pat repl s <> [].
Proof.
  intros Hrepl Hs. destruct s as [|c s]; [congruence|].
  cbn [replace_str]. destruct (starts_with pat (c :: s)).
  - now apply app_nonempty_l.
  - discriminate.
Qed.

End StringFacts.

(** ** Field normalizers *)

Section Normalizers.

Import Wp.

Lemma olio_replacement_nonempty m : olio_replacement m <> [].
Proof.
  unfold olio_replacement.
  destruct (jseqb m _); [discriminate|].
  destruct (jseqb (take 1 m) _); discriminate.
Qed.

(** The accent fix keeps empty text empty and non-empty text non-empty. *)
Lemma normalizeMediumText_nil (s : jsstring) :
  normalizeMediumText s = [] <-> s = [].
Proof.
  split.
  - apply replace_all_from_nil, olio_replacement_nonempty.
  - intros ->. reflexivity.
Qed.

Lemma normalizeImage_some (src u : option jsstring) :
  normalizeImage src = u -> truthy u = truthy src.
Proof.
  intros <-. destruct src as [[|c s]|]; try reflexivity.
  cbn [normalizeImage truthy].
  destruct (replace_str (js "http://") (js "https://") (c :: s)) eqn:E;
    [|reflexivity].
  exfalso. revert E. apply replace_str_nonempty; discriminate.
Qed.

Lemma normalizeImage_truthy (src : option jsstring) :
  normalizeImage src = None \/
  exists u, normalizeImage src = Some u /\ u <> [].
Proof.
  pose proof (normalizeImage_some src _ eq_refl) as H.
  destruct (normalizeImage src) as [[|c u]|] eqn:E.
  - destruct src as [[|d s]|]; cbn in H; try discriminate.
  - right. eexists. split; [reflexivity | discriminate].
  - now left.
Qed.

Lemma or_else_normalizeImage (src fallback : option jsstring) :
  or_else (normalizeImage src) fallback =
  match normalizeImage src with
  | Some u => Some u
  | None => fallback
  end.
Proof.
  destruct (normalizeImage_truthy src) as [->|(u & -> & Hu)]; [reflexivity|].
  destruct u; [congruence | reflexivity].
Qed.


Lemma stripDimensionsFromTitle_nonempty (title : jsstring)
  (dimensions : option jsstring) :
  title <> [] -> stripDimensionsFromTitle title dimensions <> [].
Proof.
  intros Ht. unfold stripDimensionsFromTitle.
  destruct (cleaned_title title) as [|c0 cl]; [|discriminate].
  destruct dimensions as [[|d0 d]|]; try assumption.
  destruct (without_dimensions_text title (d0 :: d)); [assumption|discriminate].
Qed.

End Normalizers.

(** ** Product mapper *)

Section Mapper.

Import Wp.

Lemma mapProduct_none (item : Raw.Item) :
  mapProduct item = None <->
  normalizeMediumText (stripTags (Raw.name item)) = [].
Proof.
  unfold mapProduct.
  destruct (normalizeMediumText (stripTags (Raw.name item))); split;
    congruence.
Qed.

Lemma mapProduct_attr_none (item : Raw.Item) :
  WpAttr.mapProduct item = None <->
  normalizeMediumText (stripTags (Raw.name item)) = [].
Proof.
  unfold WpAttr.mapProduct.
  destruct (normalizeMediumText (stripTags (Raw.name item))); split;
    congruence.
Qed.

Lemma mapProduct_title (item : Raw.Item) (card : ProductCard) :
  mapProduct item = Some card ->
  title card =
  stripDimensionsFromTitle (normalizeMediumText (stripTags (Raw.name item)))
    (deriveDimensions (normalizeMediumText (stripTags (Raw.name item)))
       (Raw.dimensions item)).
Proof.
  unfold mapProduct.
  destruct (normalizeMediumText (stripTags (Raw.name item))); [discriminate|].
  intros [= <-]. reflexivity.
Qed.

Lemma mapProduct_image (item : Raw.Item) (card : ProductCard) :
  mapProduct item = Some card ->
  image card =
  or_else (normalizeImage (first_image_src item))
          (extractFirstImageSrc (Raw.description item)).
Proof.
  unfold mapProduct.
  destruct (normalizeMediumText (stripTags (Raw.name item))); [discriminate|].
  intros [= <-]. reflexivity.
Qed.

(** C5. [mapProduct] returns absent exactly when the item's name is empty
    after tag-stripping and medium-text normalization (equivalently, after
    tag-stripping alone); whenever the stripped name is not empty it returns
    a card.  This holds for the mapper of [src/lib/wp.ts] and for the
    variant with attributes. *)
Theorem mapProduct_absent_iff_no_title (item : Raw.Item) :
  (Wp.mapProduct item = None <->
     normalizeMediumText (stripTags (Raw.name item)) = [])
  /\ (Wp.mapProduct item = None <-> stripTags (Raw.name item) = [])
  /\ (stripTags (Raw.name item) <> [] ->
      exists card, Wp.mapProduct item = Some card)
  /\ (WpAttr.mapProduct item = None <->
        normalizeMediumText (stripTags (Raw.name item)) = [])
  /\ (WpAttr.mapProduct item = None <-> stripTags (Raw.name item) = [])
  /\ (stripTags (Raw.name item) <> [] ->
      exists card, WpAttr.mapProduct item = Some card).
Proof.
  pose proof (mapProduct_none item) as H1.
  pose proof (mapProduct_attr_none item) as H2.
  pose proof (normalizeMediumText_nil (stripTags (Raw.name item))) as H3.
  repeat split; try tauto.
  - intros Hne. destruct (Wp.mapProduct item) as [card|]; [eauto|tauto].
  - intros Hne. destruct (WpAttr.mapProduct item) as [card|]; [eauto|tauto].
Qed.

(** C10. In the title-scrubbing mapper every item whose name strips to a
    non-empty title yields a card with a non-empty title.
    [stripDimensionsFromTitle] returns the scrubbed title when that is not
    empty; otherwise the title without the derived dimension text when
    dimensions were derived and that text is not empty; otherwise the
    original title. *)
Theorem mapProduct_title_never_empty :
  (forall item : Raw.Item,
      stripTags (Raw.name item) <> [] ->
      exists card, mapProduct item = Some card /\ title card <> [])
  /\ (forall title_ dims,
        cleaned_title title_ <> [] ->
        stripDimensionsFromTitle title_ dims = cleaned_title title_)
  /\ (forall title_ d,
        cleaned_title title_ = [] -> d <> [] ->
        without_dimensions_text title_ d <> [] ->
        stripDimensionsFromTitle title_ (Some d) =
        without_dimensions_text title_ d)
  /\ (forall title_ d,
        cleaned_title title_ = [] ->
        without_dimensions_text title_ d = [] ->
        stripDimensionsFromTitle title_ (Some d) = title_)
  /\ (forall title_,
        cleaned_title title_ = [] ->
        stripDimensionsFromTitle title_ None = title_
        /\ stripDimensionsFromTitle title_ (Some []) = title_).
Proof.
  repeat split.
  - intros item Hne.
    destruct (mapProduct item) as [card|] eqn:E.
    + exists card. split; [reflexivity|].
      rewrite (mapProduct_title _ _ E).
      apply stripDimensionsFromTitle_nonempty.
      now rewrite normalizeMediumText_nil.
    + apply (proj1 (mapProduct_none _)) in E.
      apply (proj1 (normalizeMediumText_nil _)) in E. contradiction.
  - intros t dims Hc. unfold stripDimensionsFromTitle.
    destruct (cleaned_title t); [congruence | reflexivity].
  - intros t d Hc Hd Hw. unfold stripDimensionsFromTitle. rewrite Hc.
    destruct d; [congruence|].
    destruct (without_dimensions_text t (n :: d)); [congruence | reflexivity].
  - intros t d Hc Hw. unfold stripDimensionsFromTitle. rewrite Hc.
    destruct d; [reflexivity|]. now rewrite Hw.
  - unfold stripDimensionsFromTitle. now rewrite H.
  - unfold stripDimensionsFromTitle. now rewrite H.
Qed.

(** The fallbacks at work: a title that is only a dimension keeps its text. *)
Example stripDimensions_only_dimensions :
  stripDimensionsFromTitle (js "24 x 36 in") (Some (js "24 x 36 in"))
  = js "24 x 36 in"
  /\ stripDimensionsFromTitle (js "24 x 36 in.") (Some (js "24 x 36 in"))
     = js "."
  /\ stripDimensionsFromTitle (js "Untitled (24x36 in.) - big")
       (Some (js "24 x 36 in")) = js "Untitled big".
Proof. split; [|split]; vm_compute; reflexivity. Qed.

Example deriveDimensions_from_title :
  deriveDimensions (js "Untitled 24x36") None = Some (js "24 x 36 in")
  /\ WpAttr.deriveDimensions (js "Untitled 24x36") None = Some (js "24 x 36").
Proof. split; vm_compute; reflexivity. Qed.

Example normalizeMediumText_cases :
  normalizeMediumText (js "Olio") = OLEO_capital
  /\ normalizeMediumText (js "OLIO") = OLEO_upper
  /\ normalizeMediumText (js "olio") = OLEO_lower
  /\ normalizeMediumText (js "folio") = js "folio".
Proof. split; [|split; [|split]]; vm_compute; reflexivity. Qed.

End Mapper.

(** ** Price text *)

Section Price.

Import Wp Spec.

Lemma formatPrice_parse (v : option jsstring) :
  {parses_as_number v} + {~ parses_as_number v}.
Proof.
  destruct v as [[|c p]|].
  - right. intros (s & [= <-] & Hs & _). congruence.
  - destruct (isNaN (Number_ (c :: p))) eqn:E.
    + right. intros (s & [= <-] & _ & Hn). congruence.
    + left. exists (c :: p). repeat split; [discriminate | assumption].
  - right. intros (s & [=] & _).
Qed.

Lemma formatPrice_sale (price regular : option jsstring) :
  parses_as_number price -> formatPrice price regular = Some (usd price).
Proof.
  intros (s & -> & Hs & Hn). destruct s as [|c p]; [congruence|].
  unfold formatPrice, usd. cbn [default]. now rewrite Hn.
Qed.

Lemma formatPrice_skip (price regular : option jsstring) :
  ~ parses_as_number price ->
  formatPrice price regular = formatPrice None regular.
Proof.
  intros Hp. unfold formatPrice. destruct price as [[|c p]|]; try reflexivity.
  destruct (isNaN (Number_ (c :: p))) eqn:E; [reflexivity|].
  exfalso. apply Hp. exists (c :: p). repeat split; [discriminate|assumption].
Qed.

(** C8. [formatPrice] formats the sale price whenever it parses as a
    number, else the regular price whenever that parses as a number, else
    returns absent; in particular [formatPrice("45", "60")] is [$45 USD],
    [formatPrice(absent, "60")] is [$60 USD] and [formatPrice(absent,
    absent)] is absent. *)
Theorem formatPrice_prefers_sale_price :
  (forall price regular,
      parses_as_number price -> formatPrice price regular = Some (usd price))
  /\ (forall price regular,
        ~ parses_as_number price -> parses_as_number regular ->
        formatPrice price regular = Some (usd regular))
  /\ (forall price regular,
        ~ parses_as_number price -> ~ parses_as_number regular ->
        formatPrice price regular = None)
  /\ formatPrice (Some (js "45")) (Some (js "60")) = Some (js "$45 USD")
  /\ formatPrice None (Some (js "60")) = Some (js "$60 USD")
  /\ formatPrice None None = None.
Proof.
  split; [|split; [|split; [|split; [|split]]]];
    [| | |vm_compute; reflexivity..].
  - apply formatPrice_sale.
  - intros price regular Hp (s & -> & Hs & Hn).
    rewrite (formatPrice_skip _ _ Hp). destruct s as [|c p]; [congruence|].
    unfold formatPrice, usd. cbn [default]. now rewrite Hn.
  - intros price regular Hp Hr. rewrite (formatPrice_skip _ _ Hp).
    unfold formatPrice. destruct regular as [[|c p]|]; try reflexivity.
    destruct (isNaN (Number_ (c :: p))) eqn:E; [reflexivity|].
    exfalso. apply Hr. exists (c :: p).
    repeat split; [discriminate|assumption].
Qed.

Example formatPrice_samples :
  formatPrice (Some (js "1234567.891")) None = Some (js "$1,234,567.89 USD")
  /\ formatPrice (Some (js "abc")) (Some (js "12.30")) = Some (js "$12.3 USD")
  /\ formatPrice (Some []) (Some (js "1000")) = Some (js "$1,000 USD")
  /\ formatPrice (Some (js "n/a")) (Some []) = None.
Proof. split; [|split; [|split]]; vm_compute; reflexivity. Qed.

Example Number_samples :
  Number_ (js "0.1") = S754_finite false 7205759403792794 (-56)
  /\ Number_ (js " 45 ") = S754_finite false 6333186975989760 (-47)
  /\ Number_ (js "9007199254740993") = S754_finite false 4503599627370496 1
  /\ Number_ (js "1e400") = S754_infinity false
  /\ Number_ (js "12abc") = S754_nan
  /\ Number_ [] = S754_zero false.
Proof.
  split; [|split; [|split; [|split; [|split]]]]; vm_compute; reflexivity.
Qed.

End Price.

(** ** Config resolver *)

Section Resolver.

Import Env.

Variables env process_env : gmap jsstring jsstring.

(** Under a key that names no member of [Object.prototype] only the own
    bindings count. *)
Lemma layered_plain key :
  Object_prototype key = None ->
  layered env process_env key =
  match env !! key with
  | Some value => Some value
  | None => process_env !! key
  end.
Proof.
  intros H. unfold layered, member. rewrite H.
  destruct (env !! key); [reflexivity|]. now destruct (process_env !! key).
Qed.

Lemma layered_some key value :
  Object_prototype key = None ->
  layered env process_env key = Some value <->
  Spec.defined_as env process_env key value.
Proof.
  intros Hp. rewrite (layered_plain key Hp).
  unfold Spec.defined_as. destruct (env !! key); split.
  - intros [= ->]. now left.
  - intros [[= ->]|[[=] _]]. reflexivity.
  - intros H. right. now split.
  - intros [[=]|[_ H]]. exact H.
Qed.

Lemma layered_none key :
  Object_prototype key = None ->
  layered env process_env key = None <->
  Spec.undefined_key env process_env key.
Proof.
  intros Hp. rewrite (layered_plain key Hp).
  unfold Spec.undefined_key. destruct (env !! key); split.
  - discriminate.
  - intros [[=] _].
  - intros H. now split.
  - intros [_ H]. exact H.
Qed.

Lemma first_defined_some (keys : list jsstring) (value : jsstring) :
  Forall (fun key => Object_prototype key = None) keys ->
  first_defined env process_env keys = Some value <->
  exists (i : nat) (key : jsstring),
    keys !! i = Some key /\ Spec.defined_as env process_env key value
    /\ forall (j : nat) (key' : jsstring),
         (j < i)%nat -> keys !! j = Some key' -> Spec.undefined_key env process_env key'.
Proof.
  induction keys as [|k keys IH]; intros Hplain; cbn [first_defined].
  - split; [discriminate|]. intros (i & key & H & _). destruct i; discriminate.
  - inversion Hplain as [|? ? Hk Hkeys]; subst.
    destruct (layered env process_env k) as [v|] eqn:E.
    + split.
      * intros [= ->]. exists 0%nat, k. split; [reflexivity|].
        split; [now apply layered_some|]. intros j key' Hj. lia.
      * intros (i & key & Hi & Hd & Hbefore). destruct i as [|i].
        -- injection Hi as <-. apply layered_some in Hd; [congruence|exact Hk].
        -- specialize (Hbefore 0%nat k ltac:(lia) eq_refl).
           apply layered_none in Hbefore; [congruence|exact Hk].
    + rewrite (IH Hkeys). split.
      * intros (i & key & Hi & Hd & Hbefore). exists (S i), key.
        split; [exact Hi|]. split; [exact Hd|].
        intros [|j] key' Hj Hk'.
        -- injection Hk' as <-. now apply layered_none.
        -- apply (Hbefore j); [lia | exact Hk'].
      * intros (i & key & Hi & Hd & Hbefore). destruct i as [|i].
        -- injection Hi as <-. apply layered_some in Hd; [congruence|exact Hk].
        -- exists i, key. split; [exact Hi|]. split; [exact Hd|].
           intros j key' Hj Hk'. apply (Hbefore (S j)); [lia | exact Hk'].
Qed.

Lemma first_defined_none (keys : list jsstring) :
  Forall (fun key => Object_prototype key = None) keys ->
  first_defined env process_env keys = None <->
  forall key, key ∈ keys -> Spec.undefined_key env process_env key.
Proof.
  induction keys as [|k keys IH]; intros Hplain; cbn [first_defined].
  - split; [|reflexivity]. intros _ key H. inversion H.
  - inversion Hplain as [|? ? Hk Hkeys]; subst.
    destruct (layered env process_env k) as [v|] eqn:E.
    + split; [discriminate|]. intros H.
      specialize (H k ltac:(left)). apply layered_none in H;
        [congruence|exact Hk].
    + rewrite (IH Hkeys). split.
      * intros H key Hin. inversion Hin; subst; [now apply layered_none|].
        now apply H.
      * intros H key Hin. apply H. now right.
Qed.

End Resolver.

(** C9, as amended.  For candidate keys none of which names a member of
    [Object.prototype] (such as [constructor] or [toString]),
    [getEnvValue] returns the value of the first candidate key, in the
    given order, that is defined in either source, the build-time
    environment being consulted before the process environment for that
    key; it returns absent exactly when no candidate key is defined in
    either source.  A single key is looked up as the list of that key. *)
Theorem getEnvValue_first_defined_key
  (env process_env : gmap jsstring jsstring) (keys : list jsstring)
  (Hplain : Forall (fun key => Env.Object_prototype key = None) keys) :
  (forall value,
      Env.getEnvValue env process_env (Env.ManyKeys keys) = Some value <->
      exists (i : nat) (key : jsstring),
        keys !! i = Some key
        /\ (env !! key = Some value
            \/ (env !! key = None /\ process_env !! key = Some value))
        /\ forall (j : nat) (key' : jsstring),
             (j < i)%nat -> keys !! j = Some key' ->
             env !! key' = None /\ process_env !! key' = None)
  /\ (Env.getEnvValue env process_env (Env.ManyKeys keys) = None <->
      forall key, key ∈ keys ->
        env !! key = None /\ process_env !! key = None)
  /\ (forall key,
        Env.getEnvValue env process_env (Env.OneKey key)
        = Env.getEnvValue env process_env (Env.ManyKeys [key])).
Proof.
  split; [|split].
  - intros value. now apply first_defined_some.
  - now apply first_defined_none.
  - reflexivity.
Qed.

Lemma getEnvValue_first_defined_key_witness :
  let env : gmap jsstring jsstring := {[ js "PUBLIC_WP_API_BASE" := js "b" ]} in
  let process_env : gmap jsstring jsstring :=
    {[ js "PUBLIC_WP_API_BASE" := js "q" ]} in
  Forall (fun key => Env.Object_prototype key = None)
    [js "WP_API_BASE"; js "PUBLIC_WP_API_BASE"]
  /\ Env.getEnvValue env process_env
       (Env.ManyKeys [js "WP_API_BASE"; js "PUBLIC_WP_API_BASE"])
     = Some (js "b").
Proof.
  intros env process_env.
  assert (Hplain : Forall (fun key => Env.Object_prototype key = None)
                     [js "WP_API_BASE"; js "PUBLIC_WP_API_BASE"])
    by (repeat constructor).
  split; [exact Hplain|].
  apply (proj1 (getEnvValue_first_defined_key env process_env _ Hplain)).
  exists 1%nat, (js "PUBLIC_WP_API_BASE").
  split; [reflexivity|]. split; [left; vm_compute; reflexivity|].
  intros [|j] key' Hj Hk; [|lia].
  injection Hk as <-. split; vm_compute; reflexivity.
Defined.

(** C9 as stated fails for a key that names a member of
    [Object.prototype]: with two environments that define nothing,
    [getEnvValue(['constructor'])] is the text of the function [Object],
    not absent, since [env[key]] also finds inherited members. *)
Lemma getEnvValue_inherited_key :
  ~ (forall (env process_env : gmap jsstring jsstring) (keys : Env.Keys),
        (forall value,
            Env.getEnvValue env process_env keys = Some value <->
            exists (i : nat) (key : jsstring),
              Env.toArray keys !! i = Some key
              /\ (env !! key = Some value
                  \/ (env !! key = None /\ process_env !! key = Some value))
              /\ forall (j : nat) (key' : jsstring),
                   (j < i)%nat -> Env.toArray keys !! j = Some key' ->
                   env !! key' = None /\ process_env !! key' = None)
        /\ (Env.getEnvValue env process_env keys = None <->
            forall key, key ∈ Env.toArray keys ->
              env !! key = None /\ process_env !! key = None)).
Proof.
  intros H.
  destruct (H ∅ ∅ (Env.ManyKeys [js "constructor"])) as [_ [_ Hnone]].
  assert (Habsent : Env.getEnvValue ∅ ∅ (Env.ManyKeys [js "constructor"])
                    = None).
  { apply Hnone. intros key _. split; apply lookup_empty. }
  vm_compute in Habsent. discriminate Habsent.
Qed.

Example getEnvValue_layers :
  let env : gmap jsstring jsstring := {[ js "PUBLIC_WP_API_BASE" := js "b" ]} in
  let process_env : gmap jsstring jsstring :=
    {[ js "WP_API_BASE" := js "p" ; js "PUBLIC_WP_API_BASE" := js "q" ]} in
  Env.getEnvValue env process_env
    (Env.ManyKeys [js "WP_API_BASE"; js "PUBLIC_WP_API_BASE"]) = Some (js "p")
  /\ Env.getEnvValue env process_env (Env.OneKey (js "PUBLIC_WP_API_BASE"))
     = Some (js "b")
  /\ Env.getEnvValue env process_env (Env.OneKey (js "WP_USERNAME")) = None.
Proof. split; [|split]; vm_compute; reflexivity. Qed.

(** ** Catalog cache and service *)

Section Catalog.

Import Wp Spec.

Local Open Scope Z_scope.

Ltac run :=
  unfold getProducts, getProductBySlug, getCachedProducts, getStaleProducts,
    setCache, new_URL, fetchFromWP, buildUrl, fetch, json, console_warn,
    try_catch, bind, ret, throw, gets, modify.

Lemma slice0_take {A} (l : list A) (n : Z) :
  0 <= n -> slice0 l n = take (Z.to_nat n) l.
Proof.
  intros Hn. unfold slice0.
  destruct (n <? 0) eqn:E; [apply Z.ltb_lt in E; lia|].
  destruct (Z.le_gt_cases n (Z.of_nat (length l))) as [Hle|Hgt].
  - now rewrite Z.min_l.
  - rewrite Z.min_r by lia. rewrite Nat2Z.id.
    rewrite !take_ge; [reflexivity | lia | lia].
Qed.


(** What the two cache readers compute, as functions of the world. *)
Lemma getCachedProducts_run cfg limit_ w :
  getCachedProducts cfg limit_ w = Returned (fresh_products cfg limit_ w) w.
Proof.
  run. unfold fresh_products.
  destruct (productsCache w) as [entry|]; [|reflexivity].
  destruct (limit entry <? limit_); reflexivity.
Qed.

Lemma getStaleProducts_run limit_ w :
  getStaleProducts limit_ w = Returned (stale_products limit_ w) w.
Proof.
  run. unfold stale_products.
  destruct (productsCache w) as [entry|]; [|reflexivity].
  destruct (limit entry <? limit_); reflexivity.
Qed.

Lemma new_URL_run cfg pf w :
  new_URL pf (baseUrl cfg ++ js "/wc/v3/products") w =
  match products_url cfg pf with
  | Some u => Returned u w
  | None => Thrown InvalidURL w
  end.
Proof.
  unfold new_URL, products_url, ret, throw.
  destruct (has_scheme _); [|reflexivity].
  destruct (url_parse pf _); reflexivity.
Qed.

(** [getProducts], path by path. *)
Lemma getProducts_run cfg pf limit_ w :
  getProducts cfg pf limit_ w =
  match baseUrl cfg with
  | [] => Returned [] w
  | _ :: _ =>
      match fresh_products cfg limit_ w with
      | Some c => Returned c w
      | None =>
          match products_url cfg pf with
          | None => Thrown InvalidURL w
          | Some u =>
              let req := products_request cfg pf limit_ u in
              let w1 := after_fetch pf req w in
              let stale := or_empty (stale_products limit_ w) in
              match fetch_settle pf req (now w) with
              | None =>
                  Returned stale (warned (js "WP products fetch error") w1)
              | Some res =>
                  if ok res then
                    match body res with
                    | BodyItems raw =>
                        let products := with_image (map mapProduct raw) in
                        Returned products (cached cfg products limit_ w1)
                    | BodyError =>
                        Returned stale
                          (warned (js "WP products fetch error") w1)
                    end
                  else
                    Returned stale (warned (js "WP products fetch failed") w1)
              end
          end
      end
  end.
Proof.
  unfold getProducts. destruct (baseUrl cfg) as [|b0 b] eqn:Hb; [reflexivity|].
  unfold bind at 1. rewrite getCachedProducts_run.
  destruct (fresh_products cfg limit_ w) as [c|]; [reflexivity|].
  unfold bind at 1. rewrite getStaleProducts_run.
  unfold bind at 1. rewrite <- Hb, new_URL_run.
  destruct (products_url cfg pf) as [u|]; [|reflexivity].
  cbv zeta. unfold try_catch, fetchFromWP, buildUrl. rewrite Hb.
  unfold bind at 1. unfold bind at 1. unfold ret at 1. unfold fetch.
  replace {| req_url := _; req_headers := _ |}
    with (products_request cfg pf limit_ u)
    by (unfold products_request; now rewrite Hb).
  fold (after_fetch pf (products_request cfg pf limit_ u) w).
  destruct (fetch_settle pf _ (now w)) as [res|]; [|reflexivity].
  destruct (ok res); cbn [negb]; [|reflexivity].
  unfold bind, json. destruct (body res); reflexivity.
Qed.

Lemma getProductBySlug_run cfg pf slug_ w :
  getProductBySlug cfg pf slug_ w =
  match baseUrl cfg with
  | [] => Returned None w
  | _ :: _ =>
      match products_url cfg pf with
      | None => Thrown InvalidURL w
      | Some u =>
          let req := slug_request cfg pf slug_ u in
          let w1 := after_fetch pf req w in
          match fetch_settle pf req (now w) with
          | None =>
              Returned None (warned (js "WP product slug fetch error") w1)
          | Some res =>
              if ok res then
                match body res with
                | BodyItems raw =>
                    Returned
                      match raw with
                      | item :: _ =>
                          match mapProduct item with
                          | Some card =>
                              if truthy (image card) then Some card else None
                          | None => None
                          end
                      | [] => None
                      end w1
                | BodyError =>
                    Returned None
                      (warned (js "WP product slug fetch error") w1)
                end
              else
                Returned None (warned (js "WP product slug fetch failed") w1)
          end
      end
  end.
Proof.
  unfold getProductBySlug.
  destruct (baseUrl cfg) as [|b0 b] eqn:Hb; [reflexivity|].
  unfold bind at 1. rewrite <- Hb, new_URL_run.
  destruct (products_url cfg pf) as [u|]; [|reflexivity].
  cbv zeta. unfold try_catch, fetchFromWP, buildUrl. rewrite Hb.
  unfold bind at 1. unfold bind at 1. unfold ret at 1. unfold fetch.
  replace {| req_url := _; req_headers := _ |}
    with (slug_request cfg pf slug_ u)
    by (unfold slug_request; now rewrite Hb).
  fold (after_fetch pf (slug_request cfg pf slug_ u) w).
  destruct (fetch_settle pf _ (now w)) as [res|]; [|reflexivity].
  destruct (ok res); cbn [negb]; [|reflexivity].
  unfold bind, json. destruct (body res) as [raw|]; [|reflexivity].
  unfold ret. destruct raw as [|item raw]; reflexivity.
Qed.

(** *** Failures and the service boundary *)

(** Without a configured base URL the service answers the empty sequence
    and leaves the world, hence the list of issued requests, as it was. *)
Lemma getProducts_unconfigured cfg pf limit_ w :
  baseUrl cfg = [] -> getProducts cfg pf limit_ w = Returned [] w.
Proof. intros Hb. now rewrite getProducts_run, Hb. Qed.

(** Once the URL constructor accepts the base URL, [getProducts] returns a
    sequence whatever the upstream does. *)
Lemma getProducts_returns cfg pf limit_ w :
  baseUrl cfg = [] \/ products_url cfg pf <> None ->
  exists r w', getProducts cfg pf limit_ w = Returned r w'.
Proof.
  intros H. rewrite getProducts_run.
  destruct (baseUrl cfg); [eauto|].
  destruct (fresh_products cfg limit_ w); [eauto|].
  destruct H as [H|H]; [discriminate|].
  destruct (products_url cfg pf) as [u|]; [|congruence]. cbv zeta.
  destruct (fetch_settle pf _ (now w)) as [res|]; [|eauto].
  destruct (ok res); [|eauto]. destruct (body res); eauto.
Qed.

(** The only exception that leaves [getProducts] is the one of the URL
    constructor. *)
Lemma getProducts_throws cfg pf limit_ w e w' :
  getProducts cfg pf limit_ w = Thrown e w' ->
  e = InvalidURL /\ w' = w /\ baseUrl cfg <> [] /\ products_url cfg pf = None.
Proof.
  rewrite getProducts_run.
  destruct (baseUrl cfg); [discriminate|].
  destruct (fresh_products cfg limit_ w); [discriminate|].
  destruct (products_url cfg pf) as [u|].
  - cbv zeta. destruct (fetch_settle pf _ (now w)) as [res|]; [|discriminate].
    destruct (ok res); [|discriminate]. destruct (body res); discriminate.
  - intros [= <- <-]. repeat split. discriminate.
Qed.

(** C1. With the base URL [example.com] (non-empty, without a scheme) a
    call of [getProducts] that is not served from the cache ends in the
    TypeError of the URL constructor, whatever the upstream does: the
    exception crosses the service boundary. *)
Theorem getProducts_throws_on_base_without_scheme
  (pf : Platform) (limit_ : Z) :
  getProducts Scenario.cfg_no_scheme pf limit_ Scenario.world_empty
  = Thrown InvalidURL Scenario.world_empty.
Proof. rewrite getProducts_run. reflexivity. Qed.

Lemma getProductBySlug_cache_unchanged cfg pf slug_ w :
  productsCache (outcome_world (getProductBySlug cfg pf slug_ w))
  = productsCache w.
Proof.
  rewrite getProductBySlug_run.
  destruct (baseUrl cfg); [reflexivity|].
  destruct (products_url cfg pf) as [u|]; [|reflexivity]. cbv zeta.
  destruct (fetch_settle pf _ (now w)) as [res|]; [|reflexivity].
  destruct (ok res); [|reflexivity]. destruct (body res); reflexivity.
Qed.

(** When the base URL parses, [getProductBySlug] returns, and it returns
    absent when the upstream fails, answers no item, or the first item maps
    to no card or to a card without image. *)
Lemma getProductBySlug_absent cfg pf slug_ w u :
  baseUrl cfg <> [] -> products_url cfg pf = Some u ->
  exists r w',
    getProductBySlug cfg pf slug_ w = Returned r w'
    /\ (upstream_failed
          (fetch_settle pf (slug_request cfg pf slug_ u) (now w)) ->
        r = None)
    /\ (forall res,
          fetch_settle pf (slug_request cfg pf slug_ u) (now w) = Some res ->
          body res = BodyItems [] -> r = None)
    /\ (forall res item raw,
          fetch_settle pf (slug_request cfg pf slug_ u) (now w) = Some res ->
          body res = BodyItems (item :: raw) ->
          (mapProduct item = None
           \/ exists card, mapProduct item = Some card /\ ~ has_image card) ->
          r = None).
Proof.
  intros Hb Hu. rewrite getProductBySlug_run, Hu.
  destruct (baseUrl cfg); [congruence|]. cbv zeta.
  destruct (fetch_settle pf _ (now w)) as [res|].
  2:{ do 2 eexists. split; [reflexivity|]. repeat split; congruence. }
  destruct (ok res) eqn:Hok.
  2:{ do 2 eexists. split; [reflexivity|]. repeat split; congruence. }
  destruct (body res) as [raw|] eqn:Hbody.
  2:{ do 2 eexists. split; [reflexivity|]. repeat split; congruence. }
  do 2 eexists. split; [reflexivity|]. split; [|split].
  - intros [H|H]; congruence.
  - intros res' [= <-] H. rewrite Hbody in H. now injection H as ->.
  - intros res' item raw' [= <-] H. rewrite Hbody in H. injection H as ->.
    intros [->|(card & -> & Hno)]; [reflexivity|].
    destruct (image card) as [[|c i]|] eqn:Hi; try reflexivity.
    exfalso. apply Hno. exists (c :: i). split; [assumption | discriminate].
Qed.

(** C7. With the base URL [example.com] (non-empty, without a scheme)
    every call of [getProductBySlug] ends in the TypeError of the URL
    constructor instead of returning absent. *)
Theorem getProductBySlug_throws_on_base_without_scheme
  (pf : Platform) (slug_ : jsstring) (w : World) :
  getProductBySlug Scenario.cfg_no_scheme pf slug_ w = Thrown InvalidURL w.
Proof. rewrite getProductBySlug_run. reflexivity. Qed.

(** *** The cache readers *)

Lemma fresh_products_some cfg limit_ w l :
  fresh_products cfg limit_ w = Some l <->
  exists entry, fresh_for cfg limit_ w entry /\ l = slice0 (items entry) limit_.
Proof.
  unfold fresh_products, fresh_for. split.
  - destruct (productsCache w) as [entry|]; [|discriminate].
    destruct (limit entry <? limit_) eqn:E1; [discriminate|].
    destruct (0 <? cacheTtlMs cfg) eqn:E2; [|discriminate].
    destruct (now w <? expiresAt entry) eqn:E3; [|discriminate].
    intros [= <-]. exists entry.
    apply Z.ltb_ge in E1. apply Z.ltb_lt in E2, E3. auto.
  - intros (entry & (-> & H1 & H2 & H3) & ->).
    apply Z.ltb_ge in H1. apply Z.ltb_lt in H2, H3.
    now rewrite H1, H2, H3.
Qed.

Lemma fresh_products_none cfg limit_ w :
  fresh_products cfg limit_ w = None <->
  ~ exists entry, fresh_for cfg limit_ w entry.
Proof.
  split.
  - intros H (entry & Hf).
    pose proof (proj2 (fresh_products_some cfg limit_ w _)
                  (ex_intro _ entry (conj Hf eq_refl))) as H'.
    congruence.
  - intros H. destruct (fresh_products cfg limit_ w) as [l|] eqn:E;
      [|reflexivity].
    apply fresh_products_some in E as (entry & Hf & _). exfalso. eauto.
Qed.

Lemma stale_products_take limit_ w :
  0 <= limit_ ->
  or_empty (stale_products limit_ w) =
  match productsCache w with
  | Some entry =>
      if limit_ <=? limit entry then take (Z.to_nat limit_) (items entry)
      else []
  | None => []
  end.
Proof.
  intros Hl. unfold stale_products.
  destruct (productsCache w) as [entry|]; [|reflexivity].
  destruct (limit entry <? limit_) eqn:E.
  - apply Z.ltb_lt in E. destruct (limit_ <=? limit entry) eqn:E'; [|reflexivity].
    apply Z.leb_le in E'. lia.
  - apply Z.ltb_ge in E. apply Z.leb_le in E. rewrite E. cbn [or_empty].
    now apply slice0_take.
Qed.

(** Not served from the cache: with a configured base URL a call that
    returns has issued a request. *)
Lemma getProducts_miss_fetches cfg pf limit_ w r w' :
  fresh_products cfg limit_ w = None -> baseUrl cfg <> [] ->
  getProducts cfg pf limit_ w = Returned r w' ->
  exists req, requests w' = req :: requests w.
Proof.
  intros Hf Hb. rewrite getProducts_run, Hf.
  destruct (baseUrl cfg); [congruence|].
  destruct (products_url cfg pf) as [u|]; [|discriminate]. cbv zeta.
  destruct (fetch_settle pf _ (now w)) as [res|].
  - destruct (ok res); [destruct (body res)|]; intros [= <- <-]; eauto.
  - intros [= <- <-]; eauto.
Qed.

(** C3, as amended. For every cache state, non-negative requested limit
    and current time, [getCachedProducts(limit)] leaves the world as it is
    and returns the first [limit] cached items if and only if a cache entry
    exists whose stored limit is at least the requested limit, the
    configured TTL is strictly positive and the current time is strictly
    before the entry's [expiresAt]; in every other case it returns absent,
    and then [getProducts], with a base URL configured, does not return
    without issuing an upstream request. *)
Theorem getCachedProducts_fresh_iff cfg (limit_ : Z) (w : World)
  (Hlimit : 0 <= limit_) :
  exists r,
    getCachedProducts cfg limit_ w = Returned r w
    /\ (forall l,
          r = Some l <->
          exists entry,
            fresh_for cfg limit_ w entry
            /\ l = take (Z.to_nat limit_) (items entry))
    /\ (r = None <-> ~ exists entry, fresh_for cfg limit_ w entry)
    /\ (r = None -> baseUrl cfg <> [] ->
        forall pf r' w',
          getProducts cfg pf limit_ w = Returned r' w' ->
          exists req, requests w' = req :: requests w).
Proof.
  exists (fresh_products cfg limit_ w).
  split; [apply getCachedProducts_run|]. split; [|split].
  - intros l. rewrite fresh_products_some.
    split; intros (entry & Hf & ->); exists entry;
      (split; [exact Hf|]); [|symmetry]; now apply slice0_take.
  - apply fresh_products_none.
  - intros Hnone Hb pf r' w'. now apply getProducts_miss_fetches.
Qed.

Lemma getCachedProducts_fresh_iff_witness :
  exists r,
    getCachedProducts Scenario.cfg_ok 1 (Scenario.world_cached 2000)
    = Returned r (Scenario.world_cached 2000)
    /\ r = Some [Scenario.card 1].
Proof.
  destruct (getCachedProducts_fresh_iff Scenario.cfg_ok 1
              (Scenario.world_cached 2000) ltac:(lia))
    as (r & Hrun & Hsome & _).
  exists r. split; [exact Hrun|]. apply Hsome.
  exists {| items := [Scenario.card 1; Scenario.card 2];
            limit := 100; expiresAt := 2000 |}.
  split; [|reflexivity].
  unfold fresh_for. cbn. repeat split; lia.
Defined.

(** C3 as stated fails for a negative limit: the cache of two cards filled
    for limit 100 is fresh, and [getCachedProducts(-1)] returns its first
    card, [items.slice(0, -1)], not the first [-1] items. *)
Lemma getCachedProducts_negative_limit :
  ~ (forall cfg limit_ w entry,
        fresh_for cfg limit_ w entry ->
        getCachedProducts cfg limit_ w
        = Returned (Some (take (Z.to_nat limit_) (items entry))) w).
Proof.
  intros H.
  specialize (H Scenario.cfg_ok (-1) (Scenario.world_cached 2000)
                {| items := [Scenario.card 1; Scenario.card 2];
                   limit := 100; expiresAt := 2000 |}).
  assert (Hf : fresh_for Scenario.cfg_ok (-1) (Scenario.world_cached 2000)
                 {| items := [Scenario.card 1; Scenario.card 2];
                    limit := 100; expiresAt := 2000 |}).
  { unfold fresh_for. cbn. repeat split; lia. }
  specialize (H Hf). rewrite getCachedProducts_run in H.
  vm_compute in H. discriminate H.
Qed.

(** *** Stale fallback *)

(** C2, as amended. For every cache state and non-negative requested
    limit, if the live upstream fetch of [getProducts(limit)] fails
    (rejected request, non-OK status or unreadable body), then
    [getProducts] returns the first [limit] items of the cached entry
    whenever an entry exists with stored limit at least the requested limit
    (fresh or not), and the empty sequence otherwise; the cache slot is
    unchanged by the call. *)
Theorem getProducts_stale_fallback cfg pf (limit_ : Z) (w : World) (u : URL)
  (Hlimit : 0 <= limit_)
  (Hbase : baseUrl cfg <> [])
  (Hmiss : getCachedProducts cfg limit_ w = Returned None w)
  (Hurl : products_url cfg pf = Some u)
  (Hfail : upstream_failed
             (fetch_settle pf (products_request cfg pf limit_ u) (now w))) :
  exists w',
    getProducts cfg pf limit_ w =
    Returned
      match productsCache w with
      | Some entry =>
          if limit_ <=? limit entry then take (Z.to_nat limit_) (items entry)
          else []
      | None => []
      end w'
    /\ productsCache w' = productsCache w.
Proof.
  rewrite getCachedProducts_run in Hmiss. injection Hmiss as Hmiss.
  rewrite getProducts_run, Hmiss, Hurl.
  destruct (baseUrl cfg); [congruence|]. cbv zeta.
  rewrite (stale_products_take _ _ Hlimit).
  destruct (fetch_settle pf _ (now w)) as [res|]; cbn in Hfail.
  - destruct Hfail as [Hok|Hbody].
    + rewrite Hok. eexists. split; reflexivity.
    + rewrite Hbody. destruct (ok res); eexists; split; reflexivity.
  - eexists. split; reflexivity.
Qed.

Lemma getProducts_stale_fallback_witness :
  exists w',
    getProducts Scenario.cfg_ok Scenario.upstream_down 1
      (Scenario.world_cached 0)
    = Returned [Scenario.card 1] w'
    /\ productsCache w' = productsCache (Scenario.world_cached 0).
Proof.
  refine (getProducts_stale_fallback Scenario.cfg_ok Scenario.upstream_down 1
            (Scenario.world_cached 0) _ _ _ _ _ _).
  - lia.
  - discriminate.
  - reflexivity.
  - reflexivity.
  - cbn. left. reflexivity.
Defined.

(** C2 as stated fails for a negative limit: with the expired cache of two
    cards filled for limit 100 and an upstream answering 503,
    [getProducts(-1)] returns the first card of the cache, not the first
    [-1] items. *)
Lemma getProducts_stale_negative_limit :
  ~ (forall cfg pf limit_ w u entry,
        baseUrl cfg <> [] ->
        getCachedProducts cfg limit_ w = Returned None w ->
        products_url cfg pf = Some u ->
        upstream_failed
          (fetch_settle pf (products_request cfg pf limit_ u) (now w)) ->
        productsCache w = Some entry -> limit_ <= limit entry ->
        exists w',
          getProducts cfg pf limit_ w
          = Returned (take (Z.to_nat limit_) (items entry)) w').
Proof.
  intros H.
  destruct (H Scenario.cfg_ok Scenario.upstream_down (-1)
              (Scenario.world_cached 0)
              {| url_head := js "https://shop.test/wp-json/wc/v3/products";
                 searchParams := []; url_hash := [] |}
              {| items := [Scenario.card 1; Scenario.card 2];
                 limit := 100; expiresAt := 0 |}) as (w' & Hrun).
  - discriminate.
  - reflexivity.
  - reflexivity.
  - cbn. left. reflexivity.
  - reflexivity.
  - cbn. lia.
  - vm_compute in Hrun. discriminate Hrun.
Qed.

(** *** Cache idempotence *)

Lemma getProducts_success cfg pf limit_ w u res raw :
  baseUrl cfg <> [] ->
  getCachedProducts cfg limit_ w = Returned None w ->
  products_url cfg pf = Some u ->
  fetch_settle pf (products_request cfg pf limit_ u) (now w) = Some res ->
  ok res = true -> body res = BodyItems raw ->
  getProducts cfg pf limit_ w =
  Returned (with_image (map mapProduct raw))
    (cached cfg (with_image (map mapProduct raw)) limit_
       (after_fetch pf (products_request cfg pf limit_ u) w)).
Proof.
  intros Hb Hmiss Hu Hs Hok Hbody.
  rewrite getCachedProducts_run in Hmiss. injection Hmiss as Hmiss.
  rewrite getProducts_run, Hmiss, Hu.
  destruct (baseUrl cfg); [congruence|]. cbv zeta.
  now rewrite Hs, Hok, Hbody.
Qed.

(** A successful fetch fills the cache slot with its result. *)
Lemma getProducts_success_populates cfg pf limit_ w u res raw :
  baseUrl cfg <> [] ->
  getCachedProducts cfg limit_ w = Returned None w ->
  products_url cfg pf = Some u ->
  fetch_settle pf (products_request cfg pf limit_ u) (now w) = Some res ->
  ok res = true -> body res = BodyItems raw ->
  populates cfg pf limit_ w (with_image (map mapProduct raw))
    (cached cfg (with_image (map mapProduct raw)) limit_
       (after_fetch pf (products_request cfg pf limit_ u) w)).
Proof.
  intros Hb Hmiss Hu Hs Hok Hbody. split; [|split].
  - eapply getProducts_success; eassumption.
  - eexists. reflexivity.
  - reflexivity.
Qed.

Lemma populates_configured cfg pf limit_ w0 r w1 :
  populates cfg pf limit_ w0 r w1 -> baseUrl cfg <> [].
Proof.
  intros (Hrun & (req & Hreq) & _) Hb.
  rewrite getProducts_unconfigured in Hrun by exact Hb.
  injection Hrun as _ <-.
  apply (f_equal length) in Hreq. cbn in Hreq. lia.
Qed.

(** C4, as amended. For every positive TTL and upstream, if a call of
    [getProducts(50)] fetches and fills the cache with a result of at most
    50 cards, then a second call of [getProducts(50)] made with that cache
    while the entry is within its TTL window returns the same sequence as
    the first call and leaves the world untouched: no request is issued. *)
Theorem getProducts_cache_idempotent cfg pf (w0 w1 w2 : World)
  (r1 : list ProductCard)
  (Httl : 0 < cacheTtlMs cfg)
  (Hfirst : populates cfg pf 50 w0 r1 w1)
  (Hsize : (length r1 <= 50)%nat)
  (Hcache : productsCache w2 = productsCache w1)
  (Hwindow : now w2 < now w1 + cacheTtlMs cfg) :
  getProducts cfg pf 50 w2 = Returned r1 w2
  /\ requests (outcome_world (getProducts cfg pf 50 w2)) = requests w2.
Proof.
  pose proof (populates_configured _ _ _ _ _ _ Hfirst) as Hb.
  destruct Hfirst as (_ & _ & Hslot).
  assert (Hrun : getProducts cfg pf 50 w2 = Returned r1 w2).
  { rewrite getProducts_run. destruct (baseUrl cfg); [congruence|].
    unfold fresh_products. rewrite Hcache, Hslot. cbn [limit items expiresAt].
    rewrite Z.ltb_irrefl.
    apply Z.ltb_lt in Httl, Hwindow. rewrite Httl, Hwindow. cbn [andb].
    rewrite slice0_take by lia. now rewrite take_ge by lia. }
  split; [exact Hrun|]. now rewrite Hrun.
Qed.

Lemma getProducts_cache_idempotent_witness :
  exists r1 w1,
    populates Scenario.cfg_ok (Scenario.upstream_items 2) 50
      Scenario.world_empty r1 w1
    /\ getProducts Scenario.cfg_ok (Scenario.upstream_items 2) 50 w1
       = Returned r1 w1
    /\ r1 = [Scenario.card 1; Scenario.card 1].
Proof.
  pose proof (getProducts_success_populates Scenario.cfg_ok
                (Scenario.upstream_items 2) 50 Scenario.world_empty
                {| url_head := js "https://shop.test/wp-json/wc/v3/products";
                   searchParams := []; url_hash := [] |}
                _ _ ltac:(discriminate) eq_refl eq_refl eq_refl eq_refl eq_refl)
    as Hpop.
  do 2 eexists. split; [exact Hpop|]. split.
  - refine (proj1 (getProducts_cache_idempotent _ _ _ _ _ _ _ Hpop _ eq_refl _)).
    + reflexivity.
    + vm_compute. lia.
    + vm_compute. reflexivity.
  - vm_compute. reflexivity.
Defined.

(** C4 as stated fails when the upstream answers more items than asked
    for: of 51 items with images the first call returns all 51 and caches
    them, and the second call, served from the cache, returns the first 50. *)
Lemma getProducts_second_call_truncates :
  ~ (forall cfg pf w0 r1 w1 w2,
        0 < cacheTtlMs cfg ->
        populates cfg pf 50 w0 r1 w1 ->
        productsCache w2 = productsCache w1 ->
        now w2 < now w1 + cacheTtlMs cfg ->
        getProducts cfg pf 50 w2 = Returned r1 w2).
Proof.
  intros H.
  pose proof (getProducts_success_populates Scenario.cfg_ok
                (Scenario.upstream_items 51) 50 Scenario.world_empty
                {| url_head := js "https://shop.test/wp-json/wc/v3/products";
                   searchParams := []; url_hash := [] |}
                _ _ ltac:(discriminate) eq_refl eq_refl eq_refl eq_refl eq_refl)
    as Hpop.
  specialize (H Scenario.cfg_ok (Scenario.upstream_items 51) _ _ _ _
                eq_refl Hpop eq_refl).
  specialize (H ltac:(vm_compute; reflexivity)).
  apply (f_equal (fun o => match o with
                           | Returned r _ => length r
                           | Thrown _ _ => 0%nat
                           end)) in H.
  vm_compute in H. discriminate H.
Qed.

(** *** Images *)

Lemma truthy_has_image (card : ProductCard) :
  truthy (image card) = true <-> has_image card.
Proof.
  unfold has_image. destruct (image card) as [[|c u]|]; cbn; split;
    try discriminate.
  - intros (u & [= <-] & Hu). congruence.
  - intros _. eexists. split; [reflexivity | discriminate].
  - reflexivity.
  - intros (u & [=] & _).
Qed.





Example getProducts_drops_cards_without_image :
  exists w',
    getProducts Scenario.cfg_ok Scenario.upstream_mixed 50
      Scenario.world_empty
    = Returned [Scenario.card 1] w'.
Proof. eexists. vm_compute. reflexivity. Qed.

End Catalog.

(** ** Further properties of the catalog service *)

Section CatalogEffects.

Import Wp Spec Frame.

Local Open Scope Z_scope.

(** X1. What a call of [getProducts] does to the world.  A call that
    throws changes nothing.  A call that returns either changes nothing
    (no base URL, or served from the fresh cache), or has issued exactly
    one request, the products request, and then either stored the returned
    sequence in the cache slot under the requested limit without logging,
    or logged one warning, left the cache slot alone and returned the stale
    snapshot or the empty sequence. *)
Theorem getProducts_effects cfg pf (limit_ : Z) (w : World) :
  match getProducts cfg pf limit_ w with
  | Thrown e w' => e = InvalidURL /\ w' = w
  | Returned r w' =>
      w' = w
      \/ exists u,
           products_url cfg pf = Some u
           /\ (w' = cached cfg r limit_
                      (after_fetch pf (products_request cfg pf limit_ u) w)
               \/ exists msg,
                    w' = warned msg
                           (after_fetch pf (products_request cfg pf limit_ u) w)
                    /\ r = or_empty (stale_products limit_ w))
  end.
Proof.
  rewrite getProducts_run.
  destruct (baseUrl cfg); [now left|].
  destruct (fresh_products cfg limit_ w); [now left|].
  destruct (products_url cfg pf) as [u|]; [|now split]. cbv zeta.
  destruct (fetch_settle pf _ (now w)) as [res|].
  - destruct (ok res); [destruct (body res)|]; right; exists u;
      (split; [reflexivity|]); [now left|right; eauto..].
  - right. exists u. split; [reflexivity|]. right. eauto.
Qed.

(** X2. A cache filled for a limit serves every smaller non-negative limit
    by prefix: after a call that fetched and cached a sequence for [limit],
    a call for [limit'] between 0 and [limit], made within the TTL window,
    returns the first [limit'] cards of that sequence and leaves the world
    untouched. *)
Theorem getProducts_serves_smaller_limit cfg pf (limit_ limit' : Z)
  (w0 w1 w2 : World) (r1 : list ProductCard)
  (Httl : 0 < cacheTtlMs cfg)
  (Hfirst : populates cfg pf limit_ w0 r1 w1)
  (Hlimit : 0 <= limit' <= limit_)
  (Hcache : productsCache w2 = productsCache w1)
  (Hwindow : now w2 < now w1 + cacheTtlMs cfg) :
  getProducts cfg pf limit' w2 = Returned (take (Z.to_nat limit') r1) w2.
Proof.
  pose proof (populates_configured _ _ _ _ _ _ Hfirst) as Hb.
  destruct Hfirst as (_ & _ & Hslot).
  rewrite getProducts_run. destruct (baseUrl cfg); [congruence|].
  unfold fresh_products. rewrite Hcache, Hslot. cbn [limit items expiresAt].
  destruct (limit_ <? limit') eqn:E; [apply Z.ltb_lt in E; lia|].
  apply Z.ltb_lt in Httl, Hwindow. rewrite Httl, Hwindow. cbn [andb].
  now rewrite slice0_take by lia.
Qed.

Lemma getProducts_serves_smaller_limit_witness :
  exists r1 w1,
    populates Scenario.cfg_ok (Scenario.upstream_items 3) 50
      Scenario.world_empty r1 w1
    /\ getProducts Scenario.cfg_ok (Scenario.upstream_items 3) 2 w1
       = Returned [Scenario.card 1; Scenario.card 1] w1.
Proof.
  pose proof (getProducts_success_populates Scenario.cfg_ok
                (Scenario.upstream_items 3) 50 Scenario.world_empty
                {| url_head := js "https://shop.test/wp-json/wc/v3/products";
                   searchParams := []; url_hash := [] |}
                _ _ ltac:(discriminate) eq_refl eq_refl eq_refl eq_refl eq_refl)
    as Hpop.
  do 2 eexists. split; [exact Hpop|].
  refine (getProducts_serves_smaller_limit _ _ 50 2 _ _ _ _ _ Hpop _ eq_refl _).
  - reflexivity.
  - lia.
  - vm_compute. reflexivity.
Defined.

(** X3. With a TTL of zero (or less) nothing is ever served from the
    cache: every call with a base URL that parses issues the products
    request, whatever the cache slot holds. *)
Theorem getProducts_zero_ttl_always_fetches cfg pf (limit_ : Z) (w : World)
  (u : URL)
  (Httl : cacheTtlMs cfg <= 0)
  (Hbase : baseUrl cfg <> [])
  (Hurl : products_url cfg pf = Some u) :
  exists r w',
    getProducts cfg pf limit_ w = Returned r w'
    /\ requests w' = products_request cfg pf limit_ u :: requests w.
Proof.
  rewrite getProducts_run, Hurl. destruct (baseUrl cfg); [congruence|].
  assert (Hmiss : fresh_products cfg limit_ w = None).
  { unfold fresh_products. destruct (productsCache w) as [entry|]; [|reflexivity].
    destruct (limit entry <? limit_); [reflexivity|].
    destruct (0 <? cacheTtlMs cfg) eqn:E; [apply Z.ltb_lt in E; lia|reflexivity]. }
  rewrite Hmiss. cbv zeta.
  destruct (fetch_settle pf _ (now w)) as [res|]; [|eauto].
  destruct (ok res); [destruct (body res)|]; eauto.
Qed.

Lemma getProducts_zero_ttl_always_fetches_witness :
  exists r w',
    getProducts
      {| baseUrl := js "https://shop.test/wp-json"; cacheTtlMs := 0;
         authHeader := [] |}
      (Scenario.upstream_items 1) 100 (Scenario.world_cached 2000)
    = Returned r w'
    /\ length (requests w') = 1%nat.
Proof.
  destruct (getProducts_zero_ttl_always_fetches
              {| baseUrl := js "https://shop.test/wp-json"; cacheTtlMs := 0;
                 authHeader := [] |}
              (Scenario.upstream_items 1) 100 (Scenario.world_cached 2000)
              {| url_head := js "https://shop.test/wp-json/wc/v3/products";
                 searchParams := []; url_hash := [] |}
              ltac:(cbn; lia) ltac:(discriminate) eq_refl)
    as (r & w' & Hrun & Hreq).
  exists r, w'. split; [exact Hrun|]. now rewrite Hreq.
Defined.

(** X4. A call for a non-negative limit that is not answered from a
    successful upstream response (it issued no request, or it logged a
    warning) returns at most [limit] cards. *)
Theorem getProducts_cached_result_bounded cfg pf (limit_ : Z) (w w' : World)
  (r : list ProductCard)
  (Hlimit : 0 <= limit_)
  (Hrun : getProducts cfg pf limit_ w = Returned r w')
  (Hpath : requests w' = requests w \/ warnings w' <> warnings w) :
  (length r <= Z.to_nat limit_)%nat.
Proof.
  assert (Hslice : forall l : list ProductCard,
             (length (slice0 l limit_) <= Z.to_nat limit_)%nat).
  { intros l. rewrite slice0_take by exact Hlimit. rewrite length_take. lia. }
  assert (Hstale : (length (or_empty (stale_products limit_ w))
                    <= Z.to_nat limit_)%nat).
  { unfold stale_products. destruct (productsCache w) as [entry|]; [|cbn; lia].
    destruct (limit entry <? limit_); [cbn; lia|apply Hslice]. }
  revert Hrun. rewrite getProducts_run.
  destruct (baseUrl cfg); [intros [= <- <-]; cbn; lia|].
  destruct (fresh_products cfg limit_ w) as [c|] eqn:Hf.
  { intros [= <- <-]. apply fresh_products_some in Hf as (entry & _ & ->).
    apply Hslice. }
  destruct (products_url cfg pf) as [u|]; [|discriminate]. cbv zeta.
  destruct (fetch_settle pf _ (now w)) as [res|].
  2:{ intros [= <- <-]. exact Hstale. }
  destruct (ok res).
  2:{ intros [= <- <-]. exact Hstale. }
  destruct (body res) as [raw|].
  2:{ intros [= <- <-]. exact Hstale. }
  intros [= <- <-]. exfalso. destruct Hpath as [H|H].
  - cbn in H. apply (f_equal length) in H. cbn in H. lia.
  - apply H. reflexivity.
Qed.

Lemma getProducts_cached_result_bounded_witness :
  exists r w',
    getProducts Scenario.cfg_ok Scenario.upstream_down 1
      (Scenario.world_cached 0) = Returned r w'
    /\ (length r <= 1)%nat.
Proof.
  destruct (getProducts Scenario.cfg_ok Scenario.upstream_down 1
              (Scenario.world_cached 0)) as [r w'|e w'] eqn:Hrun;
    [|vm_compute in Hrun; discriminate Hrun].
  exists r, w'. split; [reflexivity|].
  refine (getProducts_cached_result_bounded _ _ 1 _ _ _ _ Hrun _).
  - lia.
  - right. vm_compute in Hrun. injection Hrun as _ <-. discriminate.
Defined.

(** X5. [getProductBySlug] returns a card exactly when the base URL is
    configured and parses, the slug request is answered with a 2xx status
    and a readable array, and the first item of that array maps to a card
    with an image; the card is the mapped first item, whatever its slug
    and whatever follows it in the array. *)
Theorem getProductBySlug_some_iff cfg pf (slug_ : jsstring) (w w' : World)
  (card : ProductCard) :
  getProductBySlug cfg pf slug_ w = Returned (Some card) w' <->
  baseUrl cfg <> []
  /\ exists u res item rest,
       products_url cfg pf = Some u
       /\ fetch_settle pf (slug_request cfg pf slug_ u) (now w) = Some res
       /\ ok res = true
       /\ body res = BodyItems (item :: rest)
       /\ mapProduct item = Some card
       /\ has_image card
       /\ w' = after_fetch pf (slug_request cfg pf slug_ u) w.
Proof.
  rewrite getProductBySlug_run. split.
  - destruct (baseUrl cfg); [discriminate|].
    destruct (products_url cfg pf) as [u|]; [|discriminate]. cbv zeta.
    destruct (fetch_settle pf _ (now w)) as [res|] eqn:Hs; [|discriminate].
    destruct (ok res) eqn:Hok; [|discriminate].
    destruct (body res) as [[|item rest]|] eqn:Hb; try discriminate.
    destruct (mapProduct item) as [c|] eqn:Hm; [|discriminate].
    destruct (truthy (image c)) eqn:Hi; [|discriminate].
    intros [= <- <-]. split; [discriminate|].
    exists u, res, item, rest. repeat split; try assumption.
    now apply truthy_has_image.
  - intros (Hbase & u & res & item & rest & Hu & Hs & Hok & Hb & Hm & Hi & ->).
    destruct (baseUrl cfg); [congruence|]. rewrite Hu. cbv zeta.
    rewrite Hs, Hok, Hb, Hm.
    apply truthy_has_image in Hi. now rewrite Hi.
Qed.

(** X6. [getProductBySlug] never consults the cache slot: run against the
    same world with any other cache content, it has the same outcome and
    leaves that other content in place. *)
Theorem getProductBySlug_ignores_cache cfg pf (slug_ : jsstring) (w : World)
  (slot : option CacheEntry) :
  getProductBySlug cfg pf slug_ (with_cache slot w)
  = outcome_with_cache slot (getProductBySlug cfg pf slug_ w).
Proof.
  rewrite !getProductBySlug_run.
  destruct (baseUrl cfg); [reflexivity|].
  destruct (products_url cfg pf) as [u|]; [|reflexivity]. cbv zeta.
  cbn [with_cache now].
  destruct (fetch_settle pf _ (now w)) as [res|]; [|reflexivity].
  destruct (ok res); [|reflexivity]. destruct (body res); reflexivity.
Qed.

End CatalogEffects.

(** ** Configuration *)

Section Configuration.

Import Wp.

(** X7. Fallback chains compose: looking up the keys [ks1 ++ ks2] gives
    what [ks1] gives when one of its keys is defined, and otherwise what
    [ks2] gives. *)
Theorem getEnvValue_app (env process_env : gmap jsstring jsstring)
  (ks1 ks2 : list jsstring) :
  Env.getEnvValue env process_env (Env.ManyKeys (ks1 ++ ks2)) =
  match Env.getEnvValue env process_env (Env.ManyKeys ks1) with
  | Some value => Some value
  | None => Env.getEnvValue env process_env (Env.ManyKeys ks2)
  end.
Proof.
  unfold Env.getEnvValue. cbn [Env.toArray].
  induction ks1 as [|k ks1 IH]; [reflexivity|].
  cbn [app Env.first_defined].
  destruct (Env.layered env process_env k); [reflexivity | exact IH].
Qed.

Lemma exec_trailing_slash_found (bef t : jsstring) :
  exec_from WpConfig.re_trailing_slash bef (t ++ [47%N]) =
  Some (MatchResult (rev bef ++ t) [47%N] [] []).
Proof.
  revert bef. induction t as [|c t IH]; intros bef.
  - cbn. now rewrite app_nil_r.
  - cbn [app exec_from]. unfold match_here at 1. cbn.
    replace (match is_char "/" c with
             | true => match t ++ [47%N] with [] => _ | _ :: _ => None end
             | false => None
             end) with (@None mstate)
      by (destruct (is_char "/" c); [destruct t|]; reflexivity).
    rewrite IH. cbn [rev]. now rewrite <- app_assoc.
Qed.

Lemma exec_trailing_slash_none (bef aft : jsstring) :
  (forall t, aft <> t ++ [47%N]) ->
  exec_from WpConfig.re_trailing_slash bef aft = None.
Proof.
  revert bef. induction aft as [|c aft IH]; intros bef Hno; [reflexivity|].
  cbn [exec_from]. unfold match_here at 1. cbn.
  destruct (is_char "/" c) eqn:Hc.
  - destruct aft as [|d aft].
    + exfalso. apply (Hno []). apply N.eqb_eq in Hc. now subst.
    + apply IH. intros t Heq. apply (Hno (c :: t)). cbn. now rewrite Heq.
  - apply IH. intros t Heq. apply (Hno (c :: t)). cbn. now rewrite Heq.
Qed.

Lemma strip_trailing_slash_found (t : jsstring) :
  replace_re WpConfig.re_trailing_slash (fun _ => []) (t ++ js "/") = t.
Proof.
  unfold replace_re, exec. change (js "/") with [47%N].
  rewrite exec_trailing_slash_found. cbn. now rewrite app_nil_r.
Qed.

Lemma strip_trailing_slash_none (s : jsstring) :
  (forall t, s <> t ++ js "/") ->
  replace_re WpConfig.re_trailing_slash (fun _ => []) s = s.
Proof.
  intros Hno. unfold replace_re, exec.
  now rewrite exec_trailing_slash_none by exact Hno.
Qed.

Lemma baseUrl_empty_iff (env process_env : gmap jsstring jsstring) :
  WpConfig.baseUrl env process_env = [] <->
  let value :=
    WpConfig.lookup env process_env
      [js "WP_API_BASE"; js "PUBLIC_WP_API_BASE"] in
  value = None \/ value = Some [] \/ value = Some (js "/").
Proof.
  unfold WpConfig.baseUrl. cbv zeta.
  destruct (WpConfig.lookup env process_env _) as [s|];
    unfold default, Datatypes.id; cbn [from_option].
  2:{ split; [now left | reflexivity]. }
  destruct s as [|s0 s']; [split; [now right; left | reflexivity]|].
  destruct (@exists_last _ (s0 :: s') ltac:(discriminate)) as (t & c & Hs).
  rewrite Hs. clear Hs s0 s'.
  destruct (N.eq_dec c 47) as [->|Hc].
  - change [47%N] with (js "/"). rewrite strip_trailing_slash_found. split.
    + intros H. right. right. destruct t; [reflexivity | discriminate].
    + intros [H|[H|H]]; try discriminate.
      * injection H as H. now destruct t.
      * injection H as H.
        destruct t as [|t0 [|t1 t]]; [reflexivity | discriminate..].
  - rewrite strip_trailing_slash_none.
    2:{ intros t' Heq. apply app_inj_tail in Heq as [_ ->]. now apply Hc. }
    split.
    + intros H. destruct (t ++ [c]) eqn:E; [|discriminate].
      now destruct t.
    + intros [H|[H|H]]; try discriminate.
      * injection H as H. now destruct t.
      * injection H as H. exfalso.
        destruct t as [|t0 [|t1 t]]; try discriminate.
        injection H as ->. now apply Hc.
Qed.

(** X8. The base URL is the configured value without one trailing slash:
    a value [t/] resolves to [t], a value that does not end in a slash
    resolves to itself, and the base URL is empty exactly when no key is
    defined or the value is the empty string or a lone slash. *)
Theorem baseUrl_strips_one_trailing_slash
  (env process_env : gmap jsstring jsstring) :
  let value :=
    WpConfig.lookup env process_env
      [js "WP_API_BASE"; js "PUBLIC_WP_API_BASE"] in
  (forall t, value = Some (t ++ js "/") ->
             WpConfig.baseUrl env process_env = t)
  /\ (forall s, value = Some s -> (forall t, s <> t ++ js "/") ->
                WpConfig.baseUrl env process_env = s)
  /\ (WpConfig.baseUrl env process_env = [] <->
      value = None \/ value = Some [] \/ value = Some (js "/")).
Proof.
  intros value. split; [|split].
  - intros t Hv. unfold WpConfig.baseUrl. fold value. rewrite Hv.
    unfold default, Datatypes.id. cbn [from_option].
    rewrite strip_trailing_slash_found. now destruct t.
  - intros s Hv Hno. unfold WpConfig.baseUrl. fold value. rewrite Hv.
    unfold default, Datatypes.id. cbn [from_option].
    rewrite strip_trailing_slash_none by exact Hno. now destruct s.
  - apply baseUrl_empty_iff.
Qed.

End Configuration.

Section ResolvedConstants.

Import Wp.

Local Open Scope Z_scope.

(** X9. Without a base URL in the environment the catalog degrades
    silently: when neither [WP_API_BASE] nor [PUBLIC_WP_API_BASE] is
    defined, or the value is empty or a lone slash, [getProducts] returns
    the empty sequence and [getProductBySlug] returns absent, for every
    TTL, credentials, upstream and world, and the world stays as it is. *)
Theorem unconfigured_environment_degrades
  (env process_env : gmap jsstring jsstring) (ttl : Z) (auth : jsstring)
  (pf : Platform) (limit_ : Z) (slug_ : jsstring) (w : World)
  (Hunset :
     let value :=
       WpConfig.lookup env process_env
         [js "WP_API_BASE"; js "PUBLIC_WP_API_BASE"] in
     value = None \/ value = Some [] \/ value = Some (js "/")) :
  let cfg := {| baseUrl := WpConfig.baseUrl env process_env;
                cacheTtlMs := ttl; authHeader := auth |} in
  getProducts cfg pf limit_ w = Returned [] w
  /\ getProductBySlug cfg pf slug_ w = Returned None w.
Proof.
  intros cfg.
  assert (Hb : baseUrl cfg = []).
  { apply baseUrl_empty_iff. exact Hunset. }
  split.
  - now apply getProducts_unconfigured.
  - rewrite getProductBySlug_run, Hb. reflexivity.
Qed.

Lemma unconfigured_environment_degrades_witness :
  getProducts
    {| baseUrl := WpConfig.baseUrl {[ js "WP_API_BASE" := js "/" ]} ∅;
       cacheTtlMs := 1; authHeader := [] |}
    (Scenario.upstream_items 2) 10 (Scenario.world_cached 2000)
  = Returned [] (Scenario.world_cached 2000).
Proof.
  refine (proj1 (unconfigured_environment_degrades
                   {[ js "WP_API_BASE" := js "/" ]} ∅ 1 []
                   (Scenario.upstream_items 2) 10 [] _ _)).
  right. right. vm_compute. reflexivity.
Defined.

(** X10. The resolved cache TTL is always a finite number that is not
    negative (and not the negative zero).  It is the default of five
    minutes when neither [WP_CACHE_TTL_MS] nor [WP_CACHE_TTL] is defined,
    when the value is the empty string and when the value does not parse
    to a finite number; a negative value gives zero. *)
Theorem cacheTtlMs_finite_and_not_negative
  (env process_env : gmap jsstring jsstring) :
  let raw :=
    WpConfig.lookup env process_env [js "WP_CACHE_TTL_MS"; js "WP_CACHE_TTL"] in
  let ttl := WpConfig.cacheTtlMs env process_env in
  (ttl = S754_zero false \/ exists m e, ttl = S754_finite false m e)
  /\ WpConfig.DEFAULT_CACHE_TTL_MS = S754_finite false 5153960755200000 (-34)
  /\ (Z.pos 5153960755200000 = 300000 * 2 ^ 34)
  /\ (raw = None \/ raw = Some [] -> ttl = WpConfig.DEFAULT_CACHE_TTL_MS)
  /\ (forall s, raw = Some s -> WpConfig.isFinite (Number_ s) = false ->
                ttl = WpConfig.DEFAULT_CACHE_TTL_MS)
  /\ (forall s m e, raw = Some s -> Number_ s = S754_finite true m e ->
                    ttl = S754_zero false).
Proof.
  intros raw ttl. subst ttl. unfold WpConfig.cacheTtlMs. fold raw.
  assert (Hdef : WpConfig.DEFAULT_CACHE_TTL_MS
                 = S754_finite false 5153960755200000 (-34))
    by (vm_compute; reflexivity).
  split; [|split; [exact Hdef|split; [reflexivity|split; [|split]]]].
  - destruct raw as [[|c s]|]; try (right; rewrite Hdef; eauto; fail).
    destruct (Number_ (c :: s)) as [[]|[]| |[] m e]; cbn;
      first [ now left | right; rewrite Hdef; eauto; fail | right; eauto ].
  - intros [->| ->]; reflexivity.
  - intros s -> Hfin. destruct s as [|c s]; [reflexivity|]. now rewrite Hfin.
  - intros s m e -> Hneg. destruct s as [|c s].
    + vm_compute in Hneg. discriminate Hneg.
    + now rewrite Hneg.
Qed.

(** X11. Credentials are sent only when both are set: the Authorization
    header is [Basic] followed by the base64 text of [user:password] when
    both [WP_USERNAME] and [WP_APP_PASSWORD] are defined and not empty, and
    no Authorization header is attached otherwise; the Accept header is
    always attached. *)
Theorem authorization_needs_both_credentials
  (env process_env : gmap jsstring jsstring) (base : jsstring) (ttl : Z) :
  let cfg := {| baseUrl := base; cacheTtlMs := ttl;
                authHeader := WpConfig.authHeader env process_env |} in
  (forall u p,
      WpConfig.username env process_env = Some u -> u <> [] ->
      WpConfig.appPassword env process_env = Some p -> p <> [] ->
      wp_headers cfg =
      [(js "Accept", js "application/json");
       (js "Authorization",
        js "Basic " ++ Encoding.base64 (Encoding.utf8 (u ++ js ":" ++ p)))])
  /\ (truthy (WpConfig.username env process_env) = false
      \/ truthy (WpConfig.appPassword env process_env) = false ->
      wp_headers cfg = [(js "Accept", js "application/json")]).
Proof.
  intros cfg. unfold wp_headers, cfg. cbn [authHeader].
  unfold WpConfig.authHeader. split.
  - intros u p -> Hu -> Hp. destruct u; [congruence|]. destruct p; [congruence|].
    reflexivity.
  - destruct (WpConfig.username env process_env) as [[|u0 u]|];
      destruct (WpConfig.appPassword env process_env) as [[|p0 p]|];
      cbn; intros [H|H]; try reflexivity; discriminate.
Qed.

Example authHeader_sample :
  WpConfig.authHeader
    {[ js "WP_USERNAME" := js "user"; js "WP_APP_PASSWORD" := js "pass" ]} ∅
  = js "Basic dXNlcjpwYXNz".
Proof. vm_compute. reflexivity. Qed.

End ResolvedConstants.

(** ** Trimming *)

Section Trim.

Lemma drop_while_app_all (p : N -> bool) (pad s : jsstring) :
  forallb p pad = true -> drop_while p (pad ++ s) = drop_while p s.
Proof.
  induction pad as [|c pad IH]; [reflexivity|]. cbn.
  intros H. apply andb_true_iff in H as [Hc Hpad]. rewrite Hc. now apply IH.
Qed.

Lemma drop_while_all (p : N -> bool) (s : jsstring) :
  forallb p s = true -> drop_while p s = [].
Proof.
  intros H. rewrite <- (app_nil_r s). now rewrite drop_while_app_all.
Qed.

Lemma drop_while_app_stop (p : N -> bool) (s x : jsstring) :
  drop_while p s <> [] -> drop_while p (s ++ x) = drop_while p s ++ x.
Proof.
  induction s as [|c s IH]; [cbn; congruence|]. cbn.
  destruct (p c); [exact IH | reflexivity].
Qed.

Lemma drop_while_nil_all (p : N -> bool) (s : jsstring) :
  drop_while p s = [] -> forallb p s = true.
Proof.
  induction s as [|c s IH]; [reflexivity|]. cbn.
  destruct (p c); [exact IH | discriminate].
Qed.

(** Whitespace around a text does not survive [trim]. *)
Lemma trim_pad (pad1 s pad2 : jsstring) :
  forallb is_space pad1 = true -> forallb is_space pad2 = true ->
  trim (pad1 ++ s ++ pad2) = trim s.
Proof.
  intros H1 H2. unfold trim. rewrite drop_while_app_all by exact H1.
  destruct (drop_while is_space s) as [|c s'] eqn:E.
  - apply drop_while_nil_all in E.
    rewrite drop_while_app_all by exact E.
    now rewrite (drop_while_all _ _ H2).
  - rewrite drop_while_app_stop by congruence. rewrite E, rev_app_distr.
    rewrite drop_while_app_all; [reflexivity|].
    rewrite forallb_forall in *. intros x Hx. apply H2.
    now apply in_rev.
Qed.

Lemma drop_while_map (p : N -> bool) (f : N -> N) (s : jsstring) :
  (forall c, p (f c) = p c) ->
  drop_while p (map f s) = map f (drop_while p s).
Proof.
  intros Hf. induction s as [|c s IH]; [reflexivity|]. cbn.
  rewrite Hf. destruct (p c); [exact IH | reflexivity].
Qed.

Lemma trim_map (f : N -> N) (s : jsstring) :
  (forall c, is_space (f c) = is_space c) -> trim (map f s) = map f (trim s).
Proof.
  intros Hf. unfold trim.
  rewrite drop_while_map, <- map_rev, drop_while_map, map_rev by exact Hf.
  reflexivity.
Qed.

Lemma drop_while_Forall (P : N -> Prop) (p : N -> bool) (s : jsstring) :
  Forall P s -> Forall P (drop_while p s).
Proof.
  induction 1 as [|c s Hc Hs IH]; [constructor|]. cbn.
  destruct (p c); [exact IH | now constructor].
Qed.

Lemma trim_Forall (P : N -> Prop) (s : jsstring) :
  Forall P s -> Forall P (trim s).
Proof.
  intros H. unfold trim.
  apply Forall_rev, drop_while_Forall, Forall_rev, drop_while_Forall, H.
Qed.

End Trim.

(** ** Boolean settings *)

Section BooleanSettings.

Import EnvBool.

Lemma is_space_upcase (c : N) : is_space (upcase c) = is_space c.
Proof.
  unfold upcase. destruct (is_lower c) eqn:E; [|reflexivity].
  unfold is_lower, in_range in E. apply andb_true_iff in E as [E1 E2].
  apply N.leb_le in E1, E2.
  unfold is_space, in_range.
  repeat match goal with
         | |- context [(?a <=? ?b)%N] =>
             let H := fresh in
             destruct (N.leb_spec a b) as [H|H]; try lia
         | |- context [(?a =? ?b)%N] =>
             let H := fresh in
             destruct (N.eqb_spec a b) as [H|H]; try lia
         end; reflexivity.
Qed.

Lemma lower_upcase (c : N) : lower (upcase c) = lower c.
Proof.
  unfold upcase. destruct (is_lower c) eqn:E; [|reflexivity].
  unfold is_lower, in_range in E. apply andb_true_iff in E as [E1 E2].
  apply N.leb_le in E1, E2. unfold lower, is_upper, in_range.
  replace ((65 <=? c - 32)%N && (c - 32 <=? 90)%N)%bool with true
    by (symmetry; apply andb_true_iff; split; apply N.leb_le; lia).
  replace ((65 <=? c)%N && (c <=? 90)%N)%bool with false
    by (symmetry; apply andb_false_iff; right; apply N.leb_gt; lia).
  lia.
Qed.

Lemma upcase_ascii (c : N) : (c < 128)%N -> (upcase c < 128)%N.
Proof.
  unfold upcase, is_lower, in_range. intros H.
  destruct ((97 <=? c)%N && (c <=? 122)%N)%bool; lia.
Qed.

(** X12. [getBooleanEnv] reads its value ignoring surrounding whitespace
    and the case of ASCII letters: a value made of ASCII code units and
    the same value in upper case, padded with whitespace on both sides,
    give the same answer.  A key that is defined with the empty string
    gives [true] whatever the default, and only an undefined value gives
    the default (which is [true] when the caller passes none). *)
Theorem getBooleanEnv_ignores_case_and_padding
  (toLowerCase : jsstring -> jsstring)
  (Hascii : forall s, Forall (fun c => (c < 128)%N) s ->
                      toLowerCase s = map lower s)
  (env process_env env' process_env' : gmap jsstring jsstring)
  (keys keys' : Env.Keys) (d d' : option bool)
  (raw pad1 pad2 : jsstring)
  (Hraw : Forall (fun c => (c < 128)%N) raw)
  (Hpad1 : forallb is_space pad1 = true)
  (Hpad2 : forallb is_space pad2 = true)
  (Hvalue : Env.getEnvValue env process_env keys = Some raw)
  (Hvalue' : Env.getEnvValue env' process_env' keys'
             = Some (pad1 ++ map upcase raw ++ pad2)) :
  getBooleanEnv toLowerCase env' process_env' keys' d'
  = getBooleanEnv toLowerCase env process_env keys d
  /\ (forall e pe ks dv,
        Env.getEnvValue e pe ks = Some [] ->
        getBooleanEnv toLowerCase e pe ks dv = true)
  /\ (forall e pe ks dv,
        Env.getEnvValue e pe ks = None ->
        getBooleanEnv toLowerCase e pe ks dv = default true dv).
Proof.
  split; [|split].
  - unfold getBooleanEnv. rewrite Hvalue, Hvalue'. f_equal. f_equal.
    rewrite trim_pad by assumption.
    rewrite trim_map by apply is_space_upcase.
    rewrite !Hascii.
    + rewrite map_map. apply map_ext. apply lower_upcase.
    + now apply trim_Forall.
    + apply Forall_map. apply trim_Forall in Hraw.
      eapply Forall_impl; [exact Hraw|]. intros c. apply upcase_ascii.
  - intros e pe ks dv H. unfold getBooleanEnv. rewrite H.
    change (trim []) with (@nil N). rewrite (Hascii [] ltac:(constructor)).
    reflexivity.
  - intros e pe ks dv H. unfold getBooleanEnv. now rewrite H.
Qed.

Lemma getBooleanEnv_ignores_case_and_padding_witness :
  getBooleanEnv (map lower) {[ js "FLAG" := js "  OFF " ]} ∅
    (Env.OneKey (js "FLAG")) None
  = getBooleanEnv (map lower) ∅ {[ js "flag" := js "off" ]}
      (Env.OneKey (js "flag")) (Some true).
Proof.
  refine (proj1 (getBooleanEnv_ignores_case_and_padding (map lower) _
                   ∅ {[ js "flag" := js "off" ]}
                   {[ js "FLAG" := js "  OFF " ]} ∅
                   (Env.OneKey (js "flag")) (Env.OneKey (js "FLAG"))
                   (Some true) None
                   (js "off") (js "  ") (js " ") _ _ _ _ _)).
  - intros s _. reflexivity.
  - repeat constructor.
  - reflexivity.
  - reflexivity.
  - vm_compute. reflexivity.
  - vm_compute. reflexivity.
Defined.

End BooleanSettings.

(** ** The login endpoint *)

Section Login.

Import CoaAuth AuthSpec.

Local Open Scope Z_scope.

Lemma jseqb_true (a b : jsstring) : jseqb a b = true <-> a = b.
Proof. unfold jseqb. apply bool_decide_eq_true. Qed.

Lemma jseqb_false (a b : jsstring) : jseqb a b = false <-> a <> b.
Proof. unfold jseqb. apply bool_decide_eq_false. Qed.

(** The endpoint, outcome by outcome. *)
Lemma POST_run pf env process_env (body : option ParsedBody) (w : World) :
  POST pf env process_env body w =
  match body with
  | None => Returned (failure "Invalid request" 400) w
  | Some parsed =>
      match expected env process_env "COA_USER",
            expected env process_env "COA_PASSWORD" with
      | Some (u0 :: u), Some (p0 :: p) =>
          match parsed with
          | JsonNull => Thrown TypeError w
          | JsonValue creds =>
              match submitted (user creds) with
              | None => Thrown TypeError w
              | Some us =>
                  if jseqb (trim us) (trim (u0 :: u))
                     && strict_equal (or_empty_text (password creds)) (p0 :: p)
                  then
                    let k := secret_bytes env process_env in
                    let expires_ := now w + 28800000 in
                    let nonce :=
                      Encoding.hex (map (fun i => (random_byte pf i mod 256)%N)
                                      (seq (drawn w + k) 8)) in
                    let payload := Wp.String_of_Z expires_ ++ js "." ++ nonce in
                    Returned
                      {| status := 200; ok := true; error := None;
                         token := Some (payload ++ js "." ++
                                        hmac_sha256_hex pf
                                          (signing_secret pf env process_env w)
                                          payload);
                         expires := Some expires_ |}
                      {| now := now w; drawn := (drawn w + k + 8)%nat |}
                  else Returned (failure "Identifiants incorrects" 401)
                         (sleep pf 600 w)
              end
          end
      | _, _ => Returned (failure "COA auth not configured" 503) w
      end
  end.
Proof.
  unfold POST, expected, json. destruct body as [parsed|]; [|reflexivity].
  destruct (Env.getEnvValue env process_env (Env.ManyKeys [js "COA_USER"]))
    as [[|u0 u]|]; try reflexivity.
  destruct (Env.getEnvValue env process_env (Env.ManyKeys [js "COA_PASSWORD"]))
    as [[|p0 p]|]; try reflexivity.
  destruct parsed as [|creds]; [reflexivity|].
  destruct (user creds) as [|us|]; cbn [or_empty_text submitted];
    [|  |reflexivity].
  all: destruct (jseqb (trim _) _); [|reflexivity].
  all: destruct (strict_equal _ _); [|reflexivity].
  all: cbn [negb orb andb]; unfold signing_secret, secret_bytes, expected.
  all: destruct (Env.getEnvValue env process_env (Env.ManyKeys [js "COA_SECRET"]))
         as [[|s0 s]|]; cbn [truthy randomBytes_hex now drawn];
         rewrite ?Nat.add_0_r; reflexivity.
Qed.

Lemma strict_equal_submitted (f : Field) (text : jsstring) :
  strict_equal (or_empty_text f) text = true <-> submitted f = Some text.
Proof.
  destruct f as [|s|]; cbn [or_empty_text strict_equal submitted].
  - rewrite jseqb_true. split; congruence.
  - rewrite jseqb_true. split; congruence.
  - split; discriminate.
Qed.

Lemma accepts_decide env process_env (creds : Credentials) u0 u p0 p us :
  expected env process_env "COA_USER" = Some (u0 :: u) ->
  expected env process_env "COA_PASSWORD" = Some (p0 :: p) ->
  submitted (user creds) = Some us ->
  (jseqb (trim us) (trim (u0 :: u))
   && strict_equal (or_empty_text (password creds)) (p0 :: p) = true
   <-> accepts env process_env creds).
Proof.
  intros Hu Hp Hs.
  rewrite andb_true_iff, jseqb_true, strict_equal_submitted.
  unfold accepts. split.
  - intros [H1 H2]. exists (u0 :: u), (p0 :: p), us.
    repeat split; try assumption; discriminate.
  - intros (eu & ep & us' & Heu & _ & Hep & _ & Hus & H1 & H2).
    rewrite Hu in Heu. rewrite Hp in Hep. rewrite Hs in Hus.
    injection Heu as <-. injection Hep as <-. injection Hus as <-.
    now split.
Qed.

Lemma accepts_configured env process_env (creds : Credentials) :
  accepts env process_env creds -> configured env process_env.
Proof.
  intros (eu & ep & us & Heu & Hu & Hep & Hp & _). unfold configured.
  rewrite Heu, Hep.
  destruct eu; [congruence|]. destruct ep; [congruence|]. now split.
Qed.

Lemma accepts_submitted env process_env (creds : Credentials) :
  accepts env process_env creds -> submitted (user creds) <> None.
Proof. intros (eu & ep & us & _ & _ & _ & _ & Hus & _). congruence. Qed.

Lemma answers_returned (reply : Reply) (w : World) (code : Z) :
  answers (Returned reply w) code <-> status reply = code.
Proof.
  unfold answers. split.
  - intros (r & w' & [= <- <-] & H). exact H.
  - intros H. now exists reply, w.
Qed.

Lemma answers_thrown (e : Exn) (w : World) (code : Z) :
  ~ answers (Thrown e w) code.
Proof. intros (r & w' & [=] & _). Qed.

(** X13. How the login endpoint ends is decided in this order.  It answers
    400 exactly when the body cannot be read; 503 exactly when the body can
    be read and [COA_USER] or [COA_PASSWORD] is missing or empty, whatever
    the body holds.  Once configured, it throws, a [TypeError], exactly
    when the body is [null] or its [user] is neither missing nor a string,
    and then leaves the state as it was; it answers 200 exactly when the
    trimmed user name equals the trimmed expected one and the password is
    the expected string as it is; it answers 401 in the remaining case.  A
    token is issued, and [ok] is true, exactly with status 200. *)
Theorem POST_status_table pf env process_env (body : option ParsedBody)
  (w : World) :
  let outcome := POST pf env process_env body w in
  (answers outcome 400 <-> body = None)
  /\ (answers outcome 503 <->
      body <> None /\ ~ configured env process_env)
  /\ ((exists e w', outcome = Thrown e w') <->
      configured env process_env
      /\ (body = Some JsonNull
          \/ exists creds, body = Some (JsonValue creds)
                           /\ submitted (user creds) = None))
  /\ (answers outcome 200 <->
      exists creds, body = Some (JsonValue creds)
                    /\ accepts env process_env creds)
  /\ (answers outcome 401 <->
      exists creds, body = Some (JsonValue creds)
                    /\ configured env process_env
                    /\ submitted (user creds) <> None
                    /\ ~ accepts env process_env creds)
  /\ (forall reply w', outcome = Returned reply w' ->
        (ok reply = true <-> status reply = 200)
        /\ (token reply <> None <-> status reply = 200))
  /\ (forall e w', outcome = Thrown e w' -> e = TypeError /\ w' = w).
Proof.
  cbv zeta. rewrite POST_run. destruct body as [parsed|].
  2:{ rewrite !answers_returned. cbn [status failure].
      split; [split; reflexivity|].
      split; [split; [discriminate | intros [H _]; congruence]|].
      split; [split; [intros (e & w' & [=])
                     | intros [_ [[=]|(c & [=] & _)]]]|].
      split; [split; [discriminate | intros (c & [=] & _)]|].
      split; [split; [discriminate | intros (c & [=] & _)]|].
      split; [|intros e w' [=]].
      intros reply w' [= <- <-]. cbn.
      split; split; try discriminate; congruence. }
  assert (Hnot : ~ configured env process_env ->
            let outcome := Returned (failure "COA auth not configured" 503) w in
            (answers outcome 400 <-> Some parsed = None)
            /\ (answers outcome 503 <->
                Some parsed <> None /\ ~ configured env process_env)
            /\ ((exists e w', outcome = Thrown e w') <->
                configured env process_env
                /\ (Some parsed = Some JsonNull
                    \/ exists creds, Some parsed = Some (JsonValue creds)
                                     /\ submitted (user creds) = None))
            /\ (answers outcome 200 <->
                exists creds, Some parsed = Some (JsonValue creds)
                              /\ accepts env process_env creds)
            /\ (answers outcome 401 <->
                exists creds, Some parsed = Some (JsonValue creds)
                              /\ configured env process_env
                              /\ submitted (user creds) <> None
                              /\ ~ accepts env process_env creds)
            /\ (forall reply w', outcome = Returned reply w' ->
                  (ok reply = true <-> status reply = 200)
                  /\ (token reply <> None <-> status reply = 200))
            /\ (forall e w', outcome = Thrown e w' -> e = TypeError /\ w' = w)).
  { intros Hn. cbv zeta. rewrite !answers_returned. cbn [status failure].
    split; [split; discriminate|].
    split; [split; [intros _; split; [discriminate|exact Hn] | reflexivity]|].
    split; [split; [intros (e & w' & [=]) | intros [Hc _]; contradiction]|].
    split; [split; [discriminate
                   | intros (c & _ & Ha); now apply accepts_configured in Ha]|].
    split; [split; [discriminate | intros (c & _ & Hc & _); contradiction]|].
    split; [|discriminate].
    intros reply w' [= <- <-]. cbn. split; split; try discriminate; congruence. }
  destruct (expected env process_env "COA_USER") as [[|u0 u]|] eqn:Hu;
    [apply Hnot; unfold configured; rewrite Hu; intros [H _]; discriminate| |
     apply Hnot; unfold configured; rewrite Hu; intros [H _]; discriminate].
  destruct (expected env process_env "COA_PASSWORD") as [[|p0 p]|] eqn:Hp;
    [apply Hnot; unfold configured; rewrite Hp; intros [_ H]; discriminate| |
     apply Hnot; unfold configured; rewrite Hp; intros [_ H]; discriminate].
  clear Hnot.
  assert (Hconf : configured env process_env)
    by (unfold configured; rewrite Hu, Hp; now split).
  assert (Hthrown : forall creds_or_null : ParsedBody,
            match creds_or_null with
            | JsonNull => True
            | JsonValue creds => submitted (user creds) = None
            end ->
            let outcome := Thrown TypeError w in
            parsed = creds_or_null ->
            (answers outcome 400 <-> Some parsed = None)
            /\ (answers outcome 503 <->
                Some parsed <> None /\ ~ configured env process_env)
            /\ ((exists e w', outcome = Thrown e w') <->
                configured env process_env
                /\ (Some parsed = Some JsonNull
                    \/ exists creds, Some parsed = Some (JsonValue creds)
                                     /\ submitted (user creds) = None))
            /\ (answers outcome 200 <->
                exists creds, Some parsed = Some (JsonValue creds)
                              /\ accepts env process_env creds)
            /\ (answers outcome 401 <->
                exists creds, Some parsed = Some (JsonValue creds)
                              /\ configured env process_env
                              /\ submitted (user creds) <> None
                              /\ ~ accepts env process_env creds)
            /\ (forall reply w', outcome = Returned reply w' ->
                  (ok reply = true <-> status reply = 200)
                  /\ (token reply <> None <-> status reply = 200))
            /\ (forall e w', outcome = Thrown e w' -> e = TypeError /\ w' = w)).
  { intros b Hb outcome ->. subst outcome.
    split; [split; [intros H; now apply answers_thrown in H | discriminate]|].
    split; [split; [intros H; now apply answers_thrown in H
                   | intros [_ H]; contradiction]|].
    split.
    { split; [|intros _; now exists TypeError, w].
      intros _. split; [exact Hconf|].
      destruct b as [|creds]; [now left | right; now exists creds]. }
    split.
    { split; [intros H; now apply answers_thrown in H|].
      intros (c & [= ->] & Ha). apply accepts_submitted in Ha. contradiction. }
    split.
    { split; [intros H; now apply answers_thrown in H|].
      intros (c & [= ->] & _ & Hs & _). contradiction. }
    split; [discriminate|]. intros e w' [= <- <-]. now split. }
  destruct parsed as [|creds]; [now apply (Hthrown JsonNull)|].
  destruct (submitted (user creds)) as [us|] eqn:Hus;
    [|now apply (Hthrown (JsonValue creds))].
  clear Hthrown.
  pose proof (accepts_decide env process_env creds u0 u p0 p us Hu Hp Hus)
    as Hdec.
  destruct (jseqb (trim us) _ && strict_equal _ _) eqn:E; cbv zeta;
    rewrite !answers_returned; cbn [status failure].
  - assert (Ha : accepts env process_env creds) by now apply Hdec.
    split; [split; discriminate|].
    split; [split; [discriminate | intros [_ H]; contradiction]|].
    split; [split; [intros (e & w' & [=])
                   | intros [_ [[=]|(c & [= <-] & Hn)]]; congruence]|].
    split; [split; [intros _; now exists creds | reflexivity]|].
    split; [split; [discriminate
                   | intros (c & [= <-] & _ & _ & Hn); contradiction]|].
    split; [|discriminate].
    intros reply w' [= <- <-]. cbn. split; split; try discriminate; congruence.
  - assert (Ha : ~ accepts env process_env creds).
    { intros H. apply Hdec in H. discriminate. }
    split; [split; discriminate|].
    split; [split; [discriminate | intros [_ H]; contradiction]|].
    split; [split; [intros (e & w' & [=])
                   | intros [_ [[=]|(c & [= <-] & Hn)]]; congruence]|].
    split; [split; [discriminate | intros (c & [= <-] & H); contradiction]|].
    split.
    { split; [|reflexivity]. intros _. exists creds.
      split; [reflexivity|]. split; [exact Hconf|]. split; [congruence|exact Ha]. }
    split; [|discriminate].
    intros reply w' [= <- <-]. cbn. split; split; try discriminate; congruence.
Qed.

(** X14. Only a rejected login is delayed, and only a successful login
    draws random bytes: the clock moves, by 600 ms plus the lag of the
    timer, exactly when the status is 401; random bytes are drawn exactly
    when the status is 200, eight for the nonce and sixteen more for the
    signing secret when [COA_SECRET] is missing or empty.  A call that
    throws neither waits nor draws. *)
Theorem POST_delay_and_randomness pf env process_env
  (body : option ParsedBody) (w : World) :
  match POST pf env process_env body w with
  | Returned reply w' =>
      now w' = (if status reply =? 401
                then now w + 600 + Z.of_N (timer_lag pf (now w)) else now w)
      /\ drawn w' = (if status reply =? 200
                     then (drawn w + secret_bytes env process_env + 8)%nat
                     else drawn w)
  | Thrown _ w' => now w' = now w /\ drawn w' = drawn w
  end.
Proof.
  rewrite POST_run. destruct body as [parsed|]; [|now split].
  destruct (expected env process_env "COA_USER") as [[|u0 u]|];
    try (now split).
  destruct (expected env process_env "COA_PASSWORD") as [[|p0 p]|];
    try (now split).
  destruct parsed as [|creds]; [now split|].
  destruct (submitted (user creds)) as [us|]; [|now split].
  destruct (jseqb (trim _) _ && strict_equal _ _); now split.
Qed.

(** X15. The user name is matched regardless of surrounding whitespace:
    padding the submitted user name with whitespace on either side changes
    neither the reply nor the world. *)
Theorem POST_ignores_user_padding pf env process_env
  (user_ pad1 pad2 : jsstring) (password_ : Field) (w : World)
  (Hpad1 : forallb is_space pad1 = true)
  (Hpad2 : forallb is_space pad2 = true) :
  POST pf env process_env
    (Some (JsonValue {| user := Text (pad1 ++ user_ ++ pad2);
                        password := password_ |})) w
  = POST pf env process_env
      (Some (JsonValue {| user := Text user_; password := password_ |})) w.
Proof.
  rewrite !POST_run. cbn [user password submitted].
  now rewrite trim_pad by assumption.
Qed.

Lemma POST_ignores_user_padding_witness :
  let env : gmap jsstring jsstring :=
    {[ js "COA_USER" := js "admin"; js "COA_PASSWORD" := js "s3cret" ]} in
  let pf := {| random_byte := fun i => N.of_nat i;
               hmac_sha256_hex := fun k d => js "00";
               timer_lag := fun _ => 0%N |} in
  POST pf env ∅
    (Some (JsonValue {| user := Text (js " admin  ");
                        password := Text (js "s3cret") |}))
    {| now := 1000; drawn := 0 |}
  = POST pf env ∅
      (Some (JsonValue {| user := Text (js "admin");
                          password := Text (js "s3cret") |}))
      {| now := 1000; drawn := 0 |}.
Proof.
  intros env pf.
  exact (POST_ignores_user_padding pf env ∅ (js "admin") (js " ") (js "  ")
           (Text (js "s3cret")) {| now := 1000; drawn := 0 |}
           eq_refl eq_refl).
Defined.

(** A body whose [user] is [null], and the body [null], make the
    configured endpoint throw; a body without [user] is answered 401. *)
Example POST_untyped_bodies :
  let env : gmap jsstring jsstring :=
    {[ js "COA_USER" := js "admin"; js "COA_PASSWORD" := js "s3cret" ]} in
  let pf := {| random_byte := fun i => N.of_nat i;
               hmac_sha256_hex := fun k d => js "00";
               timer_lag := fun _ => 0%N |} in
  let w := {| now := 1000; drawn := 0 |} in
  POST pf env ∅
    (Some (JsonValue {| user := NotText; password := Text (js "s3cret") |})) w
  = Thrown TypeError w
  /\ POST pf env ∅ (Some JsonNull) w = Thrown TypeError w
  /\ POST pf ∅ ∅ (Some JsonNull) w
     = Returned (failure "COA auth not configured" 503) w
  /\ POST pf env ∅
       (Some (JsonValue {| user := Missing; password := NotText |})) w
     = Returned (failure "Identifiants incorrects" 401)
         {| now := 1600; drawn := 0 |}.
Proof. repeat split; vm_compute; reflexivity. Qed.

End Login.

(** ** Decimal digits *)

Section Digits.

Local Open Scope Z_scope.

Lemma digits_value_acc (d : Decimal.uint) (acc : positive) :
  fold_left decimal_step (uint_digits d) (Z.pos acc)
  = Z.pos (Pos.of_uint_acc d acc).
Proof.
  revert acc. induction d; intros acc; cbn [uint_digits fold_left Pos.of_uint_acc];
    [reflexivity|..];
    unfold decimal_step at 2; cbn [digit_value];
    match goal with
    | |- fold_left _ _ ?z = _ =>
        let p := fresh "p" in
        evar (p : positive);
        replace z with (Z.pos p); subst p; [apply IHd|]
    end; vm_compute digit_value; lia.
Qed.

Lemma digits_value_uint (d : Decimal.uint) :
  digits_value 10 (uint_digits d) = Z.of_N (Pos.of_uint d).
Proof.
  unfold digits_value. change (fun acc c => acc * 10 + digit_value c)
    with decimal_step.
  induction d; cbn [uint_digits fold_left Pos.of_uint]; [reflexivity|..];
    unfold decimal_step at 2;
    first [ exact IHd
          | match goal with
            | |- fold_left _ _ ?z = Z.of_N (N.pos (Pos.of_uint_acc _ ?a)) =>
                change z with (Z.pos a); apply digits_value_acc
            end ].
Qed.

(** Reading back the decimal text of a non-negative integer. *)
Lemma digits_value_decimal_digits (n : Z) :
  0 <= n -> digits_value 10 (decimal_digits n) = n.
Proof.
  intros Hn. unfold decimal_digits. rewrite digits_value_uint.
  change (Pos.of_uint (N.to_uint (Z.to_N n)))
    with (N.of_uint (N.to_uint (Z.to_N n))).
  rewrite Stdlib.Numbers.DecimalN.Unsigned.of_to. lia.
Qed.

Lemma uint_digits_are_digits (d : Decimal.uint) :
  forallb is_digit (uint_digits d) = true.
Proof. induction d; cbn; auto. Qed.

Lemma decimal_digits_are_digits (n : Z) :
  forallb is_digit (decimal_digits n) = true.
Proof. apply uint_digits_are_digits. Qed.

Lemma take_while_app_stop (p : N -> bool) (s rest : jsstring) (c : N) :
  forallb p s = true -> p c = false -> take_while p (s ++ c :: rest) = s.
Proof.
  intros Hs Hc. induction s as [|x s IH]; cbn.
  - now rewrite Hc.
  - cbn in Hs. apply andb_true_iff in Hs as [Hx Hs]. rewrite Hx.
    now rewrite IH.
Qed.

End Digits.

Section LoginToken.

Import CoaAuth AuthSpec.

Local Open Scope Z_scope.

Lemma hex_digit_is_hex (i : N) :
  (i < 16)%N -> is_hex_digit (Encoding.hex_digit i) = true.
Proof.
  intros Hi. destruct i as [|p]; [reflexivity|].
  do 4 (destruct p as [p|p|]; try reflexivity; try lia).
Qed.

Lemma hex_length (bytes : list N) :
  length (Encoding.hex bytes) = (2 * length bytes)%nat.
Proof.
  unfold Encoding.hex. induction bytes as [|b bytes IH]; [reflexivity|].
  cbn [map concat app length]. rewrite IH. lia.
Qed.

Lemma hex_is_hex (bytes : list N) :
  forallb is_hex_digit (Encoding.hex bytes) = true.
Proof.
  unfold Encoding.hex. induction bytes as [|b bytes IH]; [reflexivity|].
  cbn [map concat app forallb]. rewrite IH.
  rewrite !hex_digit_is_hex; [reflexivity|..]; apply N.mod_lt; discriminate.
Qed.

(** X16. The token of a successful login is
    [<expires>.<nonce>.<signature>]: [expires] is the time of the request
    plus eight hours, written in decimal; the nonce is sixteen hexadecimal
    digits made of eight random bytes that follow the bytes of the signing
    secret; the signature is the HMAC of [<expires>.<nonce>] under the
    signing secret, which is [COA_SECRET] when that is set and 32 freshly
    drawn hexadecimal digits otherwise.  The expiry can be read back from
    the token: the decimal value of its leading digits is the [expires]
    field of the reply. *)
Theorem POST_token_shape pf env process_env (creds : Credentials) (w : World)
  (Haccepted : accepts env process_env creds) :
  let secret := signing_secret pf env process_env w in
  let nonce :=
    Encoding.hex (map (fun i => (random_byte pf i mod 256)%N)
                    (seq (drawn w + secret_bytes env process_env) 8)) in
  let expiry := Wp.String_of_Z (now w + 28800000) in
  exists reply w',
    POST pf env process_env (Some (JsonValue creds)) w = Returned reply w'
    /\ expires reply = Some (now w + 28800000)
    /\ token reply =
       Some (expiry ++ js "." ++ nonce ++ js "." ++
             hmac_sha256_hex pf secret (expiry ++ js "." ++ nonce))
    /\ length nonce = 16%nat
    /\ forallb is_hex_digit nonce = true
    /\ (forall s, expected env process_env "COA_SECRET" = Some s -> s <> [] ->
                  secret = s)
    /\ (truthy (expected env process_env "COA_SECRET") = false ->
        length secret = 32%nat /\ forallb is_hex_digit secret = true)
    /\ (0 <= now w + 28800000 ->
        digits_value 10 (take_while is_digit (default [] (token reply)))
        = now w + 28800000).
Proof.
  cbv zeta. rewrite POST_run.
  pose proof Haccepted as (eu & ep & us & Heu & Hu & Hep & Hp & Hus & _).
  destruct eu as [|u0 u]; [congruence|]. destruct ep as [|p0 p]; [congruence|].
  rewrite Heu, Hep, Hus.
  rewrite (proj2 (accepts_decide env process_env creds u0 u p0 p us
                    Heu Hep Hus) Haccepted).
  eexists. eexists. split; [reflexivity|].
  cbn [expires token]. split; [reflexivity|]. split.
  { cbv zeta. now rewrite <- !app_assoc. }
  split; [rewrite hex_length, length_map, length_seq; reflexivity|].
  split; [apply hex_is_hex|]. split; [|split].
  - intros s Hs Hne. unfold signing_secret. rewrite Hs.
    destruct s; [congruence | reflexivity].
  - intros Hnone. unfold signing_secret.
    destruct (expected env process_env "COA_SECRET") as [[|s0 s]|];
      try discriminate;
      (split; [rewrite hex_length, length_map, length_seq; reflexivity
              | apply hex_is_hex]).
  - intros Hpos. cbv zeta. unfold default, Datatypes.id. cbn [from_option].
    unfold Wp.String_of_Z.
    destruct (now w + 28800000 <? 0) eqn:E; [apply Z.ltb_lt in E; lia|].
    rewrite <- !app_assoc. change (js "." ++ ?x) with (ch "." :: x).
    rewrite take_while_app_stop;
      [now apply digits_value_decimal_digits
      | apply decimal_digits_are_digits | reflexivity].
Qed.

Lemma POST_token_shape_witness :
  let env : gmap jsstring jsstring :=
    {[ js "COA_USER" := js "admin"; js "COA_PASSWORD" := js "s3cret";
       js "COA_SECRET" := js "k" ]} in
  let pf := {| random_byte := fun i => N.of_nat (16 * i + 3);
               hmac_sha256_hex := fun k d => js "5f";
               timer_lag := fun _ => 0%N |} in
  exists reply w',
    POST pf env ∅
      (Some (JsonValue {| user := Text (js "admin");
                          password := Text (js "s3cret") |}))
      {| now := 1000; drawn := 0 |} = Returned reply w'
    /\ token reply = Some (js "28801000.0313233343536373.5f").
Proof.
  intros env pf.
  assert (Ha : accepts env ∅ {| user := Text (js "admin");
                                password := Text (js "s3cret") |}).
  { exists (js "admin"), (js "s3cret"), (js "admin").
    repeat split; try discriminate; vm_compute; reflexivity. }
  destruct (POST_token_shape pf env ∅ _ {| now := 1000; drawn := 0 |} Ha)
    as (reply & w' & Hrun & _ & Htoken & _).
  exists reply, w'. split; [exact Hrun|]. exact Htoken.
Defined.

End LoginToken.

(** ** Image addresses *)

Section ImageAddresses.

Import Wp.

Lemma starts_with_replace_str_tail (q s : jsstring) :
  Forall (fun c => c <> 104%N) q ->
  starts_with q (replace_str (js "http://") (js "https://") s) = true ->
  starts_with q s = true.
Proof.
  intros Hq. revert s. induction Hq as [|c q Hc Hq IH]; intros s;
    [reflexivity|].
  destruct s as [|d s].
  - cbn. discriminate.
  - cbn [replace_str]. destruct (starts_with (js "http://") (d :: s)).
    + change (js "https://") with (104%N :: js "ttps://").
      cbn [app starts_with].
      destruct (N.eqb_spec c 104); [contradiction | cbn; discriminate].
    + cbn [starts_with]. intros H. apply andb_true_iff in H as [H1 H2].
      rewrite H1. now apply IH.
Qed.

(** After the upgrade to https no address begins with [http://]. *)
Lemma replace_str_no_http (s : jsstring) :
  starts_with (js "http://")
    (replace_str (js "http://") (js "https://") s) = false.
Proof.
  destruct s as [|c s]; [reflexivity|]. cbn [replace_str].
  destruct (starts_with (js "http://") (c :: s)) eqn:E; [reflexivity|].
  destruct (starts_with (js "http://")
              (c :: replace_str (js "http://") (js "https://") s)) eqn:E';
    [|reflexivity].
  exfalso. change (js "http://") with (104%N :: js "ttp://") in E, E'.
  cbn [starts_with] in E, E'. apply andb_true_iff in E' as [H1 H2].
  apply starts_with_replace_str_tail in H2.
  - rewrite H1, H2 in E. discriminate.
  - repeat constructor; discriminate.
Qed.

Lemma normalizeImage_no_http (src : option jsstring) (u : jsstring) :
  normalizeImage src = Some u -> starts_with (js "http://") u = false.
Proof.
  destruct src as [[|c s]|]; cbn [normalizeImage]; intros H;
    try discriminate H.
  replace u with (replace_str (js "http://") (js "https://") (c :: s))
    by congruence.
  apply replace_str_no_http.
Qed.

(** X17. No card carries an image address that begins with [http://]:
    whether the image comes from the product images or from the
    description, its first [http://] has been rewritten to [https://]. *)
Theorem mapped_image_never_plain_http :
  (forall src u, normalizeImage src = Some u ->
                 starts_with (js "http://") u = false)
  /\ (forall html u, extractFirstImageSrc html = Some u ->
                     starts_with (js "http://") u = false)
  /\ (forall item card u,
        mapProduct item = Some card -> image card = Some u ->
        starts_with (js "http://") u = false).
Proof.
  assert (Hex : forall html u, extractFirstImageSrc html = Some u ->
                               starts_with (js "http://") u = false).
  { intros html u. unfold extractFirstImageSrc.
    destruct html as [[|c h]|]; try discriminate.
    destruct (exec re_img (c :: h)); [apply normalizeImage_no_http|].
    discriminate. }
  split; [exact normalizeImage_no_http|]. split; [exact Hex|].
  intros item card u Hm. rewrite (mapProduct_image _ _ Hm).
  rewrite or_else_normalizeImage.
  destruct (normalizeImage (first_image_src item)) as [v|] eqn:E.
  - intros [= <-]. now apply normalizeImage_no_http in E.
  - apply Hex.
Qed.

End ImageAddresses.

(** ** Medium text *)

Section MediumText.

Import Wp TextSpec.

(** A global replacement that rewrites every match code unit by code unit
    keeps the text aligned with its input. *)
Lemma replace_all_from_aligned (R : N -> N -> Prop) r repl :
  (forall c, R c c) ->
  (forall bef aft e,
      match_here r bef aft = Some e ->
      (0 < length aft - length (after e))%nat
      /\ Forall2 R (take (length aft - length (after e)) aft)
                   (repl (take (length aft - length (after e)) aft))) ->
  forall aft skip bef,
    (skip <= length aft)%nat ->
    Forall2 R (drop skip aft) (replace_all_from r repl skip bef aft).
Proof.
  intros Hrefl Hmatch. induction aft as [|c aft IH]; intros skip bef Hskip.
  - cbn in Hskip. assert (skip = 0%nat) as -> by lia. cbn.
    destruct (match_here r bef []) as [e|] eqn:E; [|constructor].
    apply Hmatch in E as [E _]. cbn in E. lia.
  - destruct skip as [|skip].
    + cbn [drop replace_all_from].
      destruct (match_here r bef (c :: aft)) as [e|] eqn:E.
      * apply Hmatch in E as [Hn Hrel].
        remember (length (c :: aft) - length (after e))%nat as n eqn:Hdef.
        assert (Hle : (n <= S (length aft))%nat) by (subst n; cbn; lia).
        clear Hdef.
        destruct (Nat.eqb_spec n 0) as [H0|_]; [lia|]. cbn [app].
        rewrite <- (take_drop n (c :: aft)) at 1.
        apply Forall2_app; [exact Hrel|].
        replace (drop n (c :: aft)) with (drop (n - 1) aft)
          by (destruct n; [lia|]; cbn; now rewrite Nat.sub_0_r).
        apply IH. lia.
      * constructor; [apply Hrefl|]. apply (IH 0%nat). lia.
    + cbn [drop replace_all_from]. apply IH. cbn in Hskip. lia.
Qed.

Lemma re_olio_match (bef aft : jsstring) (e : mstate) :
  match_here re_olio bef aft = Some e ->
  exists c1 c2 c3 c4,
    aft = c1 :: c2 :: c3 :: c4 :: after e
    /\ is_char_ci "o" c1 = true /\ is_char_ci "l" c2 = true
    /\ is_char_ci "i" c3 = true /\ is_char_ci "o" c4 = true.
Proof.
  unfold match_here, re_olio.
  cbn [RSeqs foldr RLit_ci rmatch after before caps].
  destruct (at_word_boundary _); [|discriminate].
  destruct aft as [|c1 [|c2 [|c3 [|c4 aft]]]]; try discriminate;
    cbn [after before caps];
    repeat match goal with
           | |- context [is_char_ci ?a ?c] =>
               let H := fresh "Hc" in
               destruct (is_char_ci a c) eqn:H; try discriminate
           end.
  destruct (at_word_boundary _); [|discriminate].
  intros [= <-]. cbn [after]. exists c1, c2, c3, c4. auto.
Qed.

Lemma olio_replacement_length (m : jsstring) :
  length (olio_replacement m) = 4%nat.
Proof.
  unfold olio_replacement. destruct (jseqb m _); [reflexivity|].
  destruct (jseqb (take 1 m) _); reflexivity.
Qed.

(** X18. [normalizeMediumText] rewrites in place: the result has as many
    code units as the input, and at every position the code unit is the
    input's unless the input has a letter of [olio] (o, l or i, in either
    case) there. *)
Theorem normalizeMediumText_in_place (value : jsstring) :
  length (normalizeMediumText value) = length value
  /\ Forall2 kept_or_olio value (normalizeMediumText value).
Proof.
  assert (H : Forall2 kept_or_olio value (normalizeMediumText value)).
  { unfold normalizeMediumText, replace_all.
    apply (replace_all_from_aligned kept_or_olio re_olio olio_replacement
             ltac:(now left)) with (aft := value) (skip := 0%nat) (bef := []);
      [|lia].
    intros bef aft e E.
    apply re_olio_match in E as (c1 & c2 & c3 & c4 & -> & H1 & H2 & H3 & H4).
    cbn [length]. replace (S (S (S (S (length (after e))))) - length (after e))%nat
      with 4%nat by lia.
    split; [lia|].
    change (take 4 (c1 :: c2 :: c3 :: c4 :: after e)) with [c1; c2; c3; c4].
    pose proof (olio_replacement_length [c1; c2; c3; c4]) as Hlen.
    destruct (olio_replacement [c1; c2; c3; c4])
      as [|d1 [|d2 [|d3 [|d4 [|d5 rest]]]]]; try discriminate.
    unfold kept_or_olio, olio_letter.
    do 4 (constructor;
          [right; rewrite ?H1, ?H2, ?H3, ?H4, ?orb_true_r; reflexivity|]).
    constructor. }
  split; [|exact H]. symmetry. eapply Forall2_length, H.
Qed.

End MediumText.

(** ** The matcher *)

Section Matcher.

Lemma rmatch_star_fuel (r : regex) (st : mstate) k :
  rmatch (RStar r) st k = star_fuel r k (length (after st)) st.
Proof. reflexivity. Qed.

(** The matcher depends on its continuation only through its values. *)
Lemma rmatch_ext (r : regex) :
  forall st k1 k2, (forall s, k1 s = k2 s) -> rmatch r st k1 = rmatch r st k2.
Proof.
  induction r as [|p|r1 IH1 r2 IH2|r1 IH1 r2 IH2|r IH|i r IH| | |r IH];
    intros st k1 k2 Hk; cbn [rmatch].
  - apply Hk.
  - destruct (after st) as [|c rest]; [reflexivity|].
    destruct (p c); [apply Hk | reflexivity].
  - apply IH1. intros s. now apply IH2.
  - rewrite (IH1 st k1 k2 Hk), (IH2 st k1 k2 Hk). reflexivity.
  - generalize (length (after st)). intros fuel. revert st.
    induction fuel as [|fuel IHf]; intros st; [apply Hk|].
    rewrite (IH st _ (fun st1 =>
               if (length (after st1) <? length (after st))%nat
               then (fix loop (fuel0 : nat) (st0 : mstate) {struct fuel0} :=
                       match fuel0 with
                       | O => k2 st0
                       | S fuel' =>
                           match rmatch r st0 (fun st2 =>
                                   if (length (after st2) <? length (after st0))%nat
                                   then loop fuel' st2 else None) with
                           | Some e => Some e
                           | None => k2 st0
                           end
                       end) fuel st1
               else None)).
    + now rewrite Hk.
    + intros s. destruct (length (after s) <? length (after st))%nat;
        [apply IHf | reflexivity].
  - apply IH. intros s. apply Hk.
  - destruct (at_word_boundary st); [apply Hk | reflexivity].
  - destruct (after st); [apply Hk | reflexivity].
  - destruct (rmatch r st Some); [apply Hk | reflexivity].
Qed.

Lemma rmatch_fail (r : regex) :
  forall st, rmatch r st (fun _ => None) = None.
Proof.
  induction r as [|p|r1 IH1 r2 IH2|r1 IH1 r2 IH2|r IH|i r IH| | |r IH];
    intros st; cbn [rmatch]; try reflexivity.
  - destruct (after st) as [|c rest]; [reflexivity|]. now destruct (p c).
  - rewrite (rmatch_ext r1 st _ (fun _ => None)); [apply IH1|].
    intros s. apply IH2.
  - now rewrite IH1, IH2.
  - generalize (length (after st)). intros fuel. revert st.
    induction fuel as [|fuel IHf]; intros st; [reflexivity|].
    rewrite (rmatch_ext r st _ (fun _ => None)); [now rewrite IH|].
    intros s. destruct (length (after s) <? length (after st))%nat;
      [apply IHf | reflexivity].
  - apply IH.
  - now destruct (at_word_boundary st).
  - now destruct (after st).
  - now destruct (rmatch r st Some).
Qed.

Lemma star_fuel_enough (r : regex) k :
  forall f1 f2 st,
    (length (after st) <= f1)%nat -> (length (after st) <= f2)%nat ->
    star_fuel r k f1 st = star_fuel r k f2 st.
Proof.
  assert (Hzero : forall f st, length (after st) = 0%nat ->
                               star_fuel r k f st = k st).
  { intros [|f] st H0; [reflexivity|]. cbn [star_fuel].
    rewrite (rmatch_ext r st _ (fun _ => None)); [now rewrite rmatch_fail|].
    intros s. rewrite H0. reflexivity. }
  induction f1 as [|f1 IH]; intros f2 st H1 H2.
  - rewrite Hzero by lia. now rewrite Hzero by lia.
  - destruct f2 as [|f2].
    + rewrite Hzero by lia. now rewrite Hzero by lia.
    + cbn [star_fuel].
      rewrite (rmatch_ext r st _ (fun st1 =>
                 if (length (after st1) <? length (after st))%nat
                 then star_fuel r k f2 st1 else None)); [reflexivity|].
      intros s. destruct (Nat.ltb_spec (length (after s)) (length (after st)));
        [|reflexivity].
      apply IH; lia.
Qed.

(** One iteration of [*]: take [r] once, consuming something, and go on;
    failing that, stop. *)
Lemma rmatch_star_unfold (r : regex) (st : mstate) k :
  rmatch (RStar r) st k =
  match rmatch r st (fun st1 =>
          if (length (after st1) <? length (after st))%nat
          then rmatch (RStar r) st1 k else None) with
  | Some e => Some e
  | None => k st
  end.
Proof.
  rewrite rmatch_star_fuel.
  remember (length (after st)) as n eqn:Hlen. destruct n as [|n].
  - cbn [star_fuel].
    rewrite (rmatch_ext r st _ (fun _ => None)); [now rewrite rmatch_fail|].
    intros s. reflexivity.
  - cbn [star_fuel].
    rewrite (rmatch_ext r st _ (fun st1 =>
               if (length (after st1) <? S n)%nat
               then rmatch (RStar r) st1 k else None)); [reflexivity|].
    intros s. rewrite <- Hlen.
    destruct (Nat.ltb_spec (length (after s)) (S n)); [|reflexivity].
    rewrite rmatch_star_fuel. apply star_fuel_enough; lia.
Qed.

Lemma rmatch_RChar (p : N -> bool) (st : mstate) k :
  rmatch (RChar p) st k =
  match after st with
  | c :: rest =>
      if p c then k (MState (c :: before st) rest (caps st)) else None
  | [] => None
  end.
Proof. reflexivity. Qed.

Lemma rmatch_RSeq (r1 r2 : regex) (st : mstate) k :
  rmatch (RSeq r1 r2) st k = rmatch r1 st (fun st1 => rmatch r2 st1 k).
Proof. reflexivity. Qed.

(** [p*] followed by nothing takes the longest run of [p]. *)
Lemma rmatch_star_char (p : N -> bool) (aft bef : jsstring) caps_ :
  rmatch (RStar (RChar p)) (MState bef aft caps_) Some =
  Some (MState (rev (take_while p aft) ++ bef) (drop_while p aft) caps_).
Proof.
  revert bef. induction aft as [|c aft IH]; intros bef;
    rewrite rmatch_star_unfold, rmatch_RChar; cbn [after before caps];
    [reflexivity|].
  cbn [take_while drop_while]. destruct (p c); [|reflexivity].
  replace (length aft <? length (c :: aft))%nat with true
    by (symmetry; apply Nat.ltb_lt; cbn; lia).
  rewrite IH. cbn [rev]. now rewrite <- app_assoc.
Qed.

Lemma take_drop_while (p : N -> bool) (s : jsstring) :
  s = take_while p s ++ drop_while p s.
Proof.
  induction s as [|c s IH]; [reflexivity|]. cbn.
  destruct (p c); [cbn; now f_equal | reflexivity].
Qed.

Lemma drop_while_head (p : N -> bool) (s rest : jsstring) (c : N) :
  drop_while p s = c :: rest -> p c = false.
Proof.
  induction s as [|d s IH]; [discriminate|]. cbn.
  destruct (p d) eqn:E; [exact IH|]. intros [= <- _]. exact E.
Qed.

End Matcher.

(** ** Whitespace *)

Section Whitespace.

Import Wp TextSpec.

Lemma match_spaces (bef aft : jsstring) :
  match_here re_spaces bef aft =
  match aft with
  | c :: rest =>
      if is_space c
      then Some (MState (rev (take_while is_space rest) ++ c :: bef)
                   (drop_while is_space rest) [])
      else None
  | [] => None
  end.
Proof.
  unfold match_here, re_spaces, RPlus. rewrite rmatch_RSeq, rmatch_RChar.
  cbn [after before caps]. destruct aft as [|c rest]; [reflexivity|].
  destruct (is_space c); [apply rmatch_star_char | reflexivity].
Qed.

(** Passing over the rest of a match is resuming the scan after it. *)
Lemma replace_all_from_skip r repl :
  forall aft skip bef,
    (skip <= length aft)%nat ->
    replace_all_from r repl skip bef aft =
    replace_all_from r repl 0 (rev (take skip aft) ++ bef) (drop skip aft).
Proof.
  induction aft as [|c aft IH]; intros skip bef Hskip.
  - cbn in Hskip. assert (skip = 0%nat) as -> by lia. reflexivity.
  - destruct skip as [|skip]; [reflexivity|].
    cbn [replace_all_from take drop rev]. rewrite IH by (cbn in Hskip; lia).
    now rewrite <- app_assoc.
Qed.

Lemma drop_while_length (p : N -> bool) (s : jsstring) :
  (length (drop_while p s) <= length s)%nat.
Proof.
  induction s as [|c s IH]; [reflexivity|]. cbn.
  destruct (p c); cbn; lia.
Qed.

Lemma drop_take_while (p : N -> bool) (s : jsstring) :
  drop (length s - length (drop_while p s)) s = drop_while p s.
Proof.
  pose proof (take_drop_while p s) as H.
  pose proof (f_equal length H) as HL. rewrite length_app in HL.
  pose proof (drop_app_length (take_while p s) (drop_while p s)) as D.
  rewrite <- H in D.
  replace (length s - length (drop_while p s))%nat
    with (length (take_while p s)) by lia.
  exact D.
Qed.

(** Collapsing whitespace leaves single U+0020 separators. *)
Lemma collapse_single_spaced :
  forall n aft bef,
    (length aft <= n)%nat ->
    single_spaced (replace_all_from re_spaces (fun _ => js " ") 0 bef aft)
    = true
    /\ head_space (replace_all_from re_spaces (fun _ => js " ") 0 bef aft)
       = head_space aft.
Proof.
  induction n as [|n IH]; intros aft bef Hlen.
  - destruct aft; [|cbn in Hlen; lia]. cbn [replace_all_from].
    rewrite match_spaces. now split.
  - destruct aft as [|c aft].
    { cbn [replace_all_from]. rewrite match_spaces. now split. }
    cbn [replace_all_from]. rewrite match_spaces.
    destruct (is_space c) eqn:Ec.
    + cbn [after].
      pose proof (drop_while_length is_space aft) as Hdw.
      replace (length (c :: aft) - length (drop_while is_space aft))%nat
        with (S (length aft - length (drop_while is_space aft)))
        by (cbn [length]; lia).
      cbn [Nat.eqb app]. rewrite Nat.sub_succ, Nat.sub_0_r.
      rewrite replace_all_from_skip by lia. rewrite drop_take_while.
      destruct (IH (drop_while is_space aft)
                  (rev (take (length aft - length (drop_while is_space aft)) aft)
                   ++ c :: bef))
        as [Hq Hh]; [cbn in Hlen; lia|].
      assert (Hns : head_space (drop_while is_space aft) = false).
      { destruct (drop_while is_space aft) as [|d rest] eqn:E; [reflexivity|].
        cbn. eapply drop_while_head, E. }
      rewrite Hns in Hh. change (js " ") with [32%N] in *. cbn [app].
      split; [|cbn; now rewrite Ec].
      cbn [single_spaced]. rewrite Hq.
      destruct (replace_all_from re_spaces _ 0 _ (drop_while is_space aft))
        as [|d out]; [reflexivity|].
      cbn in Hh. rewrite Hh. reflexivity.
    + destruct (IH aft (c :: bef)) as [Hq _]; [cbn in Hlen; lia|].
      split; [|cbn; reflexivity].
      cbn [single_spaced]. now rewrite Ec, Hq.
Qed.

Lemma single_spaced_tail (c : N) (s : jsstring) :
  single_spaced (c :: s) = true -> single_spaced s = true.
Proof. cbn [single_spaced]. intros H. now apply andb_true_iff in H. Qed.

Lemma single_spaced_spaces (s : jsstring) :
  single_spaced s = true ->
  Forall (fun c => is_space c = true -> c = 32%N) s.
Proof.
  induction s as [|c s IH]; [constructor|]. intros H.
  constructor; [|apply IH; eapply single_spaced_tail, H].
  intros Hc. cbn [single_spaced] in H. rewrite Hc in H.
  apply andb_true_iff in H as [H _]. apply andb_true_iff in H as [H _].
  now apply N.eqb_eq in H.
Qed.

Lemma single_spaced_no_adjacent (s : jsstring) :
  single_spaced s = true -> no_adjacent_spaces s.
Proof.
  intros H a. revert s H. induction a as [|a0 a IH]; intros s H x y b ->.
  - cbn [app single_spaced] in H. intros Hx Hy. rewrite Hx, Hy in H.
    cbn in H. rewrite andb_false_r in H. discriminate.
  - cbn [app] in H. apply single_spaced_tail in H.
    now apply (IH _ H x y b).
Qed.

Lemma trim_segment (s : jsstring) :
  exists pad1 pad2, s = pad1 ++ trim s ++ pad2.
Proof.
  unfold trim.
  exists (take_while is_space s),
         (rev (take_while is_space (rev (drop_while is_space s)))).
  rewrite <- rev_app_distr, <- take_drop_while, rev_involutive.
  apply take_drop_while.
Qed.

Lemma trim_trimmed (s : jsstring) : trimmed (trim s).
Proof.
  unfold trim. set (t := drop_while is_space s).
  set (u := drop_while is_space (rev t)). split.
  - intros c rest Hrev.
    assert (Ht : t = rev u ++ rev (take_while is_space (rev t))).
    { rewrite <- rev_app_distr. unfold u. rewrite <- take_drop_while.
      now rewrite rev_involutive. }
    rewrite Hrev in Ht. cbn in Ht. unfold t in Ht.
    eapply drop_while_head, Ht.
  - intros init c Hrev.
    assert (Hu : u = c :: rev init).
    { rewrite <- (rev_involutive u), Hrev, rev_app_distr. reflexivity. }
    eapply drop_while_head, Hu.
Qed.

(** Collapsing whitespace and trimming gives a whitespace-normal text. *)
Lemma collapse_trim_normal (t : jsstring) :
  trimmed (trim (replace_all re_spaces (fun _ => js " ") t))
  /\ Forall (fun c => is_space c = true -> c = 32%N)
       (trim (replace_all re_spaces (fun _ => js " ") t))
  /\ no_adjacent_spaces (trim (replace_all re_spaces (fun _ => js " ") t)).
Proof.
  destruct (collapse_single_spaced (length t) t [] (le_n _)) as [Hq _].
  fold (replace_all re_spaces (fun _ => js " ") t) in Hq.
  set (out := replace_all re_spaces (fun _ => js " ") t) in *.
  destruct (trim_segment out) as (pad1 & pad2 & Hseg).
  split; [apply trim_trimmed|]. split.
  - apply single_spaced_spaces in Hq. rewrite Hseg in Hq.
    apply Forall_app in Hq as [_ Hq]. now apply Forall_app in Hq as [Hq _].
  - apply single_spaced_no_adjacent in Hq. intros a x y b Heq.
    apply (Hq (pad1 ++ a) x y (b ++ pad2)).
    rewrite Hseg at 1. rewrite Heq. now rewrite <- !app_assoc.
Qed.

(** X19. The text [stripTags] returns is whitespace-normalised: it
    neither starts nor ends with whitespace, its only whitespace code unit
    is U+0020 (tabs, line breaks and non-breaking spaces are gone), and no
    two spaces are adjacent. *)
Theorem stripTags_whitespace_normal (value : option jsstring) :
  trimmed (stripTags value)
  /\ Forall (fun c => is_space c = true -> c = 32%N) (stripTags value)
  /\ no_adjacent_spaces (stripTags value).
Proof.
  unfold stripTags.
  destruct (or_else value (Some [])) as [s|];
    apply collapse_trim_normal.
Qed.

End Whitespace.

(** ** Whole-number prices *)

Section WholePrices.

Import Wp.

Lemma is_digit_bounds (c : N) : is_digit c = true -> 48 <= c <= 57.
Proof.
  unfold is_digit, in_range. intros H.
  apply andb_true_iff in H as [H1 H2].
  apply N.leb_le in H1. apply N.leb_le in H2. lia.
Qed.

Lemma is_digit_cases (c : N) :
  is_digit c = true ->
  c = 48 \/ c = 49 \/ c = 50 \/ c = 51 \/ c = 52
  \/ c = 53 \/ c = 54 \/ c = 55 \/ c = 56 \/ c = 57.
Proof. intros H. apply is_digit_bounds in H. lia. Qed.

Lemma is_digit_not_space (c : N) : is_digit c = true -> is_space c = false.
Proof.
  intros H. apply is_digit_cases in H.
  repeat (destruct H as [-> | H]; [reflexivity|]). now subst.
Qed.

Lemma forallb_rev_digits (s : jsstring) :
  forallb is_digit s = true -> forallb is_digit (rev s) = true.
Proof.
  intros H. apply forallb_forall. intros x Hx. apply in_rev in Hx.
  eapply forallb_forall in H; eauto.
Qed.

Lemma drop_while_space_digits (s : jsstring) :
  forallb is_digit s = true -> drop_while is_space s = s.
Proof.
  destruct s as [|c s]; [reflexivity|]. cbn [forallb drop_while]. intros H.
  apply andb_true_iff in H as [H _]. now rewrite (is_digit_not_space _ H).
Qed.

Lemma trim_digits (s : jsstring) :
  forallb is_digit s = true -> trim s = s.
Proof.
  intros H. unfold trim. rewrite (drop_while_space_digits s H).
  rewrite drop_while_space_digits by now apply forallb_rev_digits.
  apply rev_involutive.
Qed.

Lemma take_while_all (p : N -> bool) (s : jsstring) :
  forallb p s = true -> take_while p s = s.
Proof.
  induction s as [|c s IH]; [reflexivity|]. cbn. intros H.
  apply andb_true_iff in H as [Hc Hs]. now rewrite Hc, IH.
Qed.

Lemma parse_unsigned_decimal_digits (neg : bool) (ds : jsstring) :
  ds <> [] -> forallb is_digit ds = true ->
  parse_unsigned_decimal neg ds = round_decimal neg (digits_value 10 ds) 0.
Proof.
  intros Hne Hd. unfold parse_unsigned_decimal.
  rewrite (take_while_all _ _ Hd), drop_all, app_nil_r.
  destruct ds as [|c ds]; [congruence|]. reflexivity.
Qed.

(** A text of digits only is read as a decimal literal, whatever its
    first digits are. *)
Lemma Number_digits (ds : jsstring) :
  ds <> [] -> forallb is_digit ds = true ->
  Number_ ds = round_decimal false (digits_value 10 ds) 0.
Proof.
  intros Hne Hd.
  rewrite <- (parse_unsigned_decimal_digits false ds Hne Hd).
  unfold Number_. rewrite (trim_digits ds Hd).
  generalize parse_unsigned_decimal as P. intros P.
  destruct ds as [|c ds]; [congruence|].
  cbn [forallb] in Hd. apply andb_true_iff in Hd as [Hc Hd].
  apply is_digit_cases in Hc.
  destruct ds as [|c2 ds].
  { repeat (destruct Hc as [-> | Hc]; [vm_compute; reflexivity|]).
    subst. vm_compute. reflexivity. }
  cbn [forallb] in Hd. apply andb_true_iff in Hd as [Hc2 _].
  apply is_digit_cases in Hc2.
  destruct Hc as [-> | Hc].
  { repeat (destruct Hc2 as [-> | Hc2]; [vm_compute; reflexivity|]).
    subst. vm_compute. reflexivity. }
  repeat (destruct Hc as [-> | Hc]; [vm_compute; reflexivity|]).
  subst. vm_compute. reflexivity.
Qed.

Lemma digits2_pos_lower (p : positive) :
  (2 ^ (Z.pos (digits2_pos p) - 1) <= Z.pos p)%Z.
Proof.
  induction p as [p IH|p IH|]; cbn [digits2_pos]; [| |cbn; lia];
    rewrite Pos2Z.inj_succ;
    replace (Z.succ (Z.pos (digits2_pos p)) - 1)%Z
      with (Z.succ (Z.pos (digits2_pos p) - 1)) by lia;
    rewrite Z.pow_succ_r by lia; lia.
Qed.

Lemma digits2_pos_shift (p k : positive) :
  Z.pos (digits2_pos (Pos.iter xO p k))
  = (Z.pos (digits2_pos p) + Z.pos k)%Z.
Proof.
  induction k as [|k IH] using Pos.peano_ind.
  - cbn. lia.
  - rewrite Pos.iter_succ. cbn [digits2_pos]. lia.
Qed.

Lemma shift_value (p k : positive) :
  Z.pos (Pos.iter xO p k) = (Z.pos p * 2 ^ Z.pos k)%Z.
Proof.
  induction k as [|k IH] using Pos.peano_ind.
  - cbn. lia.
  - rewrite Pos.iter_succ, Pos2Z.inj_xO, IH, Pos2Z.inj_succ.
    rewrite Z.pow_succ_r by lia. lia.
Qed.

(** A significand of 53 bits within the exponent range is kept as it is. *)
Lemma binary_round_aux_exact (sx : bool) (m : positive) (e : Z) :
  Z.pos (digits2_pos m) = 53%Z -> (-1074 <= e <= 971)%Z ->
  binary_round_aux prec emax sx (Z.pos m) e loc_Exact = S754_finite sx m e.
Proof.
  intros Hd He.
  assert (F : (fexp prec emax (Z.pos (digits2_pos m) + e) - e = 0)%Z).
  { unfold fexp, emin, prec, emax. rewrite Hd. lia. }
  unfold binary_round_aux, shr_fexp, Zdigits2. rewrite F.
  cbn [shr shr_record_of_loc shr_m shr_r shr_s loc_of_shr_record
       round_nearest_even].
  rewrite F. cbn [shr shr_record_of_loc shr_m].
  replace (e <=? emax - prec)%Z with true; [reflexivity|].
  symmetry. apply Z.leb_le. unfold emax, prec. lia.
Qed.

(** An integer below [2 ^ 53] is a binary64 value, and its amount in
    hundredths is exact. *)
Lemma binary_round_whole (p : positive) :
  (Z.pos p < 2 ^ 53)%Z ->
  exists m e,
    binary_round prec emax false p 0 = S754_finite false m e
    /\ hundredths m e = (Z.pos p * 100)%Z.
Proof.
  intros Hp.
  pose proof (digits2_pos_lower p) as Hlow.
  assert (Hd : (Z.pos (digits2_pos p) <= 53)%Z).
  { destruct (Z.le_gt_cases (Z.pos (digits2_pos p)) 53) as [H|H]; [exact H|].
    exfalso.
    assert (2 ^ 53 <= 2 ^ (Z.pos (digits2_pos p) - 1))%Z
      by (apply Z.pow_le_mono_r; lia).
    lia. }
  unfold binary_round, shl_align.
  assert (F : (fexp prec emax (Z.pos (digits2_pos p) + 0) - 0
               = Z.pos (digits2_pos p) - 53)%Z).
  { unfold fexp, emin, prec, emax. lia. }
  rewrite F.
  replace (fexp prec emax (Z.pos (digits2_pos p) + 0))
    with (Z.pos (digits2_pos p) - 53)%Z by lia.
  destruct (Z.pos (digits2_pos p) - 53)%Z as [|k|k] eqn:E; [|lia|].
  - exists p, 0%Z. split.
    + apply binary_round_aux_exact; lia.
    + unfold hundredths. cbn [Z.leb Z.compare]. lia.
  - exists (Pos.iter xO p k), (Z.neg k). split.
    + apply binary_round_aux_exact; [rewrite digits2_pos_shift|]; lia.
    + unfold hundredths. cbn [Z.leb Z.compare].
      change (- Z.neg k)%Z with (Z.pos k).
      rewrite shift_value.
      assert (H2 : (0 < 2 ^ Z.pos k)%Z) by (apply Z.pow_pos_nonneg; lia).
      replace (2 * (Z.pos p * 2 ^ Z.pos k * 100) + 2 ^ Z.pos k)%Z
        with (((Z.pos p * 100) * 2 + 1) * 2 ^ Z.pos k)%Z by lia.
      rewrite (Z.mul_comm 2 (2 ^ Z.pos k)).
      rewrite (Z.mul_comm _ (2 ^ Z.pos k)).
      rewrite Z.div_mul_cancel_l by lia.
      rewrite Z.div_add_l by lia. reflexivity.
Qed.

(** The shown text of an integer below [2 ^ 53]: its grouped digits, no
    fraction. *)
Lemma toLocaleString_whole (v : Z) :
  (0 <= v < 2 ^ 53)%Z ->
  isNaN (round_decimal false v 0) = false
  /\ toLocaleString (round_decimal false v 0) = group3 (decimal_digits v).
Proof.
  intros Hv. destruct v as [|p|p]; [now split| |lia].
  unfold round_decimal. change (0 <=? 0)%Z with true. cbv iota.
  rewrite Z.pow_0_r, Z.mul_1_r.
  change (binary_normalize prec emax (Z.pos p) 0 false)
    with (binary_round prec emax false p 0).
  destruct (binary_round_whole p) as (m & e & -> & Hh); [lia|].
  split; [reflexivity|].
  unfold toLocaleString. rewrite Hh.
  rewrite Z.div_mul, Z.mod_mul by lia.
  unfold sign_text, fraction_text. cbn [Z.eqb app]. apply app_nil_r.
Qed.

(** X20. A price made of digits only, of value below [2 ^ 53], is shown
    exactly: a dollar sign, the digits of its value grouped by three with
    commas (leading zeros dropped, no fraction, no rounding) and [ USD];
    the regular price plays no part. *)
Theorem formatPrice_whole_number (ds : jsstring) (regular : option jsstring) :
  ds <> [] ->
  forallb is_digit ds = true ->
  (digits_value 10 ds < 2 ^ 53)%Z ->
  formatPrice (Some ds) regular
  = Some (js "$" ++ group3 (decimal_digits (digits_value 10 ds)) ++ js " USD").
Proof.
  intros Hne Hd Hv.
  assert (H0 : (0 <= digits_value 10 ds)%Z).
  { unfold digits_value.
    assert (G : forall s acc, forallb is_digit s = true -> (0 <= acc)%Z ->
                (0 <= fold_left (fun a c => a * 10 + digit_value c) s acc)%Z).
    { induction s as [|c s IH]; intros acc Hs Hacc; [exact Hacc|].
      cbn [forallb] in Hs. apply andb_true_iff in Hs as [Hc Hs].
      cbn [fold_left]. apply IH; [exact Hs|].
      unfold digit_value. rewrite Hc. lia. }
    apply G; [exact Hd | lia]. }
  destruct (toLocaleString_whole (digits_value 10 ds)) as [Hn Ht]; [lia|].
  rewrite <- (Number_digits ds Hne Hd) in Hn, Ht.
  unfold formatPrice. destruct ds as [|c ds]; [congruence|].
  rewrite Hn. cbn [negb]. now rewrite Ht.
Qed.

Lemma formatPrice_whole_number_witness :
  formatPrice (Some (js "0012500")) (Some (js "9"))
  = Some (js "$12,500 USD").
Proof.
  rewrite (formatPrice_whole_number (js "0012500") (Some (js "9")));
    [reflexivity | discriminate | reflexivity | vm_compute; reflexivity].
Defined.

End WholePrices.

(** ** The matcher finds only what the pattern allows *)

Section MatcherSoundness.

Lemma star_fuel_sound (r : regex) (k : mstate -> option mstate)
  (IH : forall st k' e, rmatch r st k' = Some e ->
                        exists st', steps r st st' /\ k' st' = Some e) :
  forall fuel st e,
    star_fuel r k fuel st = Some e ->
    exists st', steps (RStar r) st st' /\ k st' = Some e.
Proof.
  induction fuel as [|fuel IHf]; intros st e H; cbn [star_fuel] in H.
  - exists st. split; [constructor | exact H].
  - destruct (rmatch r st _) as [e'|] eqn:E.
    + injection H as ->. apply IH in E as (st1 & H1 & Hk).
      destruct (length (after st1) <? length (after st))%nat; [|discriminate].
      apply IHf in Hk as (st2 & H2 & Hk).
      exists st2. split; [econstructor; eassumption | exact Hk].
    + exists st. split; [constructor | exact H].
Qed.

(** Whatever the matcher hands to its continuation is reached by the
    pattern. *)
Lemma rmatch_sound (r : regex) :
  forall st k e,
    rmatch r st k = Some e ->
    exists st', steps r st st' /\ k st' = Some e.
Proof.
  induction r as [|p|r1 IH1 r2 IH2|r1 IH1 r2 IH2|r IH|i r IH| | |r IH];
    intros st k e H.
  - exists st. split; [constructor | exact H].
  - cbn [rmatch] in H. destruct st as [bef [|c rest] cs]; cbn in H;
      [discriminate|].
    destruct (p c) eqn:Ep; [|discriminate].
    eexists. split; [constructor; exact Ep | exact H].
  - cbn [rmatch] in H. apply IH1 in H as (st1 & H1 & H).
    apply IH2 in H as (st2 & H2 & H).
    exists st2. split; [econstructor; eassumption | exact H].
  - cbn [rmatch] in H. destruct (rmatch r1 st k) as [e'|] eqn:E.
    + injection H as ->. apply IH1 in E as (st' & H1 & Hk).
      exists st'. split; [now apply steps_alt_l | exact Hk].
    + apply IH2 in H as (st' & H2 & Hk).
      exists st'. split; [now apply steps_alt_r | exact Hk].
  - rewrite rmatch_star_fuel in H. eapply star_fuel_sound; eassumption.
  - cbn [rmatch] in H. apply IH in H as (st1 & H1 & Hk).
    eexists. split; [apply steps_group; exact H1 | exact Hk].
  - cbn [rmatch] in H. destruct (at_word_boundary st) eqn:E; [|discriminate].
    exists st. split; [now constructor | exact H].
  - cbn [rmatch] in H. destruct (after st) as [|c rest] eqn:E; [|discriminate].
    exists st. split; [now constructor | exact H].
  - cbn [rmatch] in H. destruct (rmatch r st Some) as [e'|] eqn:E;
      [|discriminate].
    apply IH in E as (st' & H1 & [= ->]).
    eexists. split; [apply steps_look; exact H1 | exact H].
Qed.

Lemma match_here_sound (r : regex) (bef aft : jsstring) (e : mstate) :
  match_here r bef aft = Some e -> steps r (MState bef aft []) e.
Proof.
  intros H. apply rmatch_sound in H as (st' & H & [= ->]). exact H.
Qed.

(** A match of [exec] starts somewhere in the text. *)
Lemma exec_from_sound (r : regex) :
  forall aft bef m,
    exec_from r bef aft = Some m ->
    exists pre bef' aft' e,
      aft = pre ++ aft'
      /\ steps r (MState bef' aft' []) e
      /\ m_groups m = caps e.
Proof.
  induction aft as [|c aft IH]; intros bef m H; cbn [exec_from] in H.
  - destruct (match_here r bef []) as [e|] eqn:E; [|discriminate].
    injection H as <-. exists [], bef, [], e.
    split; [reflexivity|]. split; [now apply match_here_sound | reflexivity].
  - destruct (match_here r bef (c :: aft)) as [e|] eqn:E.
    + injection H as <-. exists [], bef, (c :: aft), e.
      split; [reflexivity|]. split; [now apply match_here_sound | reflexivity].
    + apply IH in H as (pre & bef' & aft' & e & -> & Hs & Hg).
      exists (c :: pre), bef', aft', e. now split.
Qed.

(** A pattern only moves forward over the text. *)
Lemma steps_frame r st st' :
  steps r st st' -> exists t, after st = t ++ after st'.
Proof.
  induction 1 as [st|p c bef rest cs Hp|r1 r2 st st1 st2 _ [t1 E1] _ [t2 E2]
                 |r1 r2 st st' _ IH|r1 r2 st st' _ IH
                 |r st|r st st1 st2 _ [t1 E1] _ [t2 E2]
                 |i r st st1 _ IH|st Hb|st He|r st e _ _].
  - now exists [].
  - now exists [c].
  - exists (t1 ++ t2). now rewrite E1, E2, app_assoc.
  - exact IH.
  - exact IH.
  - now exists [].
  - exists (t1 ++ t2). now rewrite E1, E2, app_assoc.
  - exact IH.
  - now exists [].
  - now exists [].
  - now exists [].
Qed.

Lemma consumed_app (st st' : mstate) (t : jsstring) :
  after st = t ++ after st' -> consumed st st' = t.
Proof.
  intros E. unfold consumed. rewrite E, length_app.
  replace (length t + length (after st') - length (after st'))%nat
    with (length t) by lia.
  now rewrite take_app_length.
Qed.

Lemma steps_empty_inv st st' : steps REmpty st st' -> st' = st.
Proof. now inversion 1. Qed.

Lemma steps_seq_inv r1 r2 st st' :
  steps (RSeq r1 r2) st st' ->
  exists st1, steps r1 st st1 /\ steps r2 st1 st'.
Proof. inversion 1; subst. eauto. Qed.

Lemma steps_char_inv p st st' :
  steps (RChar p) st st' ->
  exists c, p c = true /\ after st = c :: after st' /\ caps st' = caps st.
Proof. inversion 1; subst. exists c. now cbn. Qed.

Lemma steps_group_inv i r st st' :
  steps (RGroup i r) st st' ->
  exists st1, steps r st st1 /\ after st' = after st1
              /\ caps st' = (i, consumed st st1) :: caps st1.
Proof. inversion 1; subst. eexists. split; [eassumption|]. now cbn. Qed.

Lemma steps_star_char p st st' :
  steps (RStar (RChar p)) st st' ->
  exists t, forallb p t = true /\ after st = t ++ after st'
            /\ caps st' = caps st.
Proof.
  remember (RStar (RChar p)) as r eqn:Er. intros H.
  induction H as [| | | | |r0 st|r0 st st1 st2 H1 _ H2 IH| | | |];
    try discriminate; injection Er as ->.
  - now exists [].
  - destruct (IH eq_refl) as (t & Ht & Ea & Ec).
    apply steps_char_inv in H1 as (c & Hc & Ea1 & Ec1).
    exists (c :: t). cbn [forallb app]. rewrite Hc, Ht, Ea1, Ea, Ec, Ec1.
    now split.
Qed.

Lemma steps_plus_char p st st' :
  steps (RPlus (RChar p)) st st' ->
  exists t, t <> [] /\ forallb p t = true /\ after st = t ++ after st'
            /\ caps st' = caps st.
Proof.
  intros H. apply steps_seq_inv in H as (st1 & H1 & H2).
  apply steps_char_inv in H1 as (c & Hc & Ea1 & Ec1).
  apply steps_star_char in H2 as (t & Ht & Ea & Ec).
  exists (c :: t). cbn [forallb app]. rewrite Hc, Ht, Ea1, Ea, Ec, Ec1.
  now split.
Qed.

Lemma steps_rep23_char p st st' :
  steps (RRep23 (RChar p)) st st' ->
  exists t, (length t = 2%nat \/ length t = 3%nat) /\ forallb p t = true
            /\ after st = t ++ after st' /\ caps st' = caps st.
Proof.
  intros H. apply steps_seq_inv in H as (st1 & H1 & H).
  apply steps_seq_inv in H as (st2 & H2 & H3).
  apply steps_char_inv in H1 as (c1 & Hc1 & Ea1 & Ec1).
  apply steps_char_inv in H2 as (c2 & Hc2 & Ea2 & Ec2).
  inversion H3 as [| | |r1 r2 s s' H4|r1 r2 s s' H4| | | | | |]; subst.
  - apply steps_char_inv in H4 as (c3 & Hc3 & Ea3 & Ec3).
    exists [c1; c2; c3]. cbn [forallb app length].
    rewrite Hc1, Hc2, Hc3, Ea1, Ea2, Ea3, Ec3, Ec2, Ec1. auto.
  - apply steps_empty_inv in H4 as ->.
    exists [c1; c2]. cbn [forallb app length].
    rewrite Hc1, Hc2, Ea1, Ea2, Ec2, Ec1. auto.
Qed.

End MatcherSoundness.

(** ** Dimensions and embedded images *)

Section Shapes.

Import Wp ShapeSpec.

Lemma re_dims_steps (st e : mstate) :
  steps re_dims st e ->
  exists a mid b,
    two_or_three_digits a /\ two_or_three_digits b /\ times_sign mid
    /\ after st = a ++ mid ++ b ++ after e
    /\ group 1 (caps e) = Some a /\ group 2 (caps e) = Some b.
Proof.
  unfold re_dims. cbn [RSeqs foldr]. intros H.
  apply steps_seq_inv in H as (s1 & H1 & H).
  apply steps_seq_inv in H as (s2 & H2 & H).
  apply steps_seq_inv in H as (s3 & H3 & H).
  apply steps_seq_inv in H as (s4 & H4 & H).
  apply steps_seq_inv in H as (s5 & H5 & H).
  apply steps_empty_inv in H as ->.
  apply steps_group_inv in H1 as (g1 & H1 & Ea1 & Ec1).
  apply steps_rep23_char in H1 as (a & La & Da & Ea & _).
  apply steps_star_char in H2 as (t1 & Ht1 & Ea2 & Ec2).
  apply steps_char_inv in H3 as (x & Hx & Ea3 & Ec3).
  apply steps_star_char in H4 as (t2 & Ht2 & Ea4 & Ec4).
  apply steps_group_inv in H5 as (g2 & H5 & Ea5 & Ec5).
  apply steps_rep23_char in H5 as (b & Lb & Db & Eb & Ec6).
  rewrite (consumed_app _ _ _ Ea) in Ec1.
  rewrite (consumed_app _ _ _ Eb) in Ec5.
  exists a, (t1 ++ x :: t2), b. split; [now split|]. split; [now split|].
  split; [now exists t1, x, t2|]. split.
  - rewrite Ea, <- Ea1, Ea2, Ea3, Ea4, Eb, <- Ea5.
    now rewrite <- !app_assoc.
  - rewrite Ec5, Ec6, Ec4, Ec3, Ec2, Ec1. now cbn.
Qed.

(** X21. Whenever [deriveDimensions] answers, the answer is [A x B in]:
    either [A] and [B] are the declared width and height, both not empty,
    or each is a run of two or three decimal digits of the name, the two
    runs being separated in the name by [x] or [X] with optional
    whitespace around it. *)
Theorem deriveDimensions_shape (name : jsstring)
  (dims : option Raw.Dimensions) (r : jsstring) :
  deriveDimensions name dims = Some r ->
  exists a b,
    r = a ++ js " x " ++ b ++ js " in"
    /\ (declared dims a b
        \/ (two_or_three_digits a /\ two_or_three_digits b
            /\ exists pre mid post,
                 name = pre ++ a ++ mid ++ b ++ post /\ times_sign mid)).
Proof.
  intros H.
  assert (Hname :
    forall r, match exec re_dims name with
              | Some m => Some (group_text 1 m ++ js " x "
                                ++ group_text 2 m ++ js " in")
              | None => None
              end = Some r ->
    exists a b,
      r = a ++ js " x " ++ b ++ js " in"
      /\ (declared dims a b
          \/ (two_or_three_digits a /\ two_or_three_digits b
              /\ exists pre mid post,
                   name = pre ++ a ++ mid ++ b ++ post /\ times_sign mid))).
  { clear. intros r H. destruct (exec re_dims name) as [m|] eqn:E;
      [|discriminate].
    injection H as <-. unfold exec in E.
    apply exec_from_sound in E as (pre & bef & aft & e & -> & Hs & Hg).
    apply re_dims_steps in Hs as (a & mid & b & Ha & Hb & Hm & Ea & G1 & G2).
    cbn [after] in Ea. unfold group_text. rewrite Hg, G1, G2.
    exists a, b. split; [reflexivity|]. right.
    split; [exact Ha|]. split; [exact Hb|].
    exists pre, mid, (after e). now rewrite Ea. }
  unfold deriveDimensions in H.
  destruct dims as [[w h l]|]; [|now apply Hname].
  destruct w as [[|w0 w]|]; try now apply Hname.
  destruct h as [[|h0 h]|]; try now apply Hname.
  injection H as <-. exists (w0 :: w), (h0 :: h). split; [reflexivity|].
  left. eexists. repeat split; discriminate.
Qed.

Lemma deriveDimensions_shape_witness :
  exists a b,
    js "60 x 80 in" = a ++ js " x " ++ b ++ js " in"
    /\ (declared None a b
        \/ (two_or_three_digits a /\ two_or_three_digits b
            /\ exists pre mid post,
                 js "Dawn 60x80" = pre ++ a ++ mid ++ b ++ post
                 /\ times_sign mid)).
Proof.
  apply (deriveDimensions_shape (js "Dawn 60x80") None (js "60 x 80 in")).
  vm_compute. reflexivity.
Defined.

Lemma replace_str_Forall (P : N -> Prop) (pat repl : jsstring) :
  Forall P repl ->
  forall s, Forall P s -> Forall P (replace_str pat repl s).
Proof.
  intros Hr. induction s as [|c s IH]; intros Hs.
  - cbn [replace_str]. destruct (starts_with pat []); [|constructor].
    apply Forall_app. split; [exact Hr | now apply Forall_drop].
  - cbn [replace_str]. destruct (starts_with pat (c :: s)).
    + apply Forall_app. split; [exact Hr | now apply Forall_drop].
    + inversion Hs; subst. constructor; [assumption | now apply IH].
Qed.

Lemma re_img_steps (st e : mstate) :
  steps re_img st e ->
  exists lead q1 src q2,
    after st = lead ++ q1 :: src ++ q2 :: after e
    /\ is_quote q1 = true /\ is_quote q2 = true
    /\ src <> [] /\ forallb address_unit src = true
    /\ group 1 (caps e) = Some src.
Proof.
  unfold re_img. cbn [RSeqs foldr]. intros H.
  apply steps_seq_inv in H as (s1 & H1 & H).
  apply steps_seq_inv in H as (s2 & H2 & H).
  apply steps_seq_inv in H as (s3 & H3 & H).
  apply steps_seq_inv in H as (s4 & H4 & H).
  apply steps_seq_inv in H as (s5 & H5 & H).
  apply steps_seq_inv in H as (s6 & H6 & H).
  apply steps_seq_inv in H as (s7 & H7 & H).
  apply steps_seq_inv in H as (s8 & H8 & H).
  apply steps_seq_inv in H as (s9 & H9 & H).
  apply steps_empty_inv in H as ->.
  apply steps_frame in H1 as (t1 & E1). apply steps_frame in H2 as (t2 & E2).
  apply steps_frame in H3 as (t3 & E3). apply steps_frame in H4 as (t4 & E4).
  apply steps_frame in H5 as (t5 & E5). apply steps_frame in H6 as (t6 & E6).
  apply steps_char_inv in H7 as (q1 & Hq1 & E7 & _).
  apply steps_group_inv in H8 as (g & H8 & E8 & C8).
  apply steps_plus_char in H8 as (src & Hne & Hsrc & Eg & _).
  apply steps_char_inv in H9 as (q2 & Hq2 & E9 & C9).
  rewrite (consumed_app _ _ _ Eg) in C8.
  exists (t1 ++ t2 ++ t3 ++ t4 ++ t5 ++ t6), q1, src, q2.
  split; [|repeat split; try assumption].
  - rewrite E1, E2, E3, E4, E5, E6, E7, Eg, <- E8, E9.
    now rewrite <- !app_assoc.
  - rewrite C9, C8. now cbn.
Qed.

(** X22. An address that [extractFirstImageSrc] finds in a description is
    the text between two quotation marks of the description, with its
    first [http://] turned into [https://]; that text is not empty and
    holds no quotation mark and no [>], and neither does the address. *)
Theorem extractFirstImageSrc_quoted (html : option jsstring) (u : jsstring) :
  extractFirstImageSrc html = Some u ->
  exists h pre q1 src q2 post,
    html = Some h
    /\ h = pre ++ q1 :: src ++ q2 :: post
    /\ is_quote q1 = true /\ is_quote q2 = true
    /\ src <> [] /\ forallb address_unit src = true
    /\ u = replace_str (js "http://") (js "https://") src
    /\ forallb address_unit u = true.
Proof.
  intros H. unfold extractFirstImageSrc in H.
  destruct html as [[|c h]|]; try discriminate.
  destruct (exec re_img (c :: h)) as [m|] eqn:E; [|discriminate].
  unfold exec in E.
  apply exec_from_sound in E as (pre & bef & aft & e & Eh & Hs & Hg).
  apply re_img_steps in Hs
    as (lead & q1 & src & q2 & Ea & Hq1 & Hq2 & Hne & Hsrc & G1).
  cbn [after] in Ea. rewrite Hg, G1 in H.
  destruct src as [|s0 src]; [congruence|].
  cbn [normalizeImage] in H. injection H as <-.
  exists (c :: h), (pre ++ lead), q1, (s0 :: src), q2, (after e).
  split; [reflexivity|]. split; [now rewrite Eh, Ea, <- app_assoc|].
  repeat split; try assumption.
  apply forallb_forall. intros x Hx.
  assert (F : Forall (fun c => address_unit c = true)
                (replace_str (js "http://") (js "https://") (s0 :: src))).
  { apply replace_str_Forall.
    - repeat constructor.
    - apply Forall_forall. intros y Hy.
      eapply forallb_forall in Hsrc; [exact Hsrc|].
      now apply list_elem_of_In. }
  rewrite Forall_forall in F. apply F. now apply list_elem_of_In.
Qed.

Lemma extractFirstImageSrc_quoted_witness :
  exists h pre q1 src q2 post,
    Some (js "<p><img src='http://a/b.jpg'></p>") = Some h
    /\ h = pre ++ q1 :: src ++ q2 :: post
    /\ is_quote q1 = true /\ is_quote q2 = true
    /\ src <> [] /\ forallb address_unit src = true
    /\ js "https://a/b.jpg"
       = replace_str (js "http://") (js "https://") src
    /\ forallb address_unit (js "https://a/b.jpg") = true.
Proof.
  apply (extractFirstImageSrc_quoted
           (Some (js "<p><img src='http://a/b.jpg'></p>"))
           (js "https://a/b.jpg")).
  vm_compute. reflexivity.
Defined.

End Shapes.

(** ** Titles and descriptions of cards *)

Section CardTexts.

Import Wp TextSpec ShapeSpec.

Lemma match_plus_char (p : N -> bool) (bef aft : jsstring) :
  match_here (RPlus (RChar p)) bef aft =
  match aft with
  | c :: rest =>
      if p c
      then Some (MState (rev (take_while p rest) ++ c :: bef)
                   (drop_while p rest) [])
      else None
  | [] => None
  end.
Proof.
  unfold match_here, RPlus. rewrite rmatch_RSeq, rmatch_RChar.
  cbn [after before caps]. destruct aft as [|c rest]; [reflexivity|].
  destruct (p c); [apply rmatch_star_char | reflexivity].
Qed.

Lemma match_spaces2 (bef aft : jsstring) :
  match_here re_spaces2 bef aft =
  match aft with
  | c1 :: c2 :: rest =>
      if is_space c1
      then if is_space c2
           then Some (MState (rev (take_while is_space rest) ++ c2 :: c1 :: bef)
                        (drop_while is_space rest) [])
           else None
      else None
  | [c1] => if is_space c1 then None else None
  | [] => None
  end.
Proof.
  unfold match_here, re_spaces2. rewrite rmatch_RSeq, rmatch_RChar.
  cbn [after before caps]. destruct aft as [|c1 aft]; [reflexivity|].
  destruct (is_space c1).
  - rewrite rmatch_RSeq, rmatch_RChar. cbn [after before caps].
    destruct aft as [|c2 rest]; [reflexivity|].
    destruct (is_space c2); [apply rmatch_star_char | reflexivity].
  - destruct aft; reflexivity.
Qed.

(** A global replacement keeps what holds of the text and of every
    replacement. *)
Lemma replace_all_from_Forall (P : N -> Prop) r repl :
  (forall m, Forall P (repl m)) ->
  forall aft skip bef,
    Forall P aft -> Forall P (replace_all_from r repl skip bef aft).
Proof.
  intros Hrepl. induction aft as [|c aft IH]; intros skip bef Haft.
  - destruct skip; cbn [replace_all_from]; [|constructor].
    destruct (match_here r bef []); [|constructor].
    rewrite app_nil_r. apply Hrepl.
  - inversion Haft as [|? ? Hc Ht]; subst.
    destruct skip; cbn [replace_all_from]; [|now apply IH].
    destruct (match_here r bef (c :: aft)) as [e|].
    + apply Forall_app. split; [apply Hrepl|].
      apply Forall_app. split; [|now apply IH].
      destruct (_ =? 0)%nat; [now constructor | constructor].
    + constructor; [exact Hc | now apply IH].
Qed.

(** Replacing every run of code units of a class leaves none of them. *)
Lemma replace_plus_char_none (p : N -> bool) repl :
  (forall m, Forall (fun c => p c = false) (repl m)) ->
  forall n aft bef,
    (length aft <= n)%nat ->
    Forall (fun c => p c = false)
      (replace_all_from (RPlus (RChar p)) repl 0 bef aft).
Proof.
  intros Hrepl. induction n as [|n IH]; intros aft bef Hlen.
  - destruct aft; [|cbn in Hlen; lia]. cbn [replace_all_from].
    rewrite match_plus_char. constructor.
  - destruct aft as [|c aft].
    { cbn [replace_all_from]. rewrite match_plus_char. constructor. }
    cbn [replace_all_from]. rewrite match_plus_char.
    destruct (p c) eqn:Ec.
    + cbn [after].
      pose proof (drop_while_length p aft) as Hdw.
      replace (length (c :: aft) - length (drop_while p aft))%nat
        with (S (length aft - length (drop_while p aft)))
        by (cbn [length]; lia).
      cbn [Nat.eqb app]. rewrite Nat.sub_succ, Nat.sub_0_r.
      rewrite replace_all_from_skip by lia. rewrite drop_take_while.
      apply Forall_app. split; [apply Hrepl|].
      apply IH. cbn in Hlen. lia.
    + constructor; [exact Ec|]. apply IH. cbn in Hlen. lia.
Qed.

(** Collapsing the runs of two or more whitespace code units leaves no
    two of them adjacent. *)
Lemma collapse2_spaced_out :
  forall n aft bef,
    (length aft <= n)%nat ->
    spaced_out (replace_all_from re_spaces2 (fun _ => js " ") 0 bef aft)
    = true
    /\ head_space (replace_all_from re_spaces2 (fun _ => js " ") 0 bef aft)
       = head_space aft.
Proof.
  induction n as [|n IH]; intros aft bef Hlen.
  - destruct aft; [|cbn in Hlen; lia]. cbn [replace_all_from].
    rewrite match_spaces2. now split.
  - destruct aft as [|c1 aft].
    { cbn [replace_all_from]. rewrite match_spaces2. now split. }
    assert (Hlone :
      head_space aft = false ->
      match_here re_spaces2 bef (c1 :: aft) = None ->
      spaced_out (replace_all_from re_spaces2 (fun _ => js " ") 0 bef
                    (c1 :: aft)) = true
      /\ head_space (replace_all_from re_spaces2 (fun _ => js " ") 0 bef
                       (c1 :: aft)) = head_space (c1 :: aft)).
    { intros Hh Hm. cbn [replace_all_from]. rewrite Hm.
      destruct (IH aft (c1 :: bef)) as [Hq Hhd]; [cbn in Hlen; lia|].
      split; [|reflexivity].
      cbn [spaced_out]. rewrite Hq, Hhd, Hh. now destruct (is_space c1). }
    assert (Hsolid :
      is_space c1 = false ->
      match_here re_spaces2 bef (c1 :: aft) = None ->
      spaced_out (replace_all_from re_spaces2 (fun _ => js " ") 0 bef
                    (c1 :: aft)) = true
      /\ head_space (replace_all_from re_spaces2 (fun _ => js " ") 0 bef
                       (c1 :: aft)) = head_space (c1 :: aft)).
    { intros Hc Hm. cbn [replace_all_from]. rewrite Hm.
      destruct (IH aft (c1 :: bef)) as [Hq Hhd]; [cbn in Hlen; lia|].
      split; [|reflexivity].
      cbn [spaced_out]. now rewrite Hq, Hc. }
    pose proof (match_spaces2 bef (c1 :: aft)) as Hm.
    destruct aft as [|c2 rest].
    { apply Hlone; [reflexivity|]. rewrite Hm. now destruct (is_space c1). }
    destruct (is_space c1) eqn:E1; [|now apply Hsolid].
    destruct (is_space c2) eqn:E2;
      [|apply Hlone; [cbn; exact E2 | exact Hm]].
    cbn [replace_all_from]. rewrite Hm. cbn [after].
    pose proof (drop_while_length is_space rest) as Hdw.
    replace (length (c1 :: c2 :: rest) - length (drop_while is_space rest))%nat
      with (S (S (length rest - length (drop_while is_space rest))))
      by (cbn [length]; lia).
    cbn [Nat.eqb app]. rewrite Nat.sub_succ, Nat.sub_0_r.
    rewrite replace_all_from_skip by (cbn [length]; lia).
    cbn [drop]. rewrite drop_take_while.
    match goal with
    | |- context [replace_all_from _ _ 0 ?b (drop_while is_space rest)] =>
        destruct (IH (drop_while is_space rest) b) as [Hq Hh];
          [cbn in Hlen; lia|]
    end.
    assert (Hns : head_space (drop_while is_space rest) = false).
    { destruct (drop_while is_space rest) as [|d rest'] eqn:E; [reflexivity|].
      cbn. eapply drop_while_head, E. }
    rewrite Hns in Hh. change (js " ") with [32%N] in *. cbn [app].
    split; [|cbn; now rewrite E1].
    cbn [spaced_out]. now rewrite Hq, Hh.
Qed.

Lemma spaced_out_no_adjacent (s : jsstring) :
  spaced_out s = true -> no_adjacent_spaces s.
Proof.
  intros H a. revert s H. induction a as [|a0 a IH]; intros s H x y b ->.
  - cbn [app spaced_out head_space] in H. intros Hx Hy.
    rewrite Hx, Hy in H. discriminate.
  - cbn [app spaced_out] in H. apply andb_true_iff in H as [_ H].
    now apply (IH _ H x y b).
Qed.

Lemma no_adjacent_segment (pad1 s pad2 : jsstring) :
  no_adjacent_spaces (pad1 ++ s ++ pad2) -> no_adjacent_spaces s.
Proof.
  intros H a x y b ->. apply (H (pad1 ++ a) x y (b ++ pad2)).
  now rewrite <- !app_assoc.
Qed.

Lemma trim_no_adjacent (s : jsstring) :
  no_adjacent_spaces s -> no_adjacent_spaces (trim s).
Proof.
  intros H. destruct (trim_segment s) as (pad1 & pad2 & E).
  rewrite E in H. eapply no_adjacent_segment, H.
Qed.

Lemma cleaned_title_clean (title : jsstring) :
  Forall (fun c => is_punct c = false) (cleaned_title title)
  /\ no_adjacent_spaces (cleaned_title title)
  /\ trimmed (cleaned_title title).
Proof.
  unfold cleaned_title. split; [|split; [|apply trim_trimmed]].
  - apply trim_Forall. unfold replace_all at 1.
    apply replace_all_from_Forall; [intros _; now repeat constructor|].
    unfold replace_all, re_punct.
    apply (replace_plus_char_none is_punct
             (fun _ => js " ") ltac:(intros ?; now repeat constructor)
             _ _ [] (le_n _)).
  - apply trim_no_adjacent, spaced_out_no_adjacent. unfold replace_all at 1.
    eapply collapse2_spaced_out, le_n.
Qed.

(** X23. When scrubbing leaves a title, that title holds no parenthesis,
    hyphen, en dash or em dash, has no two adjacent whitespace code units,
    and neither starts nor ends with whitespace. *)
Theorem stripDimensionsFromTitle_clean (title : jsstring)
  (dims : option jsstring) :
  cleaned_title title <> [] ->
  Forall (fun c => is_punct c = false) (stripDimensionsFromTitle title dims)
  /\ no_adjacent_spaces (stripDimensionsFromTitle title dims)
  /\ trimmed (stripDimensionsFromTitle title dims).
Proof.
  intros Hne. pose proof (cleaned_title_clean title) as H.
  unfold stripDimensionsFromTitle.
  destruct (cleaned_title title) as [|c0 cl]; [congruence | exact H].
Qed.

Lemma stripDimensionsFromTitle_clean_witness :
  stripDimensionsFromTitle (js "Sunset - study (60x80 in)") None
  = js "Sunset study"
  /\ Forall (fun c => is_punct c = false)
       (stripDimensionsFromTitle (js "Sunset - study (60x80 in)") None)
  /\ no_adjacent_spaces
       (stripDimensionsFromTitle (js "Sunset - study (60x80 in)") None)
  /\ trimmed (stripDimensionsFromTitle (js "Sunset - study (60x80 in)") None).
Proof.
  split; [vm_compute; reflexivity|].
  apply (stripDimensionsFromTitle_clean (js "Sunset - study (60x80 in)") None).
  vm_compute. discriminate.
Defined.

Lemma olio_unit_solid (a : ascii) (c : N) :
  (64 <? upcase (ch a)) && (upcase (ch a) <? 128) = true ->
  is_char_ci a c = true -> is_space c = false.
Proof.
  unfold is_char_ci. intros Ha H. apply N.eqb_eq in H.
  rewrite <- H in Ha. clear H.
  apply andb_true_iff in Ha as [H1 H2].
  apply N.ltb_lt in H1. apply N.ltb_lt in H2.
  assert (Hc : 64 < c < 160).
  { unfold upcase, is_lower, in_range in H1, H2.
    destruct (97 <=? c) eqn:E1; destruct (c <=? 122) eqn:E2;
      cbn [andb] in H1, H2;
      try apply N.leb_le in E1; try apply N.leb_le in E2; lia. }
  unfold is_space, in_range.
  rewrite !orb_false_iff, !andb_false_iff, !N.eqb_neq, !N.leb_gt. lia.
Qed.

(** [normalizeMediumText] leaves the whitespace of a text as it is. *)
Lemma normalizeMediumText_solid (value : jsstring) :
  Forall2 same_or_solid value (normalizeMediumText value).
Proof.
  unfold normalizeMediumText, replace_all.
  apply (replace_all_from_aligned same_or_solid re_olio olio_replacement
           ltac:(now left)) with (aft := value) (skip := 0%nat) (bef := []);
    [|lia].
  intros bef aft e E.
  apply re_olio_match in E as (c1 & c2 & c3 & c4 & -> & H1 & H2 & H3 & H4).
  cbn [length].
  replace (S (S (S (S (length (after e))))) - length (after e))%nat
    with 4%nat by lia.
  split; [lia|].
  change (take 4 (c1 :: c2 :: c3 :: c4 :: after e)) with [c1; c2; c3; c4].
  apply olio_unit_solid in H1; [|reflexivity].
  apply olio_unit_solid in H2; [|reflexivity].
  apply olio_unit_solid in H3; [|reflexivity].
  apply olio_unit_solid in H4; [|reflexivity].
  unfold olio_replacement.
  destruct (jseqb _ _); [|destruct (jseqb _ _)];
    (constructor; [right; split; [assumption | reflexivity]|]);
    (constructor; [right; split; [assumption | reflexivity]|]);
    (constructor; [right; split; [assumption | reflexivity]|]);
    (constructor; [right; split; [assumption | reflexivity]|]);
    constructor.
Qed.

Lemma same_or_solid_space (a b : N) :
  same_or_solid a b -> is_space b = is_space a.
Proof. intros [->|[Ha Hb]]; [reflexivity | congruence]. Qed.

Lemma solid_trimmed (s t : jsstring) :
  Forall2 same_or_solid s t -> trimmed s -> trimmed t.
Proof.
  intros H [Hfirst Hlast]. split.
  - intros c rest ->. inversion H as [|a ? s' ? Hab _]; subst.
    rewrite (same_or_solid_space _ _ Hab). eapply Hfirst. reflexivity.
  - intros init c ->.
    apply Forall2_app_inv_r in H as (s1 & s2 & _ & H2 & ->).
    inversion H2 as [|a ? s' ? Hab Hnil]; subst. inversion Hnil; subst.
    rewrite (same_or_solid_space _ _ Hab). eapply Hlast. reflexivity.
Qed.

Lemma solid_no_adjacent (s t : jsstring) :
  Forall2 same_or_solid s t -> no_adjacent_spaces s -> no_adjacent_spaces t.
Proof.
  intros H Hs a x y b ->.
  apply Forall2_app_inv_r in H as (a' & r' & _ & H & ->).
  inversion H as [|x' ? r1 ? Hx H1]; subst.
  inversion H1 as [|y' ? r2 ? Hy _]; subst.
  rewrite (same_or_solid_space _ _ Hx), (same_or_solid_space _ _ Hy).
  now apply (Hs a' x' y' r2).
Qed.

Lemma solid_plain_spaces (s t : jsstring) :
  Forall2 same_or_solid s t ->
  Forall (fun c => is_space c = true -> c = 32%N) s ->
  Forall (fun c => is_space c = true -> c = 32%N) t.
Proof.
  induction 1 as [|a b s t Hab _ IH]; intros Hs; [constructor|].
  inversion Hs as [|? ? Ha Hs']; subst. constructor; [|now apply IH].
  destruct Hab as [->|[_ Hb]]; [exact Ha | congruence].
Qed.

Lemma stripDimensionsFromTitle_trimmed (title : jsstring)
  (dims : option jsstring) :
  trimmed title -> trimmed (stripDimensionsFromTitle title dims).
Proof.
  intros Ht. unfold stripDimensionsFromTitle.
  destruct (cleaned_title title) as [|c0 cl] eqn:E.
  - destruct dims as [[|d0 d]|]; try exact Ht.
    destruct (without_dimensions_text title (d0 :: d)) eqn:E2; [exact Ht|].
    rewrite <- E2. apply trim_trimmed.
  - rewrite <- E. apply trim_trimmed.
Qed.

(** X24. The texts of a card are tidy.  The title neither starts nor ends
    with whitespace.  A description, when there is one, is not empty,
    neither starts nor ends with whitespace, has no two adjacent
    whitespace code units, and its only whitespace code unit is U+0020. *)
Theorem mapProduct_texts_tidy (item : Raw.Item) (card : ProductCard) :
  mapProduct item = Some card ->
  trimmed (title card)
  /\ forall d, description card = Some d ->
               d <> [] /\ trimmed d /\ no_adjacent_spaces d
               /\ Forall (fun c => is_space c = true -> c = 32%N) d.
Proof.
  intros H. unfold mapProduct in H.
  pose proof (normalizeMediumText_solid (stripTags (Raw.name item))) as Hn.
  assert (Tn : trimmed (stripTags (Raw.name item)))
    by (unfold stripTags; apply collapse_trim_normal).
  destruct (normalizeMediumText (stripTags (Raw.name item))) as [|r0 r] eqn:E;
    [discriminate|].
  injection H as <-. cbn [title description]. split.
  - apply stripDimensionsFromTitle_trimmed. eapply solid_trimmed; eassumption.
  - intros d Hd.
    pose proof (normalizeMediumText_solid (stripTags (Raw.description item)))
      as Hs.
    assert (trimmed (stripTags (Raw.description item))
            /\ Forall (fun c => is_space c = true -> c = 32%N)
                 (stripTags (Raw.description item))
            /\ no_adjacent_spaces (stripTags (Raw.description item)))
      as (T & P & A) by (unfold stripTags; apply collapse_trim_normal).
    destruct (stripTags (Raw.description item)) as [|d0 ds] eqn:Ed;
      [discriminate|].
    injection Hd as <-. split; [|split; [|split]].
    + intros Hnil. rewrite Hnil in Hs. inversion Hs.
    + eapply solid_trimmed; eassumption.
    + eapply solid_no_adjacent; eassumption.
    + eapply solid_plain_spaces; eassumption.
Qed.

Lemma mapProduct_texts_tidy_witness :
  exists card,
    mapProduct (Scenario.raw_item_without_image 7) = Some card
    /\ trimmed (title card)
    /\ forall d, description card = Some d ->
                 d <> [] /\ trimmed d /\ no_adjacent_spaces d
                 /\ Forall (fun c => is_space c = true -> c = 32%N) d.
Proof.
  destruct (mapProduct (Scenario.raw_item_without_image 7)) as [card|] eqn:E;
    [|vm_compute in E; discriminate].
  exists card. split; [reflexivity|].
  exact (mapProduct_texts_tidy (Scenario.raw_item_without_image 7) card E).
Defined.

End CardTexts.

(** ** Attributes *)

Section Attributes.

Import Wp TextSpec.

Lemma trim_of_trimmed (t : jsstring) : trimmed t -> trim t = t.
Proof.
  intros [Hfirst Hlast]. unfold trim.
  assert (H1 : drop_while is_space t = t).
  { destruct t as [|c rest]; [reflexivity|]. cbn [drop_while].
    now rewrite (Hfirst c rest eq_refl). }
  rewrite H1.
  assert (H2 : drop_while is_space (rev t) = rev t).
  { destruct (rev t) as [|c rest] eqn:E; [reflexivity|]. cbn [drop_while].
    rewrite (Hlast (rev rest) c); [reflexivity|].
    now rewrite <- (rev_involutive t), E. }
  rewrite H2. apply rev_involutive.
Qed.

Lemma trim_stripTags (value : option jsstring) :
  trim (stripTags value) = stripTags value.
Proof.
  apply trim_of_trimmed. unfold stripTags. apply collapse_trim_normal.
Qed.

Lemma first_option_app (o1 o2 : list jsstring) :
  WpAttr.first_option (o1 ++ o2) =
  match WpAttr.first_option o1 with
  | Some m => Some m
  | None => WpAttr.first_option o2
  end.
Proof.
  induction o1 as [|o o1 IH]; [reflexivity|]. cbn [app WpAttr.first_option].
  destruct (trim (stripTags (Some o))); [exact IH | reflexivity].
Qed.

Lemma first_option_some (options : list jsstring) (m : jsstring) :
  WpAttr.first_option options = Some m ->
  exists option,
    In option options /\ stripTags (Some option) <> []
    /\ m = normalizeMediumText (stripTags (Some option)).
Proof.
  induction options as [|o options IH]; [discriminate|].
  cbn [WpAttr.first_option]. rewrite trim_stripTags.
  destruct (stripTags (Some o)) as [|c0 cl] eqn:E.
  - intros H. destruct (IH H) as (o' & Hin & Hne & ->).
    exists o'. split; [now right | now split].
  - intros [= <-]. exists o. split; [now left|]. rewrite E. now split.
Qed.

(** X25. In the mapper with attributes, the medium of an item is found by
    one pass over all options of all attributes in order: it is the first
    option that is not empty once stripped, normalised.  A medium or a
    dimension text taken from the attributes is never empty, and the
    dimension text is the stripped name of one of the attributes. *)
Theorem attributes_first_nonempty (attributes : list Raw.Attribute) :
  WpAttr.getMediumFromAttributes attributes
  = WpAttr.first_option (concat (map Raw.options attributes))
  /\ (forall m,
        WpAttr.getMediumFromAttributes attributes = Some m ->
        m <> []
        /\ exists attr option,
             In attr attributes /\ In option (Raw.options attr)
             /\ m = normalizeMediumText (stripTags (Some option)))
  /\ (forall d,
        WpAttr.getDimensionsFromAttributes attributes = Some d ->
        d <> []
        /\ exists attr,
             In attr attributes /\ d = stripTags (Raw.attr_name attr)).
Proof.
  assert (Hflat : WpAttr.getMediumFromAttributes attributes
                  = WpAttr.first_option (concat (map Raw.options attributes))).
  { induction attributes as [|attr rest IH]; [reflexivity|].
    cbn [WpAttr.getMediumFromAttributes map concat].
    rewrite first_option_app, IH. reflexivity. }
  split; [exact Hflat|]. split.
  - intros m Hm. rewrite Hflat in Hm.
    apply first_option_some in Hm as (o & Hin & Hne & ->).
    split; [now rewrite normalizeMediumText_nil|].
    apply in_concat in Hin as (os & Hos & Ho).
    apply in_map_iff in Hos as (attr & <- & Hattr).
    now exists attr, o.
  - induction attributes as [|attr rest IH]; [discriminate|].
    intros d. cbn [WpAttr.getDimensionsFromAttributes].
    rewrite trim_stripTags.
    destruct (stripTags (Raw.attr_name attr)) as [|c0 cl] eqn:E.
    + intros H.
      assert (Hrest : WpAttr.getMediumFromAttributes rest
                      = WpAttr.first_option (concat (map Raw.options rest))).
      { clear. induction rest as [|attr rest IH]; [reflexivity|].
        cbn [WpAttr.getMediumFromAttributes map concat].
        rewrite first_option_app, IH. reflexivity. }
      destruct (IH Hrest d H) as (Hne & a & Hin & ->).
      split; [exact Hne|]. exists a. split; [now right | reflexivity].
    + intros [= <-]. split; [discriminate|].
      exists attr. split; [now left | now rewrite E].
Qed.

End Attributes.

(** ** The two login endpoints *)

Section LoginVariants.

Import CoaAuth.

Lemma getEnvValue_single (env process_env : gmap jsstring jsstring)
  (key : jsstring) :
  Env.Object_prototype key = None ->
  (env !! key = None -> process_env !! key = None) ->
  Env.getEnvValue env process_env (Env.ManyKeys [key]) = env !! key.
Proof.
  intros Hplain H. unfold Env.getEnvValue. cbn [Env.toArray Env.first_defined].
  unfold Env.layered, Env.member. rewrite Hplain.
  destruct (env !! key) as [v|]; [reflexivity|].
  now rewrite H.
Qed.

(** X26. The endpoint that reads [import.meta.env] itself and the one that
    goes through [getEnvValue] end alike, with the same response or the
    same exception, and leave the same state, unless [process.env]
    supplies one of [COA_USER], [COA_PASSWORD] and [COA_SECRET] that
    [import.meta.env] lacks. *)
Theorem POST_variants_agree (pf : Platform)
  (env process_env : gmap jsstring jsstring)
  (body : option ParsedBody) (w : World) :
  (forall key,
      In key [js "COA_USER"; js "COA_PASSWORD"; js "COA_SECRET"] ->
      env !! key = None -> process_env !! key = None) ->
  CoaAuth.POST pf env process_env body w = CoaAuthDirect.POST pf env body w.
Proof.
  intros H. unfold CoaAuth.POST, CoaAuthDirect.POST.
  rewrite !getEnvValue_single;
    [reflexivity|..]; try reflexivity; apply H; cbn; auto.
Qed.

Lemma POST_variants_agree_witness :
  let env : gmap jsstring jsstring :=
    {[ js "COA_USER" := js "admin"; js "COA_PASSWORD" := js "s3cret" ]} in
  let process_env : gmap jsstring jsstring :=
    {[ js "COA_USER" := js "root" ]} in
  let pf := {| random_byte := fun i => N.of_nat (16 * i + 3);
               hmac_sha256_hex := fun k d => js "5f";
               timer_lag := fun _ => 0%N |} in
  let body := Some (JsonValue {| user := Text (js "admin");
                                 password := Text (js "s3cret") |}) in
  CoaAuth.POST pf env process_env body {| now := 1000; drawn := 0 |}
  = CoaAuthDirect.POST pf env body {| now := 1000; drawn := 0 |}.
Proof.
  intros env process_env pf body.
  apply (POST_variants_agree pf env process_env body).
  intros key [<-|[<-|[<-|[]]]]; vm_compute; congruence.
Defined.

(** Where the two endpoints part: a user name that only [process.env]
    holds configures one endpoint and not the other. *)
Example POST_variants_differ :
  let process_env : gmap jsstring jsstring :=
    {[ js "COA_USER" := js "admin"; js "COA_PASSWORD" := js "s3cret" ]} in
  let pf := {| random_byte := fun i => N.of_nat (16 * i + 3);
               hmac_sha256_hex := fun k d => js "5f";
               timer_lag := fun _ => 0%N |} in
  let body := Some (JsonValue {| user := Text (js "admin");
                                 password := Text (js "s3cret") |}) in
  AuthSpec.answers
    (CoaAuth.POST pf ∅ process_env body {| now := 1000; drawn := 0 |}) 200
  /\ AuthSpec.answers
       (CoaAuthDirect.POST pf ∅ body {| now := 1000; drawn := 0 |}) 503.
Proof. split; vm_compute; eexists; eexists; split; reflexivity. Qed.

End LoginVariants.
